(** * utils/tree/load_parameters.py: pairwise likelihoods, spanning tree and
      adjacency materialisation

    The development follows the Python module function by function.

    - Python exceptions are values of [exn] carried by the error monad
      [result]; the functions of the orchestration, which draw random
      sequences and print, run in a state-and-error monad over the state of
      the random number generator and standard output.
    - numpy arrays are lists (one list per row for a 2-D array) indexed with
      numpy's rules, negative indices included.  numpy floats are idealised as
      real numbers, [np.log] being [ln]; [np.exp] is [exp] with the underflow
      of a double to 0.0 ([exp_float]); the sentinel [-np.inf] is added
      where [get_mst] tests for it.
    - Of networkx the module uses [Graph], [add_edge], [edges] and
      [maximum_spanning_tree]; they are modelled as the library implements
      them: adjacency in insertion-ordered dicts, Kruskal's algorithm on the
      edges sorted by a stable sort, heaviest first.  The spanning-tree
      development is generic in the type of the weights ([Weight]), with the
      integers and the reals as instances.
    - The modules [substitution_models], [tree_utils] and [data_utils] of the
      repository are not among the sources; their functions are parameters
      ([SubstitutionModel], [Collaborators]). *)

From Stdlib Require Import String Ascii.
From Stdlib Require Import List ZArith Reals Lra Lia Bool Arith Permutation Relations Sorted.
Import ListNotations.

(* ================================================================== *)
(** * Exceptions and the error monad *)
(* ================================================================== *)

Inductive exn : Type :=
| ValueError (msg : string)
| IndexError (msg : string).

Inductive result (A : Type) : Type :=
| Ok (a : A)
| Raise (e : exn).

Arguments Ok {A} a.
Arguments Raise {A} e.

Definition bind {A B : Type} (c : result A) (k : A -> result B) : result B :=
  match c with
  | Ok a => k a
  | Raise e => Raise e
  end.

Declare Scope result_scope.
Delimit Scope result_scope with result.
Notation "x <- c ;; k" := (bind c (fun x => k))
  (at level 61, c at next level, right associativity) : result_scope.
Notation "' pat <- c ;; k" := (bind c (fun x => match x with pat => k end))
  (at level 61, pat pattern, c at next level, right associativity) : result_scope.
Local Open Scope result_scope.

(** A [for] loop whose body may raise: the first exception ends the loop. *)
Fixpoint for_each {A B : Type} (body : B -> A -> result B) (l : list A) (acc : B)
  : result B :=
  match l with
  | [] => Ok acc
  | x :: l' => acc' <- body acc x ;; for_each body l' acc'
  end.

(* ================================================================== *)
(** * numpy arrays *)
(* ================================================================== *)

Definition matrix (A : Type) : Type := list (list A).

Definition out_of_bounds : string := "index is out of bounds"%string.

(** Indexing one axis of size [len] with a Python integer: negative indices
    count from the end, anything else outside the axis is an IndexError. *)
Definition np_index (len : nat) (i : Z) : result nat :=
  if ((0 <=? i) && (i <? Z.of_nat len))%Z then Ok (Z.to_nat i)
  else if ((- Z.of_nat len <=? i) && (i <? 0))%Z then Ok (Z.to_nat (i + Z.of_nat len))
  else Raise (IndexError out_of_bounds).

(** [a[i]] for a 1-D array or for the rows of a 2-D one. *)
Definition np_get {A : Type} (a : list A) (i : Z) : result A :=
  k <- np_index (length a) i ;;
  match nth_error a k with
  | Some x => Ok x
  | None => Raise (IndexError out_of_bounds)
  end.

(** [M[i, j]] *)
Definition np_get2 {A : Type} (M : matrix A) (i j : Z) : result A :=
  row <- np_get M i ;; np_get row j.

Fixpoint list_set {A : Type} (l : list A) (k : nat) (x : A) : list A :=
  match l, k with
  | [], _ => []
  | _ :: l', O => x :: l'
  | y :: l', S k' => y :: list_set l' k' x
  end.

(** [M[i, j] = x] *)
Definition np_set2 {A : Type} (M : matrix A) (i j : Z) (x : A) : result (matrix A) :=
  r <- np_index (length M) i ;;
  match nth_error M r with
  | Some row =>
      c <- np_index (length row) j ;;
      Ok (list_set M r (list_set row c x))
  | None => Raise (IndexError out_of_bounds)
  end.

(** [np.zeros((rows, cols))], for the zero of the element type *)
Definition np_zeros {A : Type} (zero : A) (rows cols : nat) : matrix A :=
  repeat (repeat zero cols) rows.

(** [len(M)] / [M.shape[0]] *)
Definition n_rows {A : Type} (M : matrix A) : nat := length M.

(** [M.shape[1]] *)
Definition n_cols {A : Type} (M : matrix A) : nat :=
  match M with
  | [] => 0
  | row :: _ => length row
  end.

(** A 2-D array of the given shape. *)
Definition has_shape {A : Type} (rows cols : nat) (M : matrix A) : Prop :=
  length M = rows /\ Forall (fun row => length row = cols) M.

(* ================================================================== *)
(** * The substitution model *)
(* ================================================================== *)

(** Modelled from the spec: [JukesCantor] (utils/tree/substitution_models.py)
    is not part of the sources at hand.  The spec gives its interface: a
    branch-length optimiser taking the 4x4 substitution counts and a
    transition matrix for a branch length; both are pure. *)
Record SubstitutionModel : Type := {
  optimize_t : matrix Z -> R;
  trans_matrix : R -> matrix R
}.

(** The contract of [trans_matrix]: a 4x4 matrix. *)
Definition model_4x4 (m : SubstitutionModel) : Prop :=
  forall t, has_shape 4 4 (trans_matrix m t).

(** ... all of whose entries are positive. *)
Definition model_positive (m : SubstitutionModel) : Prop :=
  forall t, Forall (Forall (fun p => (0 < p)%R)) (trans_matrix m t).

(* ================================================================== *)
(** * compute_log_likelihood *)
(* ================================================================== *)

Definition length_mismatch : exn :=
  ValueError "Sequences must be of equal length."%string.

(** [S_ij[i, j] += 1] *)
Definition count_site (S_ij : matrix Z) (site : Z * Z) : result (matrix Z) :=
  let '(i, j) := site in
  old <- np_get2 S_ij i j ;;
  np_set2 S_ij i j (old + 1)%Z.

(** The substitution counts of a pair: lines 44-46. *)
Definition substitution_counts (seq1 seq2 : list Z) : result (matrix Z) :=
  for_each count_site (combine seq1 seq2) (np_zeros 0%Z 4 4).

(** [log_likelihood += np.log(P_t[i, j])]; [np.log] is the real logarithm
    on the positive entries of a transition matrix. *)
Definition add_site (P_t : matrix R) (log_likelihood : R) (site : Z * Z) : result R :=
  let '(i, j) := site in
  p <- np_get2 P_t i j ;;
  Ok (log_likelihood + ln p)%R.

Definition compute_log_likelihood (seq1 seq2 : list Z) (model : SubstitutionModel)
  : result R :=
  if negb (length seq1 =? length seq2) then Raise length_mismatch
  else
    S_ij <- substitution_counts seq1 seq2 ;;
    let t_opt := optimize_t model S_ij in
    let P_t := trans_matrix model t_opt in
    log_likelihood <- for_each (add_site P_t) (combine seq1 seq2) 0%R ;;
    Ok log_likelihood.

(** ** The same function on a store of arrays

    Python passes the two sequences by reference; the only array the
    function writes is the array of counts that it allocates.  Here the
    arrays live in a store, the sequences are given by their addresses, and
    [S_ij] is allocated at a fresh address and updated in place. *)

Inductive ndarray : Type :=
| IntArray1 (a : list Z)
| IntArray2 (M : matrix Z).

Definition store : Type := list ndarray.

(** [S_ij[i, j] += 1] for the array at the address [S]. *)
Definition store_count_site (S : nat) (st : store) (site : Z * Z) : result store :=
  match nth_error st S with
  | Some (IntArray2 S_ij) =>
      S_ij' <- count_site S_ij site ;;
      Ok (list_set st S (IntArray2 S_ij'))
  | _ => Raise (IndexError out_of_bounds)
  end.

(** The counting loop; the store is returned also when the loop raises. *)
Fixpoint store_count_loop (S : nat) (sites : list (Z * Z)) (st : store)
  : option exn * store :=
  match sites with
  | [] => (None, st)
  | site :: sites' =>
      match store_count_site S st site with
      | Ok st' => store_count_loop S sites' st'
      | Raise e => (Some e, st)
      end
  end.

Definition compute_log_likelihood_store (seq1 seq2 : nat) (model : SubstitutionModel)
    (st : store) : result R * store :=
  match nth_error st seq1, nth_error st seq2 with
  | Some (IntArray1 s1), Some (IntArray1 s2) =>
      if negb (length s1 =? length s2) then (Raise length_mismatch, st)
      else
        let S := length st in
        let st1 := st ++ [IntArray2 (np_zeros 0%Z 4 4)] in
        match store_count_loop S (combine s1 s2) st1 with
        | (Some e, st2) => (Raise e, st2)
        | (None, st2) =>
            match nth_error st2 S with
            | Some (IntArray2 S_ij) =>
                let t_opt := optimize_t model S_ij in
                let P_t := trans_matrix model t_opt in
                (for_each (add_site P_t) (combine s1 s2) 0%R, st2)
            | _ => (Raise (IndexError out_of_bounds), st2)
            end
        end
  | _, _ => (Raise (IndexError out_of_bounds), st)
  end.

(* ================================================================== *)
(** * Edge weights *)
(* ================================================================== *)

(** An entry of the weight matrix: [-np.inf] or a finite weight. *)
Inductive npfloat (V : Type) : Type :=
| NegInf
| Finite (v : V).

Arguments NegInf {V}.
Arguments Finite {V} v.

(** What the spanning-tree code does with weights: it compares them (the
    sort of Kruskal's algorithm); the total weight of a tree adds them. *)
Class Weight (V : Type) : Type := {
  wleb : V -> V -> bool;
  wadd : V -> V -> V;
  wzero : V
}.

#[export] Instance Weight_Z : Weight Z :=
  {| wleb := Z.leb; wadd := Z.add; wzero := 0%Z |}.

#[export] Instance Weight_R : Weight R :=
  {| wleb := fun x y => if Rle_dec x y then true else false;
     wadd := Rplus; wzero := 0%R |}.

(* ================================================================== *)
(** * networkx: Graph *)
(* ================================================================== *)

(** A Python dict with integer keys: insertion-ordered; assigning to a key
    that is present keeps its position. *)
Definition dict (A : Type) : Type := list (nat * A).

Fixpoint dict_get {A : Type} (d : dict A) (k : nat) : option A :=
  match d with
  | [] => None
  | (k', a) :: d' => if k' =? k then Some a else dict_get d' k
  end.

Fixpoint dict_set {A : Type} (d : dict A) (k : nat) (a : A) : dict A :=
  match d with
  | [] => [(k, a)]
  | (k', a') :: d' =>
      if k' =? k then (k', a) :: d' else (k', a') :: dict_set d' k a
  end.

Definition dict_keys {A : Type} (d : dict A) : list nat := map fst d.

Definition mem (k : nat) (l : list nat) : bool := existsb (Nat.eqb k) l.

Section Graphs.

Context {V : Type}.

(** [G._adj]: node -> neighbour -> weight (the only edge attribute). *)
Definition Graph : Type := dict (dict V).

Definition edge : Type := (nat * nat * V)%type.

Definition weight_of (e : edge) : V := snd e.

Definition empty_graph : Graph := [].

(** [G.nodes] *)
Definition nodes (G : Graph) : list nat := dict_keys G.

(** [G._adj[u]] *)
Definition neighbours (G : Graph) (u : nat) : dict V :=
  match dict_get G u with
  | Some nbrs => nbrs
  | None => []
  end.

(** [G[u][v]['weight']] when the edge is there *)
Definition edge_weight (G : Graph) (u v : nat) : option V :=
  dict_get (neighbours G u) v.

Definition add_node (G : Graph) (n : nat) : Graph :=
  match dict_get G n with
  | Some _ => G
  | None => dict_set G n []
  end.

(** [G.add_edge(u, v, weight=w)]: both endpoints become nodes, and the
    weight is stored under [u][v] and [v][u]. *)
Definition add_edge (G : Graph) (u v : nat) (w : V) : Graph :=
  let G1 := add_node G u in
  let G2 := add_node G1 v in
  let G3 := dict_set G2 u (dict_set (neighbours G2 u) v w) in
  dict_set G3 v (dict_set (neighbours G3 v) u w).

Definition add_nodes_from (G : Graph) (ns : list nat) : Graph :=
  fold_left add_node ns G.

Definition add_edges_from (G : Graph) (es : list edge) : Graph :=
  fold_left (fun G e => add_edge G (fst (fst e)) (snd (fst e)) (snd e)) es G.

(** [G.edges(data=True)]: each node in turn reports the neighbours that
    are not among the nodes already done. *)
Fixpoint edges_from (seen : list nat) (G : Graph) : list edge :=
  match G with
  | [] => []
  | (n, nbrs) :: G' =>
      map (fun mw => (n, fst mw, snd mw))
          (filter (fun mw => negb (mem (fst mw) seen)) nbrs)
      ++ edges_from (n :: seen) G'
  end.

Definition edges (G : Graph) : list edge := edges_from [] G.

(** [list(G.edges)] *)
Definition edge_pairs (G : Graph) : list (nat * nat) := map fst (edges G).

(* ---------------------------------------------------------------- *)
(** ** networkx: maximum_spanning_tree (Kruskal) *)

Context `{Weight V}.

(** [sorted(edges, key=weight, reverse=True)]: descending and stable. *)
Fixpoint insert_desc (e : edge) (l : list edge) : list edge :=
  match l with
  | [] => [e]
  | e' :: l' =>
      if wleb (weight_of e') (weight_of e) then e :: e' :: l'
      else e' :: insert_desc e l'
  end.

Definition sort_desc (l : list edge) : list edge :=
  fold_right insert_desc [] l.

(** The union-find structure, as the map from a node to the
    representative of its subtree. *)
Definition UnionFind : Type := nat -> nat.

Definition uf_init : UnionFind := fun x => x.

Definition union (u v : nat) (f : UnionFind) : UnionFind :=
  fun x => if f x =? f u then f v else f x.

(** The scan of the sorted edges: an edge is yielded when its endpoints
    lie in different subtrees, which are then merged. *)
Fixpoint kruskal_scan (es : list edge) (subtrees : UnionFind) : list edge :=
  match es with
  | [] => []
  | (u, v, w) :: es' =>
      if subtrees u =? subtrees v then kruskal_scan es' subtrees
      else (u, v, w) :: kruskal_scan es' (union u v subtrees)
  end.

Definition kruskal_mst_edges (G : Graph) : list edge :=
  kruskal_scan (sort_desc (edges G)) uf_init.

(** [nx.maximum_spanning_tree(G)]: a new graph with the nodes of [G] and
    the edges Kruskal's algorithm yields. *)
Definition maximum_spanning_tree (G : Graph) : Graph :=
  add_edges_from (add_nodes_from empty_graph (nodes G)) (kruskal_mst_edges G).

(* ---------------------------------------------------------------- *)
(** ** get_mst *)

(** The body of the inner loop: lines 124-128. *)
Definition mst_cell (W : matrix (npfloat V)) (i : nat) (G : Graph) (j : nat)
  : result Graph :=
  x <- np_get2 W (Z.of_nat i) (Z.of_nat j) ;;
  match x with
  | NegInf => Ok G
  | Finite w => Ok (add_edge G i j w)
  end.

Definition mst_row (W : matrix (npfloat V)) (n_nodes : nat) (G : Graph) (i : nat)
  : result Graph :=
  for_each (mst_cell W i) (seq 0 n_nodes) G.

(** The graph [G] handed to [nx.maximum_spanning_tree]: lines 117-128. *)
Definition mst_graph (W : matrix (npfloat V)) : result Graph :=
  let n_nodes := n_rows W - 1 in
  for_each (mst_row W n_nodes) (seq 0 n_nodes) empty_graph.

Definition get_mst (W : matrix (npfloat V)) : result Graph :=
  G <- mst_graph W ;;
  Ok (maximum_spanning_tree G).

End Graphs.

Arguments Graph V : clear implicits.
Arguments edge V : clear implicits.

(* ================================================================== *)
(** * build_weighted_adjacency_matrix *)
(* ================================================================== *)

(** The body of the inner loop: lines 75-82. *)
Definition likelihood_cell (one_hot_sequences : matrix Z) (model : SubstitutionModel)
    (i : nat) (adjacency_matrix : matrix R) (j : nat) : result (matrix R) :=
  if negb (i =? j) then
    seq_i <- np_get one_hot_sequences (Z.of_nat i) ;;
    seq_j <- np_get one_hot_sequences (Z.of_nat j) ;;
    log_likelihood <- compute_log_likelihood seq_i seq_j model ;;
    np_set2 adjacency_matrix (Z.of_nat i) (Z.of_nat j) log_likelihood
  else
    np_set2 adjacency_matrix (Z.of_nat i) (Z.of_nat j) 0%R.

Definition likelihood_row (one_hot_sequences : matrix Z) (model : SubstitutionModel)
    (num_sequences : nat) (adjacency_matrix : matrix R) (i : nat) : result (matrix R) :=
  for_each (likelihood_cell one_hot_sequences model i) (seq 0 num_sequences)
           adjacency_matrix.

(** The array [adjacency_matrix] when the loops are done: lines 70-82. *)
Definition log_likelihood_matrix (one_hot_sequences : matrix Z)
    (model : SubstitutionModel) : result (matrix R) :=
  let num_sequences := length one_hot_sequences in
  for_each (likelihood_row one_hot_sequences model num_sequences)
           (seq 0 num_sequences) (np_zeros 0%R num_sequences num_sequences).

(** [np.exp] of a float64.  The result is a double: where the exponential is
    less than half the smallest positive double 2^-1074, that is below
    -1075 ln 2 (about -745.13), it is rounded to 0.0.  (Above 1024 ln 2 the
    result is inf; a log-likelihood is a sum of logarithms of probabilities
    and so is not above 0.) *)
Definition exp_underflow : R := (- 1075 * ln 2)%R.

Definition exp_float (x : R) : R :=
  if Rlt_dec x exp_underflow then 0%R else exp x.

(** [np.exp] of a 2-D array *)
Definition np_exp (M : matrix R) : matrix R := map (map exp_float) M.

Definition build_weighted_adjacency_matrix (one_hot_sequences : matrix Z)
    (model : SubstitutionModel) : result (matrix R) :=
  adjacency_matrix <- log_likelihood_matrix one_hot_sequences model ;;
  Ok (np_exp adjacency_matrix).

(* ================================================================== *)
(** * generate_unweighted_adj_matrix *)
(* ================================================================== *)

(** [np.array(pairs).T] with its shape: a 2 x E array for E >= 1 pairs; the
    array of an empty list is 1-D of shape (0,), and so is its transpose. *)
Definition edge_array (pairs : list (nat * nat)) : list nat * matrix Z :=
  match pairs with
  | [] => ([0], [])
  | _ :: _ =>
      ([2; length pairs],
       [map (fun p => Z.of_nat (fst p)) pairs; map (fun p => Z.of_nat (snd p)) pairs])
  end.

Definition tuple_index_error : exn := IndexError "tuple index out of range"%string.

(** [shape[k]] *)
Definition tuple_get (shape : list nat) (k : nat) : result nat :=
  match nth_error shape k with
  | Some n => Ok n
  | None => Raise tuple_index_error
  end.

(** The body of the loop: lines 142-144. *)
Definition mark_edge (edges : matrix Z) (adj_matrix : matrix Z) (i : nat)
  : result (matrix Z) :=
  u <- np_get2 edges 0 (Z.of_nat i) ;;
  v <- np_get2 edges 1 (Z.of_nat i) ;;
  adj_matrix1 <- np_set2 adj_matrix u v 1%Z ;;
  np_set2 adj_matrix1 v u 1%Z.

Definition generate_unweighted_adj_matrix {V : Type} (mst : Graph V) (num_nodes : nat)
  : result (matrix Z) :=
  let '(shape, edges) := edge_array (edge_pairs mst) in
  let adj_matrix := np_zeros 0%Z num_nodes num_nodes in
  n_edges <- tuple_get shape 1 ;;
  for_each (mark_edge edges) (seq 0 n_edges) adj_matrix.

(** The sub-pipeline from a weight matrix to the adjacency matrix. *)
Definition adjacency_of_weights {V : Type} `{Weight V} (W : matrix (npfloat V))
    (num_nodes : nat) : result (matrix Z) :=
  mst <- get_mst W ;;
  generate_unweighted_adj_matrix mst num_nodes.

(* ================================================================== *)
(** * one_hot and the reduction to integer codes *)
(* ================================================================== *)

(** The dict [bases] *)
Definition bases (nucleotide : ascii) : option nat :=
  if Ascii.eqb nucleotide "A" then Some 0
  else if Ascii.eqb nucleotide "C" then Some 1
  else if Ascii.eqb nucleotide "G" then Some 2
  else if Ascii.eqb nucleotide "T" then Some 3
  else None.

(** [encoded[i, j, :]] for the nucleotide at position [j], or for padding *)
Definition one_hot_site (nucleotide : option ascii) : list Z :=
  match nucleotide with
  | Some c =>
      match bases c with
      | Some b => list_set (repeat 0%Z 4) b 1%Z
      | None => repeat 0%Z 4
      end
  | None => repeat 0%Z 4
  end.

Definition max_empty : exn := ValueError "max() arg is an empty sequence"%string.

Definition one_hot (sequences : list string) : result (list (matrix Z)) :=
  match sequences with
  | [] => Raise max_empty
  | _ :: _ =>
      let max_length := list_max (map String.length sequences) in
      Ok (map (fun sequence =>
                 map (fun j => one_hot_site (String.get j sequence)) (seq 0 max_length))
              sequences)
  end.

(** [np.argmax] of a 1-D array: the first index of the maximum. *)
Fixpoint argmax_from (best : Z) (best_at : nat) (k : nat) (l : list Z) : nat :=
  match l with
  | [] => best_at
  | x :: l' =>
      if (best <? x)%Z then argmax_from x k (S k) l'
      else argmax_from best best_at (S k) l'
  end.

Definition argmax (l : list Z) : Z :=
  match l with
  | [] => 0%Z
  | x :: l' => Z.of_nat (argmax_from x 0 1 l')
  end.

(** [np.argmax(encoded, axis=-1)] *)
Definition argmax_last_axis (encoded : list (matrix Z)) : matrix Z :=
  map (map argmax) encoded.

(* ================================================================== *)
(** * scipy.sparse.csr_matrix *)
(* ================================================================== *)

Record csr : Type := {
  csr_shape : nat * nat;
  csr_data : list Z;
  csr_indices : list nat;
  csr_indptr : list nat
}.

Definition row_nonzeros (row : list Z) : list (nat * Z) :=
  filter (fun cx => negb (snd cx =? 0)%Z) (combine (seq 0 (length row)) row).

Fixpoint indptr_from (start : nat) (counts : list nat) : list nat :=
  match counts with
  | [] => [start]
  | c :: counts' => start :: indptr_from (start + c) counts'
  end.

Definition csr_matrix (M : matrix Z) : csr :=
  let nz := map row_nonzeros M in
  {| csr_shape := (n_rows M, n_cols M);
     csr_data := concat (map (map snd) nz);
     csr_indices := concat (map (map fst) nz);
     csr_indptr := indptr_from 0 (map (@length _) nz) |}.

(* ================================================================== *)
(** * The orchestration: generate_node_features ... generate_data *)
(* ================================================================== *)

(** Modelled from the spec: [create_tree] (utils/tree/tree_utils.py),
    [simulate_seq] (utils/tree/data_utils.py) and the constructor
    [JukesCantor] are not part of the sources at hand.  The spec gives
    their interfaces; the two generators are random, so each takes the state
    of the random number generator and returns the next one. *)
Record Collaborators : Type := {
  rng : Type;
  tree : Type;
  aux : Type;
  create_tree : nat -> R -> rng -> (tree * aux) * rng;
  simulate_seq : tree -> SubstitutionModel -> nat -> rng -> (list string * aux) * rng;
  JukesCantor : R -> SubstitutionModel
}.

(** What a call can change: the random number generator and standard
    output. *)
Record world (C : Collaborators) : Type := {
  w_rng : rng C;
  w_stdout : list string
}.

Arguments w_rng {C} w.
Arguments w_stdout {C} w.

Definition M (C : Collaborators) (A : Type) : Type :=
  world C -> result (A * world C).

Definition ret {C : Collaborators} {A : Type} (a : A) : M C A :=
  fun w => Ok (a, w).

Definition bindM {C : Collaborators} {A B : Type} (c : M C A) (k : A -> M C B) : M C B :=
  fun w =>
    match c w with
    | Ok (a, w') => k a w'
    | Raise e => Raise e
    end.

Definition lift {C : Collaborators} {A : Type} (r : result A) : M C A :=
  fun w =>
    match r with
    | Ok a => Ok (a, w)
    | Raise e => Raise e
    end.

Definition random {C : Collaborators} {A : Type} (draw : rng C -> A * rng C) : M C A :=
  fun w =>
    let '(a, g) := draw (w_rng w) in
    Ok (a, {| w_rng := g; w_stdout := w_stdout w |}).

Definition print {C : Collaborators} (line : string) : M C unit :=
  fun w => Ok (tt, {| w_rng := w_rng w; w_stdout := w_stdout w ++ [line] |}).

Declare Scope world_scope.
Delimit Scope world_scope with world.
Notation "x <~ c ;; k" := (bindM c (fun x => k))
  (at level 61, c at next level, right associativity) : world_scope.

Section Orchestration.

Variable C : Collaborators.

Local Open Scope world_scope.

Definition generate_node_features (n_leaves : nat) (alpha : R) : M C (matrix Z) :=
  tree_opt <~ random (create_tree C n_leaves (1 / 10)%R) ;;
  let evo_model := JukesCantor C alpha in
  sim_seq_prob <~ random (simulate_seq C (fst tree_opt) evo_model 10) ;;
  encoded_seq <~ lift (one_hot (fst sim_seq_prob)) ;;
  let features_reduced := argmax_last_axis encoded_seq in
  ret features_reduced.

Definition generate_weighted_adj_matrix (n_leaves : nat) (alpha : R) : M C (matrix R) :=
  encoded_seq <~ generate_node_features n_leaves alpha ;;
  let model := JukesCantor C alpha in
  weighted_adj_matrix <~ lift (build_weighted_adjacency_matrix encoded_seq model) ;;
  ret weighted_adj_matrix.

(** The weights come out of [np.exp], which yields no [-np.inf]. *)
Definition as_weights (W : matrix R) : matrix (npfloat R) := map (map Finite) W.

Definition generate_data (n_leaves : nat) (alpha : R) : M C (csr * matrix Z) :=
  node_features <~ generate_node_features n_leaves alpha ;;
  weighted_adj_matrix <~ generate_weighted_adj_matrix n_leaves alpha ;;
  mst <~ lift (get_mst (as_weights weighted_adj_matrix)) ;;
  adj_matrix <~ lift (generate_unweighted_adj_matrix mst n_leaves) ;;
  _ <~ (if negb (n_rows node_features =? n_rows adj_matrix)
        then print "Inconsistant shape between node_features and adjancy matrix."
        else ret tt) ;;
  _ <~ (if negb (n_rows adj_matrix =? n_cols adj_matrix)
        then print "Invalid adjancy matrix."
        else ret tt) ;;
  ret (csr_matrix adj_matrix, node_features).

(** The sub-pipeline as [generate_data] runs it: lines 152-154. *)
Definition sub_pipeline {V : Type} `{Weight V} (W : matrix (npfloat V))
    (num_nodes : nat) : M C (matrix Z) :=
  mst <~ lift (get_mst W) ;;
  lift (generate_unweighted_adj_matrix mst num_nodes).

(** The adjacency that the pipeline of the specification derives from a
    given set of encoded sequences. *)
Definition adjacency_from_features (features : matrix Z) (n_leaves : nat) (alpha : R)
  : result csr :=
  W <- build_weighted_adjacency_matrix features (JukesCantor C alpha) ;;
  adj_matrix <- adjacency_of_weights (as_weights W) n_leaves ;;
  Ok (csr_matrix adj_matrix).

End Orchestration.

(* ================================================================== *)
(** * Concrete inputs for the examples *)
(* ================================================================== *)

(** A model whose transition matrix has the Jukes-Cantor shape (one value on
    the diagonal, one off it, rows summing to 1) for every branch length. *)
Definition example_matrix : matrix R :=
  [[7/10; 1/10; 1/10; 1/10];
   [1/10; 7/10; 1/10; 1/10];
   [1/10; 1/10; 7/10; 1/10];
   [1/10; 1/10; 1/10; 7/10]]%R.

Definition example_model : SubstitutionModel :=
  {| optimize_t := fun _ => 1%R; trans_matrix := fun _ => example_matrix |}.





(** A 4 x 4 weight matrix, and the graph on the indices 0..2 that [get_mst]
    builds from it. *)
Definition example_weights : matrix (npfloat Z) :=
  [[Finite 1; Finite 5; Finite 2; Finite 9];
   [Finite 5; Finite 1; Finite 7; Finite 9];
   [Finite 2; Finite 7; Finite 1; Finite 9];
   [Finite 9; Finite 9; Finite 9; Finite 1]]%Z.

Definition example_graph : Graph Z :=
  [(0, [(0, 1%Z); (1, 5%Z); (2, 2%Z)]);
   (1, [(0, 5%Z); (1, 1%Z); (2, 7%Z)]);
   (2, [(0, 2%Z); (1, 7%Z); (2, 1%Z)])].

(** Collaborators for an example.  The state of the generator counts the
    draws; the first draw gives the sequences of [first_draw], every later
    one those of [later_draw], each sequence with [ndata] sites. *)
Fixpoint repeat_nucleotide (c : ascii) (ndata : nat) : string :=
  match ndata with
  | O => EmptyString
  | S k => String c (repeat_nucleotide c k)
  end.

Definition first_draw : list ascii := ["A"; "A"; "T"; "C"]%char.

Definition later_draw : list ascii := ["T"; "A"; "A"; "C"]%char.

Definition example_collaborators : Collaborators :=
  {| rng := nat;
     tree := unit;
     aux := unit;
     create_tree := fun _ _ g => ((tt, tt), g);
     simulate_seq := fun _ _ ndata g =>
       ((map (fun c => repeat_nucleotide c ndata)
             (match g with O => first_draw | S _ => later_draw end), tt), S g);
     JukesCantor := fun _ => example_model |}.

Definition example_world : world example_collaborators :=
  @Build_world example_collaborators 0 [].

(** The weights of four sequences of which those at [0] and [1] are equal
    ([a] between the equal ones, [b] between different ones, [c] on the
    diagonal), and of four of which those at [1] and [2] are equal. *)
Definition weights_01 (a b c : R) : matrix R :=
  [[c; a; b; b]; [a; c; b; b]; [b; b; c; b]; [b; b; b; c]].

Definition weights_12 (a b c : R) : matrix R :=
  [[c; b; b; b]; [b; c; a; b]; [b; a; c; b]; [b; b; b; c]].

(** The sum of the logarithms over ten sites with the same probability. *)
Definition ten_sites (p : R) : R :=
  (0 + ln p + ln p + ln p + ln p + ln p + ln p + ln p + ln p + ln p + ln p)%R.

(** The integer codes of the two draws. *)
Definition first_features : matrix Z :=
  map (fun code => repeat code 10) [0; 0; 3; 1]%Z.

Definition later_features : matrix Z :=
  map (fun code => repeat code 10) [3; 0; 0; 1]%Z.

(** The trees on the indices 0..2 for the two draws, and their adjacency
    matrices for four nodes. *)
Definition tree_01 (a b : R) : Graph R :=
  [(0, [(1, a); (2, b)]); (1, [(0, a)]); (2, [(0, b)])].

Definition tree_12 (a b : R) : Graph R :=
  [(0, [(1, b)]); (1, [(2, a); (0, b)]); (2, [(1, a)])].

Definition adjacency_01 : matrix Z :=
  [[0; 1; 1; 0]; [1; 0; 0; 0]; [1; 0; 0; 0]; [0; 0; 0; 0]]%Z.

Definition adjacency_12 : matrix Z :=
  [[0; 1; 0; 0]; [1; 0; 1; 0]; [0; 1; 0; 0]; [0; 0; 0; 0]]%Z.

(* ================================================================== *)
(** * Notions used to state the properties *)
(* ================================================================== *)

(** The IndexError of numpy indexing. *)
Definition index_error : exn := IndexError out_of_bounds.

(** The position an index in [-len, len) stands for. *)
Definition position (len : nat) (i : Z) : nat :=
  if (i <? 0)%Z then Z.to_nat (i + Z.of_nat len) else Z.to_nat i.

(** The entry at row [i], column [j] (with a default outside the array). *)
Definition mget {A : Type} (d : A) (M : matrix A) (i j : nat) : A :=
  nth j (nth i M []) d.

(** ** Sequences and likelihoods *)

(** A symbol of the alphabet {A, C, G, T}. *)
Definition valid_symbol (x : Z) : Prop := (0 <= x <= 3)%Z.

(** An integer that numpy accepts as an index on an axis of size 4. *)
Definition accepted_index (x : Z) : Prop := (-4 <= x <= 3)%Z.

(** An integer that numpy rejects on an axis of size 4. *)
Definition rejected_index (x : Z) : Prop := (x < -4 \/ 3 < x)%Z.

Definition sum_R (l : list R) : R := fold_right Rplus 0%R l.

(** The sum over the sites of log(P[symbol_i][symbol_j]). *)
Definition site_sum (P : matrix R) (seq1 seq2 : list Z) : R :=
  sum_R (map (fun s => ln (mget 0%R P (Z.to_nat (fst s)) (Z.to_nat (snd s))))
             (combine seq1 seq2)).

(** The sum over the symbol pairs (a, b) of S[a][b] * log(P[a][b]). *)
Definition count_sum (S : matrix Z) (P : matrix R) : R :=
  sum_R (map (fun ab => (IZR (mget 0%Z S (fst ab) (snd ab))
                         * ln (mget 0%R P (fst ab) (snd ab)))%R)
             (list_prod (seq 0 4) (seq 0 4))).

(** The log-likelihood the loops of [build_weighted_adjacency_matrix] store
    in cell (i, j): lines 75-82. *)
Definition cell_value (one_hot_sequences : matrix Z) (model : SubstitutionModel)
    (i j : nat) : result R :=
  if negb (i =? j) then
    seq_i <- np_get one_hot_sequences (Z.of_nat i) ;;
    seq_j <- np_get one_hot_sequences (Z.of_nat j) ;;
    compute_log_likelihood seq_i seq_j model
  else Ok 0%R.

(** A pair of symbols that numpy accepts as indices into a 4x4 array. *)
Definition accepted_site (s : Z * Z) : Prop :=
  accepted_index (fst s) /\ accepted_index (snd s).

(** A pair of symbols of which numpy rejects one. *)
Definition rejected_site (s : Z * Z) : Prop :=
  rejected_index (fst s) \/ rejected_index (snd s).

(** The sum the likelihood loop computes, with numpy's reading of the
    indices. *)
Definition np_site_sum (P : matrix R) (sites : list (Z * Z)) : R :=
  sum_R (map (fun s => ln (mget 0%R P (position 4 (fst s)) (position 4 (snd s)))) sites).

(** ** Graphs, trees and weights *)

(** The pairs (a, b) and (u, v) have the same two endpoints. *)
Definition same_pair (a b u v : nat) : bool :=
  ((a =? u) && (b =? v)) || ((a =? v) && (b =? u)).


(** The order and the sum of the weights behave as those of numbers do. *)
Class WeightLaws (V : Type) `{Weight V} : Prop := {
  wleb_total : forall a b : V, wleb a b = true \/ wleb b a = true;
  wleb_trans : forall a b c : V, wleb a b = true -> wleb b c = true -> wleb a c = true;
  wadd_comm : forall a b : V, wadd a b = wadd b a;
  wadd_assoc : forall a b c : V, wadd a (wadd b c) = wadd (wadd a b) c;
  wadd_mono : forall a b c : V, wleb a b = true -> wleb (wadd c a) (wadd c b) = true
}.

Section GraphNotions.

Context {V : Type}.

(** One of the edges joins [u] and [v]. *)
Definition adjacent (F : list (edge V)) (u v : nat) : Prop :=
  exists w, In (u, v, w) F.

(** A path of edges, each taken in either direction, leads from one node to
    the other. *)
Definition connected (F : list (edge V)) : nat -> nat -> Prop :=
  clos_refl_sym_trans nat (adjacent F).

(** No edge joins two nodes that the other edges connect. *)
Definition forest (F : list (edge V)) : Prop :=
  forall F1 u v w F2, F = F1 ++ (u, v, w) :: F2 -> ~ connected (F1 ++ F2) u v.

(** An edge of the graph, written in either direction. *)
Definition edge_of (G : Graph V) (e : edge V) : Prop :=
  In e (edges G) \/ In (snd (fst e), fst (fst e), snd e) (edges G).

(** A graph with at least one node in which every node is connected to
    every other. *)
Definition connected_graph (G : Graph V) : Prop :=
  nodes G <> [] /\
  forall u v, In u (nodes G) -> In v (nodes G) -> connected (edges G) u v.

(** A spanning tree: edges of the graph that form a forest and connect all
    the nodes. *)
Definition spanning_tree (G : Graph V) (T : list (edge V)) : Prop :=
  (forall e, In e T -> edge_of G e) /\
  forest T /\
  (forall u v, In u (nodes G) -> In v (nodes G) -> connected T u v).

(** The sum of the weights of the edges. *)
Definition total_weight `{Weight V} (T : list (edge V)) : V :=
  fold_right (fun e acc => wadd (weight_of e) acc) wzero T.

(** The edges at least as heavy as [theta]. *)
Definition heavy `{Weight V} (theta : V) (F : list (edge V)) : list (edge V) :=
  filter (fun e => wleb theta (weight_of e)) F.

(** Heaviest first. *)
Definition sorted_desc `{Weight V} (F : list (edge V)) : Prop :=
  StronglySorted (fun a b => wleb (weight_of b) (weight_of a) = true) F.

(** The subtrees after the union of the endpoints of every edge. *)
Definition uf_of (F : list (edge V)) : UnionFind :=
  fold_right (fun e f => union (fst (fst e)) (snd (fst e)) f) uf_init F.

(** The number of different values in a list. *)
Definition distinct (l : list nat) : nat := length (nodup Nat.eq_dec l).

(** The number of connected components that the edges [F] leave among the
    nodes [N]. *)
Definition components (N : list nat) (F : list (edge V)) : nat :=
  distinct (map (uf_of F) N).

(** The two endpoints, the smaller first. *)
Definition endpoints (e : edge V) : nat * nat :=
  (Nat.min (fst (fst e)) (snd (fst e)), Nat.max (fst (fst e)) (snd (fst e))).

(** The invariant of a [Graph]: no node twice, no neighbour twice, and each
    edge stored under both of its endpoints. *)
Definition wf_graph (G : Graph V) : Prop :=
  NoDup (nodes G) /\
  (forall n nbrs, In (n, nbrs) G -> NoDup (dict_keys nbrs)) /\
  (forall u v w, edge_weight G u v = Some w -> edge_weight G v u = Some w).

(** The entry [W[a, b]] of a weight matrix. *)
Definition entry (W : matrix (npfloat V)) (a b : nat) : npfloat V :=
  mget NegInf W a b.

Definition finite (x : npfloat V) : option V :=
  match x with
  | Finite w => Some w
  | NegInf => None
  end.

(** The cell (a, b) has been visited when the loops of [get_mst] over the
    indices below [n] reach the cell (i, j). *)
Definition processed (n i j a b : nat) : bool :=
  ((a <? i) && (b <? n)) || ((a =? i) && (b <? j)).

(** The weight that the visit of the cell (a, b) has passed to [add_edge]. *)
Definition visible (W : matrix (npfloat V)) (n i j a b : nat) : option V :=
  if processed n i j a b then finite (entry W a b) else None.

(** The weight of the edge between [u] and [v] when the loops reach the cell
    (i, j): the one passed to [add_edge] last. *)
Definition last_written (W : matrix (npfloat V)) (n i j u v : nat) : option V :=
  match visible W n i j (Nat.max u v) (Nat.min u v) with
  | Some w => Some w
  | None => visible W n i j (Nat.min u v) (Nat.max u v)
  end.

(** The weight of the edge between [u] and [v] in the graph of [get_mst]:
    of the two entries for the pair, the one in the lower triangle unless
    it is the sentinel. *)
Definition graph_weight (W : matrix (npfloat V)) (u v : nat) : option V :=
  if (u <? n_rows W - 1) && (v <? n_rows W - 1) then
    match finite (entry W (Nat.max u v) (Nat.min u v)) with
    | Some w => Some w
    | None => finite (entry W (Nat.min u v) (Nat.max u v))
    end
  else None.

(** What holds of the graph when the loops of [get_mst] reach the cell
    (i, j). *)
Definition mst_invariant (W : matrix (npfloat V)) (n i j : nat) (G : Graph V) : Prop :=
  wf_graph G /\
  (forall u, In u (nodes G) -> u < n /\ exists v w, edge_weight G u v = Some w) /\
  (forall u v, edge_weight G u v = last_written W n i j u v).

(** The union-find map relates exactly the nodes that the edges connect. *)
Definition uf_equiv (f : UnionFind) (F : list (edge V)) : Prop :=
  forall x y, f x = f y <-> connected F x y.

(** Edges added one at a time, each joining two components. *)
Fixpoint acyclic (F : list (edge V)) : Prop :=
  match F with
  | [] => True
  | (u, v, w) :: F' => ~ connected F' u v /\ acyclic F'
  end.

(** All the endpoints are among the nodes [N]. *)
Definition within (N : list nat) (F : list (edge V)) : Prop :=
  forall u v w, In (u, v, w) F -> In u N /\ In v N.

End GraphNotions.

(** Merging the value [a] into the value [b]. *)
Definition merge (a b : nat) : nat -> nat := fun c => if c =? a then b else c.


(** ** Adjacency matrices *)

(** What the loop of [generate_unweighted_adj_matrix] does for the edge
    (u, v): lines 142-144 without the detour through the array of edges. *)
Definition mark_pair (adj_matrix : matrix Z) (p : nat * nat) : result (matrix Z) :=
  adj_matrix1 <- np_set2 adj_matrix (Z.of_nat (fst p)) (Z.of_nat (snd p)) 1%Z ;;
  np_set2 adj_matrix1 (Z.of_nat (snd p)) (Z.of_nat (fst p)) 1%Z.

(** One of the pairs joins [a] and [b]. *)
Definition joined (pairs : list (nat * nat)) (a b : nat) : bool :=
  existsb (fun p => same_pair (fst p) (snd p) a b) pairs.

(** The two ends of a pair, the smaller first. *)
Definition pair_ends (p : nat * nat) : nat * nat :=
  (Nat.min (fst p) (snd p), Nat.max (fst p) (snd p)).

Definition nonzeros (row : list Z) : nat :=
  length (filter (fun x => negb (x =? 0)%Z) row).

(** The number of non-zero entries. *)
Definition count_nonzero (M : matrix Z) : nat := list_sum (map nonzeros M).

(* ================================================================== *)
(** * Further notions: encoded sequences *)
(* ================================================================== *)

(** The integer code of a site: [bases[nucleotide]] for a nucleotide that
    is a key of [bases]; 0 for any other nucleotide and for the padding
    past the end of a sequence. *)
Definition site_code (nucleotide : option ascii) : Z :=
  match nucleotide with
  | Some c =>
      match bases c with
      | Some b => Z.of_nat b
      | None => 0%Z
      end
  | None => 0%Z
  end.

(** [max(len(seq) for seq in sequences)] *)
Definition max_length (sequences : list string) : nat :=
  list_max (map String.length sequences).

(** The integer codes of all the sites of all the sequences, each sequence
    padded to the longest. *)
Definition site_codes (sequences : list string) : matrix Z :=
  map (fun sequence =>
         map (fun j => site_code (String.get j sequence)) (seq 0 (max_length sequences)))
      sequences.

(** The sum of the entries of a vector. *)
Definition sum_Z (l : list Z) : Z := fold_right Z.add 0%Z l.

(* ================================================================== *)
(** * Further notions: substitution counts and models *)
(* ================================================================== *)

(** The number of sites where the first sequence has the symbol at position
    [a] and the second the symbol at position [b]. *)
Definition site_count (seq1 seq2 : list Z) (a b : nat) : nat :=
  length (filter (fun s => (position 4 (fst s) =? a) && (position 4 (snd s) =? b))
                 (combine seq1 seq2)).

(** The symbol 0..3 that numpy reads an index -4..3 as. *)
Definition wrap_symbol (x : Z) : Z := Z.of_nat (position 4 x).

(** The transpose of a 4x4 array. *)
Definition transpose4 (S : matrix Z) : matrix Z :=
  map (fun b => map (fun a => mget 0%Z S a b) (seq 0 4)) (seq 0 4).

(** Every entry of every transition matrix is a probability that is not
    zero. *)
Definition model_stochastic (m : SubstitutionModel) : Prop :=
  forall t, Forall (Forall (fun p => (0 < p <= 1)%R)) (trans_matrix m t).

(** The model does not tell a pair of sequences from the pair taken the
    other way round: the branch length of transposed counts is the same, and
    the transition matrices are symmetric. *)
Definition model_symmetric (m : SubstitutionModel) : Prop :=
  (forall S, has_shape 4 4 S -> optimize_t m (transpose4 S) = optimize_t m S) /\
  (forall t a b, a < 4 -> b < 4 ->
     mget 0%R (trans_matrix m t) a b = mget 0%R (trans_matrix m t) b a).

(** No entry of the leading n x n block of the weight matrix is the
    sentinel [-np.inf]. *)
Definition all_finite {V : Type} (W : matrix (npfloat V)) (n : nat) : Prop :=
  forall a b, a < n -> b < n -> exists w, entry W a b = Finite w.

(* ================================================================== *)
(** * Further notions: the draws of the pipeline *)
(* ================================================================== *)

(** The sequences that one call of [generate_node_features] simulates, and
    the state in which it leaves the random number generator: lines 87-89. *)
Definition draw_sequences (C : Collaborators) (n_leaves : nat) (alpha : R) (g : rng C)
  : list string * rng C :=
  let '((tree_, _), g1) := create_tree C n_leaves (1 / 10)%R g in
  let '((sim_seq, _), g2) := simulate_seq C tree_ (JukesCantor C alpha) 10 g1 in
  (sim_seq, g2).

Definition shape_warning : string :=
  "Inconsistant shape between node_features and adjancy matrix."%string.

Definition square_warning : string := "Invalid adjancy matrix."%string.

(** The adjacency matrix of [tree_12] for five nodes. *)
Definition adjacency_12_five : matrix Z :=
  [[0; 1; 0; 0; 0]; [1; 0; 1; 0; 0]; [0; 1; 0; 0; 0]; [0; 0; 0; 0; 0];
   [0; 0; 0; 0; 0]]%Z.

(** Collaborators whose second draw gives two sequences only. *)
Definition short_collaborators : Collaborators :=
  {| rng := nat;
     tree := unit;
     aux := unit;
     create_tree := fun _ _ g => ((tt, tt), g);
     simulate_seq := fun _ _ ndata g =>
       ((map (fun c => repeat_nucleotide c ndata)
             (match g with O => first_draw | S _ => ["A"; "C"]%char end), tt), S g);
     JukesCantor := fun _ => example_model |}.
(* ================================================================== *)
(** * Facts about the error monad and numpy indexing *)
(* ================================================================== *)

Lemma bind_ok_inv {A B : Type} (c : result A) (k : A -> result B) (b : B) :
  bind c k = Ok b -> exists a, c = Ok a /\ k a = Ok b.
Proof.
  destruct c as [a | e]; simpl; intros Hk.
  - exists a. split; [reflexivity | exact Hk].
  - discriminate.
Qed.

(** A loop whose body keeps an invariant and never raises, does not raise. *)
Lemma for_each_invariant {A B : Type} (Inv : B -> Prop) (P : A -> Prop)
    (body : B -> A -> result B) :
  (forall acc x, Inv acc -> P x -> exists acc', body acc x = Ok acc' /\ Inv acc') ->
  forall l acc, Inv acc -> Forall P l ->
  exists acc', for_each body l acc = Ok acc' /\ Inv acc'.
Proof.
  intros Hbody. induction l as [| x l IH]; intros acc Hacc Hl; simpl.
  - exists acc. split; [reflexivity | exact Hacc].
  - inversion Hl as [| ? ? Hx Hl']; subst.
    destruct (Hbody acc x Hacc Hx) as (acc1 & -> & Hacc1). simpl.
    apply IH; assumption.
Qed.

(** A loop whose body can only raise [e0] can only raise [e0]. *)
Lemma for_each_raises {A B : Type} (e0 : exn) (body : B -> A -> result B) :
  (forall acc x e, body acc x = Raise e -> e = e0) ->
  forall l acc e, for_each body l acc = Raise e -> e = e0.
Proof.
  intros Hbody. induction l as [| x l IH]; intros acc e; simpl.
  - discriminate.
  - destruct (body acc x) as [acc' | e'] eqn:Hb; simpl.
    + apply IH.
    + intros [= <-]. eapply Hbody. exact Hb.
Qed.


Lemma np_index_in_range (len : nat) (i : Z) :
  (0 <= i < Z.of_nat len)%Z -> np_index len i = Ok (Z.to_nat i).
Proof.
  intros Hi. unfold np_index.
  replace ((0 <=? i)%Z && (i <? Z.of_nat len)%Z) with true; [reflexivity |].
  symmetry. apply andb_true_iff. split; [apply Z.leb_le | apply Z.ltb_lt]; lia.
Qed.

Lemma np_index_wraps (len : nat) (i : Z) :
  (- Z.of_nat len <= i < 0)%Z -> np_index len i = Ok (Z.to_nat (i + Z.of_nat len)).
Proof.
  intros Hi. unfold np_index.
  replace ((0 <=? i)%Z && (i <? Z.of_nat len)%Z) with false.
  - replace ((- Z.of_nat len <=? i)%Z && (i <? 0)%Z) with true; [reflexivity |].
    symmetry. apply andb_true_iff. split; [apply Z.leb_le | apply Z.ltb_lt]; lia.
  - symmetry. apply andb_false_iff. left. apply Z.leb_gt. lia.
Qed.

Lemma np_index_outside (len : nat) (i : Z) :
  (i < - Z.of_nat len \/ Z.of_nat len <= i)%Z -> np_index len i = Raise index_error.
Proof.
  intros Hi. unfold np_index.
  replace ((0 <=? i)%Z && (i <? Z.of_nat len)%Z) with false.
  - replace ((- Z.of_nat len <=? i)%Z && (i <? 0)%Z) with false; [reflexivity |].
    symmetry. apply andb_false_iff.
    destruct Hi; [left; apply Z.leb_gt | right; apply Z.ltb_ge]; lia.
  - symmetry. apply andb_false_iff.
    destruct Hi; [left; apply Z.leb_gt | right; apply Z.ltb_ge]; lia.
Qed.


Lemma np_index_valid (len : nat) (i : Z) :
  (- Z.of_nat len <= i < Z.of_nat len)%Z ->
  np_index len i = Ok (position len i) /\ position len i < len.
Proof.
  intros Hi. unfold position. destruct (i <? 0)%Z eqn:Hneg.
  - apply Z.ltb_lt in Hneg. split; [apply np_index_wraps | ]; lia.
  - apply Z.ltb_ge in Hneg. split; [apply np_index_in_range | ]; lia.
Qed.

Lemma np_index_raises (len : nat) (i : Z) (e : exn) :
  np_index len i = Raise e -> e = index_error.
Proof.
  unfold np_index.
  destruct ((0 <=? i)%Z && (i <? Z.of_nat len)%Z); [discriminate |].
  destruct ((- Z.of_nat len <=? i)%Z && (i <? 0)%Z); [discriminate |].
  intros [= <-]. reflexivity.
Qed.

Lemma np_get_raises {A : Type} (a : list A) (i : Z) (e : exn) :
  np_get a i = Raise e -> e = index_error.
Proof.
  unfold np_get. destruct (np_index (length a) i) as [k | e'] eqn:Hk; simpl.
  - destruct (nth_error a k); [discriminate | intros [= <-]; reflexivity].
  - intros [= <-]. eapply np_index_raises; eassumption.
Qed.

Lemma np_get2_raises {A : Type} (M : matrix A) (i j : Z) (e : exn) :
  np_get2 M i j = Raise e -> e = index_error.
Proof.
  unfold np_get2. destruct (np_get M i) as [row | e'] eqn:Hrow; simpl.
  - apply np_get_raises.
  - intros [= <-]. eapply np_get_raises; eassumption.
Qed.

Lemma np_set2_raises {A : Type} (M : matrix A) (i j : Z) (x : A) (e : exn) :
  np_set2 M i j x = Raise e -> e = index_error.
Proof.
  unfold np_set2. destruct (np_index (length M) i) as [r | e'] eqn:Hr; simpl.
  - destruct (nth_error M r) as [row |]; [| intros [= <-]; reflexivity].
    destruct (np_index (length row) j) as [c | e''] eqn:Hc; simpl; [discriminate |].
    intros [= <-]. eapply np_index_raises; eassumption.
  - intros [= <-]. eapply np_index_raises; eassumption.
Qed.

(** ** Entries of a 2-D array *)


Lemma length_list_set {A : Type} (l : list A) (k : nat) (x : A) :
  length (list_set l k x) = length l.
Proof.
  revert k. induction l as [| y l IH]; intros [| k]; simpl; auto.
Qed.

Lemma nth_list_set {A : Type} (d : A) (l : list A) (k : nat) (x : A) (n : nat) :
  k < length l ->
  nth n (list_set l k x) d = if n =? k then x else nth n l d.
Proof.
  revert k n. induction l as [| y l IH]; intros [| k] [| n]; simpl; intros Hk;
    try lia; try reflexivity.
  apply IH. lia.
Qed.

Lemma has_shape_row {A : Type} (rows cols : nat) (M : matrix A) (i : nat) :
  has_shape rows cols M -> i < rows -> length (nth i M []) = cols.
Proof.
  intros [Hlen Hrows] Hi. rewrite Forall_forall in Hrows.
  apply Hrows. apply nth_In. lia.
Qed.

Lemma has_shape_list_set {A : Type} (rows cols : nat) (M : matrix A) (i : nat)
    (row : list A) :
  has_shape rows cols M -> length row = cols -> has_shape rows cols (list_set M i row).
Proof.
  intros [Hlen Hrows] Hrow. split.
  - rewrite length_list_set. exact Hlen.
  - clear Hlen. revert i. induction M as [| r M IH]; intros [| i]; simpl;
      inversion Hrows; subst; constructor; auto.
Qed.

Lemma np_get2_spec {A : Type} (d : A) (rows cols : nat) (M : matrix A) (i j : Z) :
  has_shape rows cols M ->
  (- Z.of_nat rows <= i < Z.of_nat rows)%Z ->
  (- Z.of_nat cols <= j < Z.of_nat cols)%Z ->
  np_get2 M i j = Ok (mget d M (position rows i) (position cols j)).
Proof.
  intros HM Hi Hj. unfold np_get2, np_get, mget.
  destruct (np_index_valid rows i Hi) as [Hri Hlt].
  destruct HM as [Hlen Hrows]. rewrite Hlen, Hri. simpl.
  destruct (nth_error M (position rows i)) as [row |] eqn:Hrow.
  - simpl. assert (Hlrow : length row = cols).
    { rewrite Forall_forall in Hrows. apply Hrows.
      eapply nth_error_In. exact Hrow. }
    destruct (np_index_valid cols j Hj) as [Hcj Hltc].
    rewrite Hlrow, Hcj. simpl.
    rewrite (nth_error_nth _ _ [] Hrow).
    destruct (nth_error row (position cols j)) as [x |] eqn:Hx.
    + rewrite (nth_error_nth _ _ d Hx). reflexivity.
    + apply nth_error_None in Hx. lia.
  - apply nth_error_None in Hrow. lia.
Qed.

Lemma np_set2_spec {A : Type} (d : A) (rows cols : nat) (M : matrix A) (i j : Z) (x : A) :
  has_shape rows cols M ->
  (- Z.of_nat rows <= i < Z.of_nat rows)%Z ->
  (- Z.of_nat cols <= j < Z.of_nat cols)%Z ->
  exists M',
    np_set2 M i j x = Ok M' /\ has_shape rows cols M' /\
    forall a b, a < rows -> b < cols ->
      mget d M' a b =
      if (a =? position rows i) && (b =? position cols j) then x else mget d M a b.
Proof.
  intros HM Hi Hj. unfold np_set2.
  destruct (np_index_valid rows i Hi) as [Hri Hlt].
  destruct (np_index_valid cols j Hj) as [Hcj Hltc].
  pose proof HM as [Hlen Hrows]. rewrite Hlen, Hri. simpl.
  destruct (nth_error M (position rows i)) as [row |] eqn:Hrow.
  - assert (Hlrow : length row = cols).
    { rewrite Forall_forall in Hrows. apply Hrows.
      eapply nth_error_In. exact Hrow. }
    rewrite Hlrow, Hcj. simpl. eexists. split; [reflexivity |]. split.
    + apply has_shape_list_set; [exact HM |]. rewrite length_list_set. exact Hlrow.
    + intros a b Ha Hb. unfold mget.
      rewrite nth_list_set by lia.
      destruct (a =? position rows i) eqn:Hai; simpl; [| reflexivity].
      apply Nat.eqb_eq in Hai. subst a.
      rewrite nth_list_set by lia.
      rewrite (nth_error_nth _ _ [] Hrow). reflexivity.
  - apply nth_error_None in Hrow. lia.
Qed.

Lemma np_zeros_shape {A : Type} (zero : A) (rows cols : nat) :
  has_shape rows cols (np_zeros zero rows cols).
Proof.
  unfold np_zeros. split.
  - apply repeat_length.
  - apply Forall_forall. intros row Hrow. apply repeat_spec in Hrow. subst.
    apply repeat_length.
Qed.

Lemma mget_np_zeros {A : Type} (zero : A) (rows cols i j : nat) :
  mget zero (np_zeros zero rows cols) i j = zero.
Proof.
  unfold mget, np_zeros.
  destruct (Nat.lt_ge_cases i rows) as [Hi | Hi].
  - rewrite nth_indep with (d' := repeat zero cols) by (rewrite repeat_length; exact Hi).
    rewrite nth_repeat. apply nth_repeat.
  - rewrite (nth_overflow (repeat (repeat zero cols) rows) [])
      by (rewrite repeat_length; exact Hi).
    destruct j; reflexivity.
Qed.

(* ================================================================== *)
(** * compute_log_likelihood: errors and value *)
(* ================================================================== *)

Lemma accepted_index_range (x : Z) :
  accepted_index x -> (- Z.of_nat 4 <= x < Z.of_nat 4)%Z.
Proof. unfold accepted_index. lia. Qed.

Lemma valid_symbol_accepted (x : Z) : valid_symbol x -> accepted_index x.
Proof. unfold valid_symbol, accepted_index. lia. Qed.

Lemma valid_symbol_position (x : Z) : valid_symbol x -> position 4 x = Z.to_nat x.
Proof.
  unfold valid_symbol, position. intros Hx.
  destruct (x <? 0)%Z eqn:Hneg; [apply Z.ltb_lt in Hneg; lia | reflexivity].
Qed.


(** One step of the counting loop on accepted indices. *)
Lemma count_site_spec (S_ij : matrix Z) (s : Z * Z) :
  has_shape 4 4 S_ij -> accepted_site s ->
  exists S', count_site S_ij s = Ok S' /\ has_shape 4 4 S' /\
    forall a b, a < 4 -> b < 4 ->
      mget 0%Z S' a b =
      if (a =? position 4 (fst s)) && (b =? position 4 (snd s))
      then (mget 0%Z S_ij (position 4 (fst s)) (position 4 (snd s)) + 1)%Z
      else mget 0%Z S_ij a b.
Proof.
  intros HS [Hi Hj]. destruct s as [i j]. simpl in *. unfold count_site.
  apply accepted_index_range in Hi, Hj.
  rewrite (np_get2_spec 0%Z 4 4 S_ij i j HS Hi Hj). simpl.
  apply (np_set2_spec 0%Z 4 4 S_ij i j _ HS Hi Hj).
Qed.

Lemma count_sum_step (S_ij S' : matrix Z) (P : matrix R) (a b : nat) :
  a < 4 -> b < 4 ->
  (forall x y, x < 4 -> y < 4 ->
     mget 0%Z S' x y =
     if (x =? a) && (y =? b) then (mget 0%Z S_ij a b + 1)%Z else mget 0%Z S_ij x y) ->
  count_sum S' P = (count_sum S_ij P + ln (mget 0%R P a b))%R.
Proof.
  intros Ha Hb Hget. unfold count_sum, sum_R. cbn [list_prod seq map app fold_right fst snd].
  rewrite !Hget by lia.
  destruct a as [| [| [| [| a]]]]; try lia;
    destruct b as [| [| [| [| b]]]]; try lia;
    cbn [Nat.eqb andb]; rewrite plus_IZR; ring.
Qed.


Lemma position_lt_4 (x : Z) : accepted_index x -> position 4 x < 4.
Proof. intros Hx. apply np_index_valid. apply accepted_index_range. exact Hx. Qed.

Lemma counting_loop (sites : list (Z * Z)) :
  forall S_ij, has_shape 4 4 S_ij -> Forall accepted_site sites ->
  exists S', for_each count_site sites S_ij = Ok S' /\ has_shape 4 4 S' /\
    forall P, count_sum S' P = (count_sum S_ij P + np_site_sum P sites)%R.
Proof.
  induction sites as [| s sites IH]; intros S_ij HS Hsites.
  - exists S_ij. split; [reflexivity |]. split; [exact HS |].
    intros P. unfold np_site_sum, sum_R. simpl. ring.
  - inversion Hsites as [| ? ? Hs Hrest]; subst.
    destruct (count_site_spec S_ij s HS Hs) as (S1 & Hstep & HS1 & Hget).
    destruct (IH S1 HS1 Hrest) as (S' & Hloop & HS' & Hsum).
    exists S'. split; [simpl; rewrite Hstep; exact Hloop |]. split; [exact HS' |].
    intros P. rewrite Hsum.
    rewrite (count_sum_step S_ij S1 P (position 4 (fst s)) (position 4 (snd s))).
    + unfold np_site_sum, sum_R. simpl. ring.
    + apply position_lt_4, Hs.
    + apply position_lt_4, Hs.
    + exact Hget.
Qed.

Lemma count_sum_zeros (P : matrix R) : count_sum (np_zeros 0%Z 4 4) P = 0%R.
Proof.
  unfold count_sum, sum_R. cbn [list_prod seq map app fold_right fst snd].
  rewrite !mget_np_zeros. ring.
Qed.

Lemma likelihood_loop (P : matrix R) (sites : list (Z * Z)) :
  has_shape 4 4 P -> Forall accepted_site sites ->
  forall acc, for_each (add_site P) sites acc = Ok (acc + np_site_sum P sites)%R.
Proof.
  intros HP. induction sites as [| s sites IH]; intros Hsites acc.
  - simpl. f_equal. unfold np_site_sum, sum_R. simpl. ring.
  - inversion Hsites as [| ? ? [Hi Hj] Hrest]; subst. destruct s as [i j]. simpl in *.
    apply accepted_index_range in Hi, Hj.
    rewrite (np_get2_spec 0%R 4 4 P i j HP Hi Hj). simpl.
    rewrite (IH Hrest). f_equal. unfold np_site_sum, sum_R. simpl. ring.
Qed.

Lemma count_site_raises (S_ij : matrix Z) (s : Z * Z) (e : exn) :
  count_site S_ij s = Raise e -> e = index_error.
Proof.
  destruct s as [i j]. unfold count_site.
  destruct (np_get2 S_ij i j) as [old | e'] eqn:Hget; simpl.
  - apply np_set2_raises.
  - intros [= <-]. eapply np_get2_raises; eassumption.
Qed.

Lemma add_site_raises (P : matrix R) (acc : R) (s : Z * Z) (e : exn) :
  add_site P acc s = Raise e -> e = index_error.
Proof.
  destruct s as [i j]. unfold add_site.
  destruct (np_get2 P i j) as [p | e'] eqn:Hget; simpl; [discriminate |].
  intros [= <-]. eapply np_get2_raises; eassumption.
Qed.

(** With sequences of one length, the only exception is numpy's. *)
Lemma compute_log_likelihood_raises (seq1 seq2 : list Z) (model : SubstitutionModel)
    (e : exn) :
  length seq1 = length seq2 ->
  compute_log_likelihood seq1 seq2 model = Raise e -> e = index_error.
Proof.
  intros Hlen. unfold compute_log_likelihood.
  rewrite (proj2 (Nat.eqb_eq _ _) Hlen). simpl.
  unfold substitution_counts.
  destruct (for_each count_site (combine seq1 seq2) (np_zeros 0%Z 4 4))
    as [S_ij | e'] eqn:Hcount; simpl.
  - destruct (for_each (add_site _) (combine seq1 seq2) 0%R) as [ll | e'] eqn:Hll;
      simpl; [discriminate |].
    intros [= <-]. eapply for_each_raises; [| exact Hll].
    intros acc x e0. apply add_site_raises.
  - intros [= <-]. eapply for_each_raises; [| exact Hcount].
    apply count_site_raises.
Qed.

Lemma accepted_sites (seq1 seq2 : list Z) :
  Forall accepted_index seq1 -> Forall accepted_index seq2 ->
  Forall accepted_site (combine seq1 seq2).
Proof.
  intros H1. revert seq2. induction H1 as [| x seq1 Hx H1 IH]; intros seq2 H2.
  - constructor.
  - destruct H2 as [| y seq2 Hy H2]; simpl; constructor.
    + split; assumption.
    + apply IH. exact H2.
Qed.

(** The value on accepted indices: what the loops compute. *)
Lemma compute_log_likelihood_value (seq1 seq2 : list Z) (model : SubstitutionModel) :
  model_4x4 model -> length seq1 = length seq2 ->
  Forall accepted_index seq1 -> Forall accepted_index seq2 ->
  exists S_ij,
    substitution_counts seq1 seq2 = Ok S_ij /\ has_shape 4 4 S_ij /\
    let P_t := trans_matrix model (optimize_t model S_ij) in
    compute_log_likelihood seq1 seq2 model = Ok (0 + np_site_sum P_t (combine seq1 seq2))%R /\
    count_sum S_ij P_t = np_site_sum P_t (combine seq1 seq2).
Proof.
  intros Hmodel Hlen H1 H2.
  pose proof (accepted_sites seq1 seq2 H1 H2) as Hsites.
  destruct (counting_loop (combine seq1 seq2) (np_zeros 0%Z 4 4)
              (np_zeros_shape 0%Z 4 4) Hsites) as (S_ij & Hcount & HS & Hsum).
  exists S_ij. split; [exact Hcount |]. split; [exact HS |]. split.
  - unfold compute_log_likelihood.
    rewrite (proj2 (Nat.eqb_eq _ _) Hlen). cbn [negb].
    unfold substitution_counts. rewrite Hcount. cbn [bind].
    rewrite (likelihood_loop _ _ (Hmodel _) Hsites). reflexivity.
  - rewrite Hsum, count_sum_zeros. ring.
Qed.

Lemma np_site_sum_valid (P : matrix R) (seq1 seq2 : list Z) :
  Forall valid_symbol seq1 -> Forall valid_symbol seq2 ->
  np_site_sum P (combine seq1 seq2) = site_sum P seq1 seq2.
Proof.
  intros H1. revert seq2. unfold np_site_sum, site_sum.
  induction H1 as [| x seq1 Hx H1 IH]; intros seq2 H2.
  - reflexivity.
  - destruct H2 as [| y seq2 Hy H2]; [reflexivity |]. simpl.
    rewrite (valid_symbol_position x Hx), (valid_symbol_position y Hy).
    f_equal. apply IH. exact H2.
Qed.

Lemma Forall_valid_accepted (l : list Z) : Forall valid_symbol l -> Forall accepted_index l.
Proof. apply Forall_impl. exact valid_symbol_accepted. Qed.

(** ** The arrays written *)

Lemma nth_error_list_set {A : Type} (l : list A) (k : nat) (x : A) (p : nat) :
  nth_error (list_set l k x) p
  = if (p =? k) && (k <? length l) then Some x else nth_error l p.
Proof.
  revert k p. induction l as [| y l IH]; intros [| k] [| p]; simpl; try reflexivity.
  - rewrite andb_false_r. reflexivity.
  - rewrite IH. reflexivity.
Qed.

(** The counting loop writes at the address of [S_ij] only, where it leaves
    the counts that the functional loop computes. *)
Lemma store_count_loop_spec (S : nat) (sites : list (Z * Z)) :
  forall (st : store) (S_ij : matrix Z),
    nth_error st S = Some (IntArray2 S_ij) ->
    let (err, st') := store_count_loop S sites st in
    length st' = length st /\
    (forall p, p <> S -> nth_error st' p = nth_error st p) /\
    match for_each count_site sites S_ij with
    | Ok S' => err = None /\ nth_error st' S = Some (IntArray2 S')
    | Raise e => err = Some e
    end.
Proof.
  induction sites as [| site sites IH]; intros st S_ij HS.
  - simpl. split; [reflexivity |]. split; [reflexivity |]. split; [reflexivity | exact HS].
  - cbn [store_count_loop for_each]. unfold store_count_site at 1. rewrite HS.
    destruct (count_site S_ij site) as [S1 | e]; cbn [bind].
    + assert (HS1 : nth_error (list_set st S (IntArray2 S1)) S = Some (IntArray2 S1)).
      { rewrite nth_error_list_set, Nat.eqb_refl.
        assert (Hlt : S < length st) by (apply nth_error_Some; congruence).
        apply Nat.ltb_lt in Hlt. rewrite Hlt. reflexivity. }
      specialize (IH (list_set st S (IntArray2 S1)) S1 HS1).
      destruct (store_count_loop S sites (list_set st S (IntArray2 S1))) as [err st'].
      destruct IH as (Hlen & Hother & Hres).
      split; [rewrite Hlen; apply length_list_set |]. split; [| exact Hres].
      intros p Hp. rewrite (Hother p Hp), nth_error_list_set.
      apply Nat.eqb_neq in Hp. rewrite Hp. reflexivity.
    + split; [reflexivity |]. split; [reflexivity |]. reflexivity.
Qed.

(** The function on the store returns what the function on values returns,
    and leaves every array that was in the store as it was. *)
Lemma compute_log_likelihood_store_spec (p1 p2 : nat) (seq1 seq2 : list Z)
    (model : SubstitutionModel) (st : store) :
  nth_error st p1 = Some (IntArray1 seq1) ->
  nth_error st p2 = Some (IntArray1 seq2) ->
  fst (compute_log_likelihood_store p1 p2 model st)
  = compute_log_likelihood seq1 seq2 model /\
  forall p, p < length st ->
    nth_error (snd (compute_log_likelihood_store p1 p2 model st)) p = nth_error st p.
Proof.
  intros H1 H2. unfold compute_log_likelihood_store, compute_log_likelihood.
  rewrite H1, H2.
  destruct (negb (length seq1 =? length seq2)); [split; reflexivity |].
  set (st1 := st ++ [IntArray2 (np_zeros 0%Z 4 4)]).
  assert (HS : nth_error st1 (length st) = Some (IntArray2 (np_zeros 0%Z 4 4))).
  { unfold st1. rewrite nth_error_app2 by lia. rewrite Nat.sub_diag. reflexivity. }
  pose proof (store_count_loop_spec (length st) (combine seq1 seq2) st1 _ HS) as Hloop.
  unfold substitution_counts.
  destruct (store_count_loop (length st) (combine seq1 seq2) st1) as [err st2].
  destruct Hloop as (Hlen & Hother & Hres).
  assert (Hframe : forall p, p < length st -> nth_error st2 p = nth_error st p).
  { intros p Hp. rewrite Hother by lia. unfold st1. apply nth_error_app1. exact Hp. }
  destruct (for_each count_site (combine seq1 seq2) (np_zeros 0%Z 4 4)) as [S' | e].
  - destruct Hres as [-> HS']. rewrite HS'. cbn [bind fst snd]. split; [| exact Hframe].
    destruct (for_each (add_site _) (combine seq1 seq2) 0%R); reflexivity.
  - rewrite Hres. split; [reflexivity | exact Hframe].
Qed.

(** C6.  [compute_log_likelihood] raises its ValueError ("Sequences must be
    of equal length.") exactly when the two lengths differ, and on two
    sequences of one length over the symbols 0..3 it returns a value, for a
    model whose transition matrices are 4x4.  Run on a store that holds the
    two sequences, it returns the same and leaves every array of the store
    as it was: the only array it writes is the array of counts that it
    allocates. *)
Theorem compute_log_likelihood_length_check
    (seq1 seq2 : list Z) (model : SubstitutionModel) :
  (compute_log_likelihood seq1 seq2 model = Raise length_mismatch <->
   length seq1 <> length seq2) /\
  (model_4x4 model -> length seq1 = length seq2 ->
   Forall valid_symbol seq1 -> Forall valid_symbol seq2 ->
   exists v, compute_log_likelihood seq1 seq2 model = Ok v) /\
  (forall (st : store) (p1 p2 : nat),
     nth_error st p1 = Some (IntArray1 seq1) ->
     nth_error st p2 = Some (IntArray1 seq2) ->
     fst (compute_log_likelihood_store p1 p2 model st)
     = compute_log_likelihood seq1 seq2 model /\
     forall p, p < length st ->
       nth_error (snd (compute_log_likelihood_store p1 p2 model st)) p
       = nth_error st p).
Proof.
  split; [| split].
  - split.
    + intros Hraise Hlen.
      apply (compute_log_likelihood_raises _ _ _ _ Hlen) in Hraise. discriminate.
    + intros Hlen. unfold compute_log_likelihood.
      apply Nat.eqb_neq in Hlen. rewrite Hlen. reflexivity.
  - intros Hmodel Hlen H1 H2.
    destruct (compute_log_likelihood_value seq1 seq2 model Hmodel Hlen
                (Forall_valid_accepted _ H1) (Forall_valid_accepted _ H2))
      as (S_ij & _ & _ & Hval & _).
    eexists. exact Hval.
  - intros st p1 p2. apply compute_log_likelihood_store_spec.
Qed.

Lemma example_model_4x4 : model_4x4 example_model.
Proof.
  intros t. split; [reflexivity |]. repeat constructor.
Qed.

Lemma example_model_positive : model_positive example_model.
Proof.
  intros t. simpl. unfold example_matrix. repeat constructor; lra.
Qed.

Lemma compute_log_likelihood_length_check_witness :
  (compute_log_likelihood [0; 3; 1]%Z [0; 3]%Z example_model = Raise length_mismatch <->
   length [0; 3; 1]%Z <> length [0; 3]%Z) /\
  (exists v, compute_log_likelihood [0; 3; 1]%Z [0; 3; 2]%Z example_model = Ok v) /\
  (fst (compute_log_likelihood_store 0 1 example_model
          [IntArray1 [0; 3; 1]%Z; IntArray1 [0; 3; 2]%Z])
   = compute_log_likelihood [0; 3; 1]%Z [0; 3; 2]%Z example_model /\
   forall p, p < 2 ->
     nth_error (snd (compute_log_likelihood_store 0 1 example_model
                       [IntArray1 [0; 3; 1]%Z; IntArray1 [0; 3; 2]%Z])) p
     = nth_error [IntArray1 [0; 3; 1]%Z; IntArray1 [0; 3; 2]%Z] p).
Proof.
  split; [| split].
  - apply (compute_log_likelihood_length_check [0; 3; 1]%Z [0; 3]%Z example_model).
  - apply (compute_log_likelihood_length_check [0; 3; 1]%Z [0; 3; 2]%Z example_model).
    + exact example_model_4x4.
    + reflexivity.
    + repeat constructor; unfold valid_symbol; lia.
    + repeat constructor; unfold valid_symbol; lia.
  - apply (compute_log_likelihood_length_check [0; 3; 1]%Z [0; 3; 2]%Z example_model);
      reflexivity.
Defined.

(** C7.  On two sequences of one length over the symbols 0..3, and for a
    model with positive 4x4 transition matrices, the value returned is the
    sum over the sites of log(P[symbol_i][symbol_j]), which equals the sum
    over the symbol pairs (a, b) of S[a][b] * log(P[a][b]); S is the matrix
    of substitution counts of the pair and P the transition matrix at the
    branch length optimised for S. *)
Theorem compute_log_likelihood_site_and_count_sums
    (seq1 seq2 : list Z) (model : SubstitutionModel) :
  model_4x4 model -> model_positive model ->
  length seq1 = length seq2 ->
  Forall valid_symbol seq1 -> Forall valid_symbol seq2 ->
  exists S_ij,
    substitution_counts seq1 seq2 = Ok S_ij /\
    let P_t := trans_matrix model (optimize_t model S_ij) in
    compute_log_likelihood seq1 seq2 model = Ok (0 + site_sum P_t seq1 seq2)%R /\
    site_sum P_t seq1 seq2 = count_sum S_ij P_t.
Proof.
  intros Hmodel _ Hlen H1 H2.
  destruct (compute_log_likelihood_value seq1 seq2 model Hmodel Hlen
              (Forall_valid_accepted _ H1) (Forall_valid_accepted _ H2))
    as (S_ij & Hcount & _ & Hval & Hsum).
  exists S_ij. split; [exact Hcount |]. cbv zeta in *.
  rewrite <- (np_site_sum_valid _ seq1 seq2 H1 H2).
  split; [exact Hval | symmetry; exact Hsum].
Qed.

Lemma compute_log_likelihood_site_and_count_sums_witness :
  exists S_ij,
    substitution_counts [0; 3; 1]%Z [0; 3; 2]%Z = Ok S_ij /\
    let P_t := trans_matrix example_model (optimize_t example_model S_ij) in
    compute_log_likelihood [0; 3; 1]%Z [0; 3; 2]%Z example_model
      = Ok (0 + site_sum P_t [0; 3; 1]%Z [0; 3; 2]%Z)%R /\
    site_sum P_t [0; 3; 1]%Z [0; 3; 2]%Z = count_sum S_ij P_t.
Proof.
  apply (compute_log_likelihood_site_and_count_sums [0; 3; 1]%Z [0; 3; 2]%Z example_model).
  - exact example_model_4x4.
  - exact example_model_positive.
  - reflexivity.
  - repeat constructor; unfold valid_symbol; lia.
  - repeat constructor; unfold valid_symbol; lia.
Defined.

(** ** Symbols outside the alphabet *)


Lemma accepted_or_rejected (s : Z * Z) : accepted_site s \/ rejected_site s.
Proof.
  destruct s as [i j]. unfold accepted_site, rejected_site, accepted_index, rejected_index.
  simpl. lia.
Qed.

Lemma rejected_not_accepted (s : Z * Z) : rejected_site s -> ~ accepted_site s.
Proof.
  destruct s as [i j]. unfold accepted_site, rejected_site, accepted_index, rejected_index.
  simpl. lia.
Qed.

Lemma rejected_index_outside (x : Z) :
  rejected_index x -> (x < - Z.of_nat 4 \/ Z.of_nat 4 <= x)%Z.
Proof. unfold rejected_index. lia. Qed.

Lemma count_site_rejects (S_ij : matrix Z) (s : Z * Z) :
  has_shape 4 4 S_ij -> rejected_site s -> count_site S_ij s = Raise index_error.
Proof.
  intros HS Hs. destruct s as [i j]. unfold count_site.
  destruct (np_get2 S_ij i j) as [old | e] eqn:Hget.
  - exfalso. unfold np_get2, np_get in Hget.
    destruct HS as [Hlen Hrows]. rewrite Hlen in Hget.
    destruct (np_index 4 i) as [r |] eqn:Hr; simpl in Hget; [| discriminate].
    destruct (nth_error S_ij r) as [row |] eqn:Hrow; simpl in Hget; [| discriminate].
    assert (Hlrow : length row = 4).
    { rewrite Forall_forall in Hrows. apply Hrows. eapply nth_error_In. exact Hrow. }
    rewrite Hlrow in Hget.
    destruct (np_index 4 j) as [c |] eqn:Hc; simpl in Hget; [| discriminate].
    destruct Hs as [Hs | Hs]; simpl in Hs; apply rejected_index_outside in Hs.
    + rewrite (np_index_outside 4 i Hs) in Hr. discriminate.
    + rewrite (np_index_outside 4 j Hs) in Hc. discriminate.
  - simpl. f_equal. eapply np_get2_raises. exact Hget.
Qed.

Lemma counting_loop_rejects (sites : list (Z * Z)) :
  forall S_ij, has_shape 4 4 S_ij -> Exists rejected_site sites ->
  for_each count_site sites S_ij = Raise index_error.
Proof.
  induction sites as [| s sites IH]; intros S_ij HS Hex.
  - inversion Hex.
  - simpl. destruct (accepted_or_rejected s) as [Hacc | Hrej].
    + destruct (count_site_spec S_ij s HS Hacc) as (S1 & -> & HS1 & _). simpl.
      apply IH; [exact HS1 |].
      inversion Hex as [? ? Hs | ? ? Hrest]; subst; [| exact Hrest].
      exfalso. exact (rejected_not_accepted s Hs Hacc).
    + rewrite (count_site_rejects S_ij s HS Hrej). reflexivity.
Qed.

Lemma rejected_sites (seq1 seq2 : list Z) :
  length seq1 = length seq2 ->
  Exists rejected_index seq1 \/ Exists rejected_index seq2 ->
  Exists rejected_site (combine seq1 seq2).
Proof.
  revert seq2. induction seq1 as [| x seq1 IH]; intros [| y seq2] Hlen Hex;
    simpl in Hlen; try discriminate.
  - destruct Hex as [Hex | Hex]; inversion Hex.
  - simpl. destruct Hex as [Hex | Hex]; inversion Hex as [? ? Hx | ? ? Hrest]; subst.
    + apply Exists_cons_hd. left. exact Hx.
    + apply Exists_cons_tl. apply IH; [lia | left; exact Hrest].
    + apply Exists_cons_hd. right. exact Hx.
    + apply Exists_cons_tl. apply IH; [lia | right; exact Hrest].
Qed.

(** C8, the counterexample: the symbol -1 is outside the alphabet, and the
    pair ([-1], [0]) gets a likelihood, that of the pair ([3], [0]). *)
Lemma compute_log_likelihood_accepts_minus_one :
  ~ valid_symbol (-1) /\
  compute_log_likelihood [(-1)%Z] [0%Z] example_model = Ok (0 + ln (1 / 10))%R /\
  compute_log_likelihood [3%Z] [0%Z] example_model = Ok (0 + ln (1 / 10))%R.
Proof.
  split; [unfold valid_symbol; lia |]. split; reflexivity.
Qed.

(** Nothing is checked when the sequences are encoded either: [one_hot]
    leaves an unknown nucleotide all zero, which the reduction to integer
    codes reads as the code of A. *)
Lemma one_hot_unknown_nucleotide :
  (encoded <- one_hot ["ANT"%string] ;; Ok (argmax_last_axis encoded))
  = Ok [[0; 0; 3]%Z] /\
  (encoded <- one_hot ["AAT"%string] ;; Ok (argmax_last_axis encoded))
  = Ok [[0; 0; 3]%Z].
Proof. split; reflexivity. Qed.

(** C8, as amended.  On two sequences of one length, a symbol below -4 or
    above 3 makes [compute_log_likelihood] fail with numpy's IndexError,
    raised by the loop that counts the substitutions; nothing is checked
    before.  Symbols from -4 to 3 are all accepted (a negative one is read as
    an index from the end). *)
Theorem compute_log_likelihood_out_of_range
    (seq1 seq2 : list Z) (model : SubstitutionModel) :
  length seq1 = length seq2 ->
  (Exists rejected_index seq1 \/ Exists rejected_index seq2 ->
   substitution_counts seq1 seq2 = Raise index_error /\
   compute_log_likelihood seq1 seq2 model = Raise index_error) /\
  (model_4x4 model -> Forall accepted_index seq1 -> Forall accepted_index seq2 ->
   exists v, compute_log_likelihood seq1 seq2 model = Ok v).
Proof.
  intros Hlen. split.
  - intros Hex.
    assert (Hcount : substitution_counts seq1 seq2 = Raise index_error).
    { apply counting_loop_rejects; [apply np_zeros_shape |].
      apply rejected_sites; assumption. }
    split; [exact Hcount |]. unfold compute_log_likelihood.
    rewrite (proj2 (Nat.eqb_eq _ _) Hlen). cbn [negb]. rewrite Hcount. reflexivity.
  - intros Hmodel H1 H2.
    destruct (compute_log_likelihood_value seq1 seq2 model Hmodel Hlen H1 H2)
      as (S_ij & _ & _ & Hval & _).
    eexists. exact Hval.
Qed.

Lemma compute_log_likelihood_out_of_range_witness :
  substitution_counts [0; 4]%Z [1; 2]%Z = Raise index_error /\
  compute_log_likelihood [0; 4]%Z [1; 2]%Z example_model = Raise index_error.
Proof.
  apply (compute_log_likelihood_out_of_range [0; 4]%Z [1; 2]%Z example_model).
  - reflexivity.
  - left. apply Exists_cons_tl, Exists_cons_hd. unfold rejected_index. lia.
Defined.

(* ================================================================== *)
(** * build_weighted_adjacency_matrix *)
(* ================================================================== *)

Lemma position_of_nat (len i : nat) : position len (Z.of_nat i) = i.
Proof.
  unfold position. destruct (Z.of_nat i <? 0)%Z eqn:Hneg.
  - apply Z.ltb_lt in Hneg. lia.
  - apply Nat2Z.id.
Qed.

Lemma of_nat_in_range (len i : nat) :
  i < len -> (- Z.of_nat len <= Z.of_nat i < Z.of_nat len)%Z.
Proof. lia. Qed.


Lemma likelihood_cell_inv (seqs : matrix Z) (model : SubstitutionModel)
    (i j : nat) (M M' : matrix R) :
  likelihood_cell seqs model i M j = Ok M' ->
  exists v, cell_value seqs model i j = Ok v /\
            np_set2 M (Z.of_nat i) (Z.of_nat j) v = Ok M'.
Proof.
  unfold likelihood_cell, cell_value. destruct (negb (i =? j)).
  - intros Hcell.
    apply bind_ok_inv in Hcell. destruct Hcell as (seq_i & -> & Hcell).
    apply bind_ok_inv in Hcell. destruct Hcell as (seq_j & -> & Hcell).
    apply bind_ok_inv in Hcell. destruct Hcell as (v & Hv & Hset).
    exists v. split; [exact Hv | exact Hset].
  - intros Hset. exists 0%R. split; [reflexivity | exact Hset].
Qed.

Section LikelihoodLoops.

Variable seqs : matrix Z.
Variable model : SubstitutionModel.
Variable N : nat.

(** The inner loop over the columns [k .. k+n-1] of row [i]. *)
Lemma likelihood_columns (i : nat) (Hi : i < N) :
  forall n k M M', k + n <= N -> has_shape N N M ->
  for_each (likelihood_cell seqs model i) (seq k n) M = Ok M' ->
  has_shape N N M' /\
  (forall a b, a < N -> b < N -> a <> i \/ b < k \/ k + n <= b ->
     mget 0%R M' a b = mget 0%R M a b) /\
  (forall b, k <= b < k + n -> cell_value seqs model i b = Ok (mget 0%R M' i b)).
Proof.
  induction n as [| n IH]; intros k M M' Hk HM Hloop.
  - simpl in Hloop. injection Hloop as <-.
    split; [exact HM |]. split; [reflexivity | intros b Hb; lia].
  - simpl in Hloop. apply bind_ok_inv in Hloop. destruct Hloop as (M1 & Hcell & Hloop).
    apply likelihood_cell_inv in Hcell. destruct Hcell as (v & Hv & Hset).
    destruct (np_set2_spec 0%R N N M (Z.of_nat i) (Z.of_nat k) v HM
                (of_nat_in_range N i Hi) (of_nat_in_range N k ltac:(lia)))
      as (M1' & Hset' & HM1 & Hget1).
    rewrite Hset in Hset'. injection Hset' as <-.
    rewrite !position_of_nat in Hget1.
    destruct (IH (S k) M1 M' ltac:(lia) HM1 Hloop) as (HM' & Hother & Hrow).
    split; [exact HM' |]. split.
    + intros a b Ha Hb Hab. rewrite Hother by lia. rewrite Hget1 by assumption.
      destruct (a =? i) eqn:Hai, (b =? k) eqn:Hbk; simpl; try reflexivity.
      apply Nat.eqb_eq in Hai, Hbk. lia.
    + intros b Hb. destruct (Nat.eq_dec b k) as [-> | Hbk].
      * rewrite Hother by lia. rewrite Hget1 by lia.
        rewrite !Nat.eqb_refl. simpl. exact Hv.
      * apply Hrow. lia.
Qed.

(** The outer loop over the rows [k .. k+n-1]. *)
Lemma likelihood_rows :
  forall n k M M', k + n <= N -> has_shape N N M ->
  for_each (likelihood_row seqs model N) (seq k n) M = Ok M' ->
  has_shape N N M' /\
  (forall a b, a < N -> b < N -> a < k \/ k + n <= a ->
     mget 0%R M' a b = mget 0%R M a b) /\
  (forall a b, k <= a < k + n -> b < N ->
     cell_value seqs model a b = Ok (mget 0%R M' a b)).
Proof.
  induction n as [| n IH]; intros k M M' Hk HM Hloop.
  - simpl in Hloop. injection Hloop as <-.
    split; [exact HM |]. split; [reflexivity | intros a b Ha; lia].
  - simpl in Hloop. apply bind_ok_inv in Hloop. destruct Hloop as (M1 & Hrow & Hloop).
    unfold likelihood_row in Hrow.
    destruct (likelihood_columns k ltac:(lia) N 0 M M1 ltac:(lia) HM Hrow)
      as (HM1 & Hother1 & Hrow1).
    destruct (IH (S k) M1 M' ltac:(lia) HM1 Hloop) as (HM' & Hother & Hrows).
    split; [exact HM' |]. split.
    + intros a b Ha Hb Hab. rewrite Hother by lia. apply Hother1; lia.
    + intros a b Ha Hb. destruct (Nat.eq_dec a k) as [-> | Hak].
      * rewrite Hother by lia. apply Hrow1. lia.
      * apply Hrows; lia.
Qed.

End LikelihoodLoops.

(** Every cell of the log-likelihood matrix holds the value computed for
    it. *)
Lemma log_likelihood_matrix_cells (seqs : matrix Z) (model : SubstitutionModel)
    (L : matrix R) :
  log_likelihood_matrix seqs model = Ok L ->
  has_shape (length seqs) (length seqs) L /\
  forall i j, i < length seqs -> j < length seqs ->
    cell_value seqs model i j = Ok (mget 0%R L i j).
Proof.
  unfold log_likelihood_matrix. intros Hloop.
  destruct (likelihood_rows seqs model (length seqs) (length seqs) 0 _ L
              ltac:(lia) (np_zeros_shape 0%R _ _) Hloop) as (HL & _ & Hcells).
  split; [exact HL |]. intros i j Hi Hj. apply Hcells; lia.
Qed.

Lemma np_exp_shape (rows cols : nat) (M : matrix R) :
  has_shape rows cols M -> has_shape rows cols (np_exp M).
Proof.
  intros [Hlen Hrows]. unfold np_exp. split.
  - rewrite length_map. exact Hlen.
  - apply Forall_map. eapply Forall_impl; [| exact Hrows].
    intros row Hrow. simpl. rewrite length_map. exact Hrow.
Qed.

Lemma mget_np_exp (rows cols : nat) (M : matrix R) (i j : nat) :
  has_shape rows cols M -> i < rows -> j < cols ->
  mget 0%R (np_exp M) i j = exp_float (mget 0%R M i j).
Proof.
  intros HM Hi Hj. pose proof (has_shape_row rows cols M i HM Hi) as Hrow.
  destruct HM as [Hlen _]. unfold mget, np_exp.
  rewrite nth_indep with (d' := map exp_float []) by (rewrite length_map; lia).
  rewrite map_nth.
  rewrite nth_indep with (d' := exp_float 0%R) by (rewrite length_map; lia).
  apply map_nth.
Qed.

Lemma exp_le_iff (x y : R) : (x <= y)%R <-> (exp x <= exp y)%R.
Proof.
  split.
  - intros [Hlt | ->]; [left; apply exp_increasing; exact Hlt | right; reflexivity].
  - intros [Hlt | Heq]; [left; apply exp_lt_inv; exact Hlt | right; apply exp_inv; exact Heq].
Qed.

(** ** The exponential of a double *)

Lemma exp_underflow_neg : (exp_underflow < 0)%R.
Proof. unfold exp_underflow. pose proof ln_lt_2. lra. Qed.

Lemma exp_float_above (x : R) : (exp_underflow <= x)%R -> exp_float x = exp x.
Proof.
  intros Hx. unfold exp_float. destruct (Rlt_dec x exp_underflow); [lra | reflexivity].
Qed.

Lemma exp_float_below (x : R) : (x < exp_underflow)%R -> exp_float x = 0%R.
Proof.
  intros Hx. unfold exp_float. destruct (Rlt_dec x exp_underflow); [reflexivity | lra].
Qed.

Lemma exp_float_0 : exp_float 0 = 1%R.
Proof. rewrite exp_float_above; [apply exp_0 | pose proof exp_underflow_neg; lra]. Qed.

Lemma exp_float_nonneg (x : R) : (0 <= exp_float x)%R.
Proof.
  unfold exp_float. destruct (Rlt_dec x exp_underflow); [lra | left; apply exp_pos].
Qed.

Lemma exp_float_mono (x y : R) : (x <= y)%R -> (exp_float x <= exp_float y)%R.
Proof.
  intros Hxy. unfold exp_float.
  destruct (Rlt_dec x exp_underflow), (Rlt_dec y exp_underflow); try lra.
  - left. apply exp_pos.
  - apply (proj1 (exp_le_iff x y)). exact Hxy.
Qed.









Lemma np_get_of_nat {A : Type} (a : list A) (d : A) (i : nat) :
  i < length a -> np_get a (Z.of_nat i) = Ok (nth i a d).
Proof.
  intros Hi. unfold np_get. rewrite np_index_in_range by lia. simpl.
  rewrite Nat2Z.id.
  destruct (nth_error a i) as [x |] eqn:Hx.
  - rewrite (nth_error_nth _ _ d Hx). reflexivity.
  - apply nth_error_None in Hx. lia.
Qed.

Lemma Forall_seq_lt (n : nat) : Forall (fun i => i < n) (seq 0 n).
Proof. apply Forall_forall. intros i Hi. apply in_seq in Hi. lia. Qed.

(** The loops complete on an array of sequences of one length whose symbols
    numpy accepts as indices. *)
Lemma log_likelihood_matrix_total (seqs : matrix Z) (model : SubstitutionModel)
    (len : nat) :
  model_4x4 model ->
  Forall (fun row => length row = len /\ Forall accepted_index row) seqs ->
  exists L, log_likelihood_matrix seqs model = Ok L.
Proof.
  intros Hmodel Hseqs. unfold log_likelihood_matrix.
  set (N := length seqs).
  assert (Hrow : forall i, i < N ->
            length (nth i seqs []) = len /\ Forall accepted_index (nth i seqs [])).
  { intros i Hi. rewrite Forall_forall in Hseqs. apply Hseqs. apply nth_In. exact Hi. }
  destruct (for_each_invariant (has_shape N N) (fun i => i < N)
              (likelihood_row seqs model N)) with (l := seq 0 N)
              (acc := np_zeros 0%R N N) as (L & HL & _).
  - intros M i HM Hi. unfold likelihood_row.
    apply (for_each_invariant (has_shape N N) (fun j => j < N));
      [| exact HM | apply Forall_seq_lt].
    intros M1 j HM1 Hj. unfold likelihood_cell.
    assert (Hset : forall v, exists M2,
              np_set2 M1 (Z.of_nat i) (Z.of_nat j) v = Ok M2 /\ has_shape N N M2).
    { intros v.
      destruct (np_set2_spec 0%R N N M1 (Z.of_nat i) (Z.of_nat j) v HM1
                  (of_nat_in_range N i Hi) (of_nat_in_range N j Hj))
        as (M2 & Hset & HM2 & _).
      exists M2. split; assumption. }
    destruct (negb (i =? j)); [| apply Hset].
    rewrite (np_get_of_nat seqs [] i Hi), (np_get_of_nat seqs [] j Hj). simpl.
    destruct (Hrow i Hi) as [Hli Hacci]. destruct (Hrow j Hj) as [Hlj Haccj].
    destruct (compute_log_likelihood_value (nth i seqs []) (nth j seqs []) model
                Hmodel ltac:(congruence) Hacci Haccj) as (S_ij & _ & _ & -> & _).
    simpl. apply Hset.
  - apply np_zeros_shape.
  - apply Forall_seq_lt.
  - exists L. exact HL.
Qed.

(* ================================================================== *)
(** * Connectivity, union-find and the size of forests *)
(* ================================================================== *)

Section Connectivity.

Context {V : Type}.

Implicit Types F : list (edge V).

Lemma connected_refl F x : connected F x x.
Proof. apply rst_refl. Qed.

Lemma connected_sym F x y : connected F x y -> connected F y x.
Proof. apply rst_sym. Qed.

Lemma connected_trans F x y z : connected F x y -> connected F y z -> connected F x z.
Proof. apply rst_trans. Qed.

Lemma connected_edge F u v w : In (u, v, w) F -> connected F u v.
Proof. intros Hin. apply rst_step. exists w. exact Hin. Qed.

(** Connectivity grows with the edges, whichever way they are written. *)
Lemma connected_mono F F' :
  (forall u v w, In (u, v, w) F -> connected F' u v) ->
  forall x y, connected F x y -> connected F' x y.
Proof.
  intros Hsub x y Hxy. induction Hxy as [x y [w Hin] | x | x y _ IH | x y z _ IH1 _ IH2].
  - eapply Hsub. exact Hin.
  - apply connected_refl.
  - apply connected_sym. exact IH.
  - eapply connected_trans; eassumption.
Qed.

Lemma connected_incl F F' :
  incl F F' -> forall x y, connected F x y -> connected F' x y.
Proof.
  intros Hincl. apply connected_mono. intros u v w Hin.
  eapply connected_edge. apply Hincl. exact Hin.
Qed.

Lemma connected_nil x y : connected (@nil (edge V)) x y -> x = y.
Proof.
  intros Hxy. induction Hxy as [x y [w Hin] | x | x y _ IH | x y z _ IH1 _ IH2].
  - destruct Hin.
  - reflexivity.
  - symmetry. exact IH.
  - congruence.
Qed.

(** With one more edge (u, v): connected before, or through the edge. *)
Lemma connected_cons F u v w x y :
  connected ((u, v, w) :: F) x y <->
  connected F x y \/
  (connected F x u /\ connected F v y) \/
  (connected F x v /\ connected F u y).
Proof.
  split.
  - intros Hxy.
    induction Hxy as [x y [w' Hin] | x | x y _ IH | x y z _ IH1 _ IH2].
    + destruct Hin as [Heq | Hin].
      * injection Heq as <- <- <-. right. left.
        split; apply connected_refl.
      * left. eapply connected_edge. exact Hin.
    + left. apply connected_refl.
    + destruct IH as [IH | [[IH1 IH2] | [IH1 IH2]]].
      * left. apply connected_sym. exact IH.
      * right. right. split; apply connected_sym; assumption.
      * right. left. split; apply connected_sym; assumption.
    + destruct IH1 as [A | [[A1 A2] | [A1 A2]]], IH2 as [B | [[B1 B2] | [B1 B2]]].
      * left. eapply connected_trans; eassumption.
      * right. left. split; [eapply connected_trans; eassumption | assumption].
      * right. right. split; [eapply connected_trans; eassumption | assumption].
      * right. left. split; [assumption | eapply connected_trans; eassumption].
      * right. left. split; assumption.
      * left. eapply connected_trans; eassumption.
      * right. right. split; [assumption | eapply connected_trans; eassumption].
      * left. eapply connected_trans; eassumption.
      * right. right. split; assumption.
  - assert (Hold : forall a b, connected F a b -> connected ((u, v, w) :: F) a b).
    { apply connected_incl. intros e He. right. exact He. }
    assert (Huv : connected ((u, v, w) :: F) u v).
    { eapply connected_edge. left. reflexivity. }
    intros [H | [[H1 H2] | [H1 H2]]].
    + apply Hold. exact H.
    + eapply connected_trans; [apply Hold; exact H1 |].
      eapply connected_trans; [exact Huv | apply Hold; exact H2].
    + eapply connected_trans; [apply Hold; exact H1 |].
      eapply connected_trans; [apply connected_sym; exact Huv | apply Hold; exact H2].
Qed.

(** ** The union-find map decides connectivity *)


Lemma uf_equiv_init : uf_equiv uf_init (@nil (edge V)).
Proof.
  intros x y. unfold uf_init. split.
  - intros ->. apply connected_refl.
  - apply connected_nil.
Qed.

Lemma uf_equiv_union (f : UnionFind) F u v w :
  uf_equiv f F -> uf_equiv (union u v f) ((u, v, w) :: F).
Proof.
  intros Hf x y. rewrite connected_cons. unfold union.
  assert (E : forall a b, connected F a b <-> f a = f b)
    by (intros a b; symmetry; apply Hf).
  rewrite !E.
  destruct (Nat.eqb_spec (f x) (f u)) as [Hxu | Hxu],
           (Nat.eqb_spec (f y) (f u)) as [Hyu | Hyu].
  - split; [intros _; left; congruence | reflexivity].
  - split.
    + intros Hvy. right. left. split; [exact Hxu | exact Hvy].
    + intros [H | [[_ H] | [H1 H2]]]; congruence.
  - split.
    + intros Hxv. right. right. split; [exact Hxv | congruence].
    + intros [H | [[H _] | [H _]]]; congruence.
  - split.
    + intros Hxy. left. exact Hxy.
    + intros [H | [[H _] | [_ H]]]; congruence.
Qed.

Lemma uf_of_equiv F : uf_equiv (uf_of F) F.
Proof.
  induction F as [| [[u v] w] F IH]; simpl.
  - apply uf_equiv_init.
  - apply uf_equiv_union. exact IH.
Qed.

End Connectivity.

(** ** Counting the values of a map *)

Lemma distinct_map_le (h : nat -> nat) (l : list nat) :
  distinct (map h l) <= distinct l.
Proof.
  unfold distinct. rewrite <- (length_map h (nodup Nat.eq_dec l)).
  apply NoDup_incl_length.
  - apply NoDup_nodup.
  - intros y Hy. apply nodup_In in Hy. apply in_map_iff in Hy.
    destruct Hy as (x & <- & Hx). apply in_map. apply nodup_In. exact Hx.
Qed.

Lemma distinct_NoDup (l : list nat) : NoDup l -> distinct l = length l.
Proof. intros Hl. unfold distinct. rewrite nodup_fixed_point; auto. Qed.

(** A map that is constant where another one is, takes no more values. *)
Lemma distinct_coarser (f g : nat -> nat) (N : list nat) :
  (forall x y, In x N -> In y N -> f x = f y -> g x = g y) ->
  distinct (map g N) <= distinct (map f N).
Proof.
  intros Hfg.
  set (h := fun a => match find (fun x => f x =? a) N with
                     | Some x => g x
                     | None => 0
                     end).
  assert (Hmap : map g N = map h (map f N)).
  { rewrite map_map. apply map_ext_in. intros x Hx. unfold h.
    destruct (find (fun x0 => f x0 =? f x) N) as [x0 |] eqn:Hfind.
    - apply find_some in Hfind. destruct Hfind as [Hx0 Heq].
      apply Nat.eqb_eq in Heq. symmetry. apply Hfg; assumption.
    - exfalso. apply (find_none _ _ Hfind) in Hx. rewrite Nat.eqb_refl in Hx.
      discriminate. }
  rewrite Hmap. apply distinct_map_le.
Qed.


Lemma distinct_merge_le (a b : nat) (l : list nat) :
  distinct l <= distinct (map (merge a b) l) + 1.
Proof.
  unfold distinct.
  replace (length (nodup Nat.eq_dec (map (merge a b) l)) + 1)
    with (length (a :: nodup Nat.eq_dec (map (merge a b) l))) by (simpl; lia).
  apply NoDup_incl_length; [apply NoDup_nodup |].
  intros x Hx. apply nodup_In in Hx.
  destruct (Nat.eq_dec x a) as [-> | Hxa]; [left; reflexivity | right].
  apply nodup_In. apply in_map_iff. exists x. split; [| exact Hx].
  unfold merge. apply Nat.eqb_neq in Hxa. rewrite Hxa. reflexivity.
Qed.

Lemma distinct_merge_join (a b : nat) (l : list nat) :
  In a l -> In b l -> a <> b ->
  distinct (map (merge a b) l) + 1 <= distinct l.
Proof.
  intros Ha Hb Hab. unfold distinct.
  replace (length (nodup Nat.eq_dec (map (merge a b) l)) + 1)
    with (length (a :: nodup Nat.eq_dec (map (merge a b) l))) by (simpl; lia).
  assert (Hmerge : forall y, In y (map (merge a b) l) -> y <> a /\ In y l).
  { intros y Hy. apply in_map_iff in Hy. destruct Hy as (x & <- & Hx). unfold merge.
    destruct (Nat.eqb_spec x a) as [-> | Hxa]; split; auto. }
  apply NoDup_incl_length.
  - constructor; [| apply NoDup_nodup].
    intros Hin. apply nodup_In in Hin. apply Hmerge in Hin. destruct Hin as [Hin _].
    apply Hin. reflexivity.
  - intros y [<- | Hy]; apply nodup_In; [exact Ha |].
    apply nodup_In in Hy. apply Hmerge in Hy. apply Hy.
Qed.

Section Components.

Context {V : Type}.

Implicit Types F : list (edge V).
Implicit Types N : list nat.

Lemma components_cons_map N F u v w :
  components N ((u, v, w) :: F)
  = distinct (map (merge (uf_of F u) (uf_of F v)) (map (uf_of F) N)).
Proof.
  unfold components. rewrite map_map. f_equal.
Qed.

Lemma components_nil N : NoDup N -> components N (@nil (edge V)) = length N.
Proof.
  intros HN. unfold components. simpl. unfold uf_init. rewrite map_id.
  apply distinct_NoDup. exact HN.
Qed.

(** One more edge removes at most one component ... *)
Lemma components_cons_le N F e : components N F <= components N (e :: F) + 1.
Proof.
  destruct e as [[u v] w]. rewrite components_cons_map. apply distinct_merge_le.
Qed.

(** ... and exactly one when it joins two nodes not yet connected. *)
Lemma components_cons_join N F u v w :
  In u N -> In v N -> ~ connected F u v ->
  components N ((u, v, w) :: F) + 1 = components N F.
Proof.
  intros Hu Hv Huv. apply Nat.le_antisymm; [| apply components_cons_le].
  rewrite components_cons_map. apply distinct_merge_join.
  - apply in_map. exact Hu.
  - apply in_map. exact Hv.
  - intros Heq. apply Huv. apply uf_of_equiv. exact Heq.
Qed.

(** More connections, fewer components. *)
Lemma components_mono N F F' :
  (forall x y, connected F x y -> connected F' x y) ->
  components N F' <= components N F.
Proof.
  intros Hsub. unfold components. apply distinct_coarser.
  intros x y _ _ Heq. apply uf_of_equiv. apply Hsub. apply uf_of_equiv. exact Heq.
Qed.

Lemma components_ext N F F' :
  (forall x y, connected F x y <-> connected F' x y) ->
  components N F = components N F'.
Proof.
  intros Hiff. apply Nat.le_antisymm; apply components_mono; intros x y; apply Hiff.
Qed.

(** Any set of edges leaves at least |N| - |F| components. *)
Lemma components_bound N F : NoDup N -> length N <= length F + components N F.
Proof.
  intros HN. induction F as [| e F IH]; cbn [length].
  - rewrite components_nil by exact HN. lia.
  - pose proof (components_cons_le N F e). lia.
Qed.



Lemma acyclic_components N F :
  NoDup N -> within N F -> acyclic F -> length F + components N F = length N.
Proof.
  intros HN. induction F as [| [[u v] w] F IH]; intros Hin Hacyclic.
  - simpl. apply components_nil. exact HN.
  - destruct Hacyclic as [Huv Hacyclic].
    destruct (Hin u v w (or_introl eq_refl)) as [Hu Hv].
    pose proof (components_cons_join N F u v w Hu Hv Huv).
    assert (within N F) by (intros a b c Habc; apply (Hin a b c); right; exact Habc).
    specialize (IH ltac:(assumption) Hacyclic). cbn [length]. unfold edge in *. lia.
Qed.

Lemma forest_acyclic F : forest F -> acyclic F.
Proof.
  induction F as [| [[u v] w] F IH]; intros Hforest; simpl; [exact I |]. split.
  - apply (Hforest [] u v w F). reflexivity.
  - apply IH. intros F1 a b c F2 -> Hab.
    apply (Hforest ((u, v, w) :: F1) a b c F2); [reflexivity |].
    simpl. eapply connected_incl; [| exact Hab]. intros e He. right. exact He.
Qed.

Lemma acyclic_filter (p : edge V -> bool) F : acyclic F -> acyclic (filter p F).
Proof.
  induction F as [| [[u v] w] F IH]; simpl; [auto |]. intros [Huv Hacyclic].
  destruct (p (u, v, w)); [| apply IH; exact Hacyclic]. split.
  - intros Hconn. apply Huv. eapply connected_incl; [| exact Hconn].
    apply incl_filter.
  - apply IH. exact Hacyclic.
Qed.

(** Edges as few as the components allow form a forest. *)
Lemma tight_forest N F :
  NoDup N -> length F + components N F = length N -> forest F.
Proof.
  intros HN Htight F1 u v w F2 -> Huv.
  assert (Hsame : components N (F1 ++ (u, v, w) :: F2) = components N (F1 ++ F2)).
  { apply components_ext. intros x y. split.
    - apply connected_mono. intros a b c Hin. apply in_app_iff in Hin.
      destruct Hin as [Hin | [Heq | Hin]].
      + eapply connected_edge. apply in_app_iff. left. exact Hin.
      + injection Heq as <- <- <-. exact Huv.
      + eapply connected_edge. apply in_app_iff. right. exact Hin.
    - apply connected_incl. intros e He. apply in_app_iff in He.
      apply in_app_iff. destruct He; [left | right; right]; assumption. }
  pose proof (components_bound N (F1 ++ F2) HN) as Hbound.
  rewrite !length_app in *. cbn [length] in Htight. lia.
Qed.

(** A forest has no more edges than any set of edges that connects as
    much. *)
Lemma forest_size N F F' :
  NoDup N -> within N F -> acyclic F ->
  (forall u v w, In (u, v, w) F -> connected F' u v) ->
  length F <= length F'.
Proof.
  intros HN Hin Hacyclic Hsub.
  pose proof (acyclic_components N F HN Hin Hacyclic).
  pose proof (components_bound N F' HN).
  pose proof (components_mono N F F' (connected_mono F F' Hsub)).
  lia.
Qed.

(** When the edges connect all the nodes there is one component. *)
Lemma components_connected N F :
  N <> [] -> (forall x y, In x N -> In y N -> connected F x y) ->
  components N F = 1.
Proof.
  intros HN Hconn. destruct N as [| n N]; [congruence |].
  unfold components, distinct.
  assert (Hall : forall a, In a (map (uf_of F) (n :: N)) -> a = uf_of F n).
  { intros a Ha. apply in_map_iff in Ha. destruct Ha as (x & <- & Hx).
    apply uf_of_equiv. apply Hconn; [exact Hx | left; reflexivity]. }
  assert (Hle : length (nodup Nat.eq_dec (map (uf_of F) (n :: N))) <= length [uf_of F n]).
  { apply NoDup_incl_length; [apply NoDup_nodup |].
    intros a Ha. apply nodup_In in Ha. left. symmetry. apply Hall. exact Ha. }
  assert (Hge : length [uf_of F n] <= length (nodup Nat.eq_dec (map (uf_of F) (n :: N)))).
  { apply NoDup_incl_length; [repeat constructor; intros [] |].
    intros a [<- | []]. apply nodup_In. left. reflexivity. }
  simpl in *. lia.
Qed.

End Components.

(* ================================================================== *)
(** * Kruskal's algorithm *)
(* ================================================================== *)

Section Kruskal.

Context {V : Type} `{WeightLaws V}.

Implicit Types F es acc : list (edge V).

Lemma wleb_refl (a : V) : wleb a a = true.
Proof. destruct (wleb_total a a); assumption. Qed.

Lemma wleb_false (a b : V) : wleb a b = false -> wleb b a = true.
Proof. intros Hab. destruct (wleb_total a b); congruence. Qed.

(** ** The sort *)

Lemma In_insert_desc (x e : edge V) l : In e (insert_desc x l) <-> e = x \/ In e l.
Proof.
  induction l as [| y l IH]; simpl.
  - intuition congruence.
  - destruct (wleb (weight_of y) (weight_of x)); simpl; [intuition congruence |].
    rewrite IH. intuition congruence.
Qed.

Lemma In_sort_desc (e : edge V) l : In e (sort_desc l) <-> In e l.
Proof.
  induction l as [| x l IH]; simpl; [reflexivity |].
  rewrite In_insert_desc, IH. intuition congruence.
Qed.

Lemma insert_desc_sorted (x : edge V) l : sorted_desc l -> sorted_desc (insert_desc x l).
Proof.
  unfold sorted_desc. induction l as [| y l IH]; intros Hl; simpl.
  - repeat constructor.
  - inversion Hl as [| ? ? Hl' Hy]; subst.
    destruct (wleb (weight_of y) (weight_of x)) eqn:Hyx.
    + constructor; [exact Hl |]. constructor; [exact Hyx |].
      eapply Forall_impl; [| exact Hy]. intros z Hz. simpl in Hz.
      eapply wleb_trans; eassumption.
    + constructor; [apply IH; exact Hl' |].
      apply Forall_forall. intros z Hz. apply In_insert_desc in Hz.
      destruct Hz as [-> | Hz]; [apply wleb_false; exact Hyx |].
      rewrite Forall_forall in Hy. apply Hy. exact Hz.
Qed.

Lemma sort_desc_sorted l : sorted_desc (sort_desc l).
Proof.
  induction l as [| x l IH]; simpl.
  - constructor.
  - apply insert_desc_sorted. exact IH.
Qed.

(** ** The scan *)

Lemma kruskal_scan_In es : forall f e, In e (kruskal_scan es f) -> In e es.
Proof.
  induction es as [| [[a b] c] es IH]; intros f e; simpl; [auto |].
  destruct (f a =? f b); [right; eapply IH; eassumption |].
  intros [<- | He]; [left; reflexivity | right; eapply IH; eassumption].
Qed.

Lemma connected_middle F1 F2 (e : edge V) x y :
  connected ((e :: F1) ++ F2) x y <-> connected (F1 ++ e :: F2) x y.
Proof.
  split; apply connected_incl; intros e' He'; simpl in *;
    rewrite ?in_app_iff in *; simpl in *; tauto.
Qed.

(** The edges yielded are as few as the components allow. *)
Lemma kruskal_scan_tight (N : list nat) es :
  forall acc f,
    uf_equiv f acc -> within N es ->
    length acc + components N acc = length N ->
    length (acc ++ kruskal_scan es f) + components N (acc ++ kruskal_scan es f)
    = length N.
Proof.
  induction es as [| [[a b] c] es IH]; intros acc f Hf Hin Htight; simpl.
  - rewrite app_nil_r. exact Htight.
  - assert (Hin' : within N es).
    { intros u v w Huvw. apply (Hin u v w). right. exact Huvw. }
    destruct (Nat.eqb_spec (f a) (f b)) as [Hab | Hab]; [apply IH; assumption |].
    destruct (Hin a b c (or_introl eq_refl)) as [Ha Hb].
    assert (Hnew : ~ connected acc a b) by (intros Hc; apply Hab, Hf; exact Hc).
    pose proof (components_cons_join N acc a b c Ha Hb Hnew) as Hjoin.
    assert (Htight' : length ((a, b, c) :: acc) + components N ((a, b, c) :: acc)
                      = length N).
    { cbn [length]. unfold edge in *. lia. }
    specialize (IH ((a, b, c) :: acc) (union a b f) (uf_equiv_union f acc a b c Hf)
                  Hin' Htight').
    rewrite (components_ext N (acc ++ (a, b, c) :: kruskal_scan es (union a b f))
               (((a, b, c) :: acc) ++ kruskal_scan es (union a b f))).
    + rewrite <- IH. f_equal. rewrite !length_app. cbn [length]. lia.
    + intros x y. symmetry. apply connected_middle.
Qed.

(** Every edge scanned is connected by the edges yielded that are at least
    as heavy: the scan goes from the heaviest edge down. *)
Lemma kruskal_scan_heavy (theta : V) es :
  forall acc f,
    uf_equiv f acc -> sorted_desc es ->
    (forall a e, In a acc -> In e es -> wleb (weight_of e) (weight_of a) = true) ->
    forall u v w, In (u, v, w) es -> wleb theta w = true ->
    connected (heavy theta (acc ++ kruskal_scan es f)) u v.
Proof.
  induction es as [| [[a b] c] es IH]; intros acc f Hf Hsorted Hacc u v w Hin Hw;
    [destruct Hin |].
  inversion Hsorted as [| ? ? Hsorted' Hhead]; subst.
  assert (Hacc' : forall a0 e, In a0 acc -> In e es ->
                    wleb (weight_of e) (weight_of a0) = true).
  { intros a0 e Ha0 He. apply Hacc; [exact Ha0 | right; exact He]. }
  simpl. destruct (Nat.eqb_spec (f a) (f b)) as [Hab | Hab].
  - destruct Hin as [Heq | Hin]; [| eapply IH; eassumption].
    injection Heq as -> -> ->.
    apply Hf in Hab. eapply connected_incl; [| exact Hab].
    intros e He. apply filter_In. split; [apply in_app_iff; left; exact He |].
    eapply wleb_trans; [exact Hw |].
    apply (Hacc e (u, v, w)); [exact He | left; reflexivity].
  - destruct Hin as [Heq | Hin].
    + injection Heq as -> -> ->. eapply connected_edge.
      apply filter_In. split; [apply in_app_iff; right; left; reflexivity | exact Hw].
    + assert (Hstep : connected (heavy theta (((a, b, c) :: acc)
                                    ++ kruskal_scan es (union a b f))) u v).
      { apply (IH ((a, b, c) :: acc) (union a b f)) with (w := w);
          [apply uf_equiv_union; exact Hf | exact Hsorted' | | exact Hin | exact Hw].
        intros a0 e [<- | Ha0] He; [| apply Hacc'; assumption].
        rewrite Forall_forall in Hhead. apply Hhead. exact He. }
      eapply connected_incl; [| exact Hstep].
      intros e He. apply filter_In in He. destruct He as [He Hp].
      apply filter_In. split; [| exact Hp].
      simpl in He. rewrite in_app_iff in *. simpl. tauto.
Qed.

(** ** Weights of two sets of edges *)

Lemma total_weight_perm F F' : Permutation F F' -> total_weight F = total_weight F'.
Proof.
  intros Hperm. induction Hperm as [| e F F' _ IH | e e' F | F F' F'' _ IH1 _ IH2];
    simpl.
  - reflexivity.
  - rewrite IH. reflexivity.
  - rewrite !wadd_assoc. rewrite (wadd_comm (weight_of e')). reflexivity.
  - congruence.
Qed.

Lemma heavy_perm theta F F' :
  Permutation F F' -> length (heavy theta F) = length (heavy theta F').
Proof.
  intros Hperm. unfold heavy.
  induction Hperm as [| e F F' _ IH | e e' F | F F' F'' _ IH1 _ IH2]; simpl.
  - reflexivity.
  - destruct (wleb theta (weight_of e)); simpl; rewrite IH; reflexivity.
  - destruct (wleb theta (weight_of e)), (wleb theta (weight_of e')); reflexivity.
  - congruence.
Qed.

Lemma filter_none {A : Type} (p : A -> bool) (l : list A) :
  (forall x, In x l -> p x = false) -> filter p l = [].
Proof.
  induction l as [| x l IH]; intros Hp; simpl; [reflexivity |].
  rewrite (Hp x (or_introl eq_refl)). apply IH.
  intros y Hy. apply Hp. right. exact Hy.
Qed.

(** A heaviest edge of a non-empty list. *)
Lemma heaviest_edge F :
  F <> [] ->
  exists m F', Permutation F (m :: F') /\
               forall e, In e F -> wleb (weight_of e) (weight_of m) = true.
Proof.
  induction F as [| a F IH]; intros Hne; [congruence |].
  destruct F as [| b F].
  - exists a, []. split; [reflexivity |].
    intros e [<- | []]. apply wleb_refl.
  - destruct (IH ltac:(discriminate)) as (m & F' & Hperm & Hmax).
    destruct (wleb (weight_of a) (weight_of m)) eqn:Ham.
    + exists m, (a :: F'). split.
      * rewrite Hperm. apply perm_swap.
      * intros e [<- | He]; [exact Ham | apply Hmax; exact He].
    + exists a, (b :: F). split; [reflexivity |].
      intros e [<- | He]; [apply wleb_refl |].
      eapply wleb_trans; [apply Hmax; exact He | apply wleb_false; exact Ham].
Qed.

(** If, whatever the threshold, [F] has at least as many edges above it as
    [F'] has, and both have the same number of edges, then [F] weighs at
    least as much as [F']. *)
Lemma total_weight_dominates :
  forall n F F',
    length F' = n -> length F = n ->
    (forall theta, length (heavy theta F') <= length (heavy theta F)) ->
    wleb (total_weight F') (total_weight F) = true.
Proof.
  induction n as [| n IH]; intros F F' HF' HF Hcount.
  - destruct F, F'; try discriminate. apply wleb_refl.
  - destruct (heaviest_edge F') as (m' & G' & Hperm' & Hmax');
      [intros ->; discriminate |].
    destruct (heaviest_edge F) as (m & G & Hperm & Hmax);
      [intros ->; discriminate |].
    assert (Hmm : wleb (weight_of m') (weight_of m) = true).
    { specialize (Hcount (weight_of m')).
      rewrite (heavy_perm _ _ _ Hperm') in Hcount. unfold heavy in Hcount at 1.
      simpl in Hcount. rewrite wleb_refl in Hcount. simpl in Hcount.
      destruct (heavy (weight_of m') F) as [| x hs] eqn:Hheavy; [simpl in Hcount; lia |].
      assert (Hx : In x (heavy (weight_of m') F)) by (rewrite Hheavy; left; reflexivity).
      apply filter_In in Hx. destruct Hx as [Hx Hwx].
      eapply wleb_trans; [exact Hwx | apply Hmax; exact Hx]. }
    assert (Hrest : wleb (total_weight G') (total_weight G) = true).
    { apply IH.
      - apply Permutation_length in Hperm'. simpl in Hperm'. lia.
      - apply Permutation_length in Hperm. simpl in Hperm. lia.
      - intros theta. specialize (Hcount theta).
        rewrite (heavy_perm _ _ _ Hperm'), (heavy_perm _ _ _ Hperm) in Hcount.
        unfold heavy in *. simpl in Hcount.
        destruct (wleb theta (weight_of m')) eqn:Htm'.
        + rewrite (wleb_trans _ _ _ Htm' Hmm) in Hcount. simpl in Hcount. lia.
        + assert (Hnone : filter (fun e => wleb theta (weight_of e)) G' = []).
          { apply filter_none. intros e He.
            destruct (wleb theta (weight_of e)) eqn:Hte; [| reflexivity].
            rewrite <- Htm'. symmetry. eapply wleb_trans; [exact Hte |].
            apply Hmax'. rewrite Hperm'. right. exact He. }
          rewrite Hnone. simpl. lia. }
    rewrite (total_weight_perm _ _ Hperm'), (total_weight_perm _ _ Hperm). simpl.
    eapply wleb_trans; [apply wadd_mono; exact Hrest |].
    rewrite (wadd_comm (weight_of m')), (wadd_comm (weight_of m)).
    apply wadd_mono. exact Hmm.
Qed.

End Kruskal.

(* ================================================================== *)
(** * The Graph data structure *)
(* ================================================================== *)

Section Dicts.

Context {A : Type}.

Implicit Types d : dict A.

Lemma dict_get_set d k a k' :
  dict_get (dict_set d k a) k' = if k =? k' then Some a else dict_get d k'.
Proof.
  induction d as [| [k0 a0] d IH]; simpl.
  - destruct (k =? k'); reflexivity.
  - destruct (Nat.eqb_spec k0 k) as [-> | Hk0]; simpl.
    + destruct (k =? k'); reflexivity.
    + rewrite IH. destruct (Nat.eqb_spec k k') as [Hkk' | Hkk'].
      * subst k'. apply Nat.eqb_neq in Hk0. rewrite Hk0. reflexivity.
      * reflexivity.
Qed.

Lemma dict_get_In d k a : dict_get d k = Some a -> In (k, a) d.
Proof.
  induction d as [| [k0 a0] d IH]; simpl; [discriminate |].
  destruct (Nat.eqb_spec k0 k) as [-> | Hk0].
  - intros [= ->]. left. reflexivity.
  - intros Hget. right. apply IH. exact Hget.
Qed.

Lemma dict_get_None d k : dict_get d k = None <-> ~ In k (dict_keys d).
Proof.
  induction d as [| [k0 a0] d IH]; simpl.
  - tauto.
  - destruct (Nat.eqb_spec k0 k) as [-> | Hk0].
    + split; [discriminate | tauto].
    + rewrite IH. tauto.
Qed.

Lemma In_dict_get d k a : NoDup (dict_keys d) -> In (k, a) d -> dict_get d k = Some a.
Proof.
  induction d as [| [k0 a0] d IH]; simpl; intros Hnd Hin; [destruct Hin |].
  inversion Hnd as [| ? ? Hk0 Hnd']; subst.
  destruct Hin as [[= -> ->] | Hin].
  - rewrite Nat.eqb_refl. reflexivity.
  - destruct (Nat.eqb_spec k0 k) as [-> | Hne]; [| apply IH; assumption].
    exfalso. apply Hk0. apply (in_map fst) in Hin. exact Hin.
Qed.

Lemma dict_keys_set d k a :
  dict_keys (dict_set d k a)
  = if mem k (dict_keys d) then dict_keys d else dict_keys d ++ [k].
Proof.
  induction d as [| [k0 a0] d IH]; simpl; [reflexivity |].
  rewrite (Nat.eqb_sym k k0).
  destruct (Nat.eqb_spec k0 k) as [-> | Hk0]; simpl; [reflexivity |].
  unfold dict_keys in *. rewrite IH. destruct (mem k (map fst d)); reflexivity.
Qed.

Lemma mem_In k (l : list nat) : mem k l = true <-> In k l.
Proof.
  unfold mem. rewrite existsb_exists. split.
  - intros (x & Hx & Heq). apply Nat.eqb_eq in Heq. subst. exact Hx.
  - intros Hk. exists k. split; [exact Hk | apply Nat.eqb_refl].
Qed.

Lemma In_dict_keys_set d k a k' :
  In k' (dict_keys (dict_set d k a)) <-> k' = k \/ In k' (dict_keys d).
Proof.
  rewrite dict_keys_set. destruct (mem k (dict_keys d)) eqn:Hmem.
  - apply mem_In in Hmem. split; [tauto | intros [-> | Hk']; assumption].
  - rewrite in_app_iff. simpl. intuition congruence.
Qed.

Lemma NoDup_dict_keys_set d k a :
  NoDup (dict_keys d) -> NoDup (dict_keys (dict_set d k a)).
Proof.
  intros Hnd. rewrite dict_keys_set. destruct (mem k (dict_keys d)) eqn:Hmem;
    [exact Hnd |].
  apply NoDup_app; [exact Hnd | repeat constructor; intros [] |].
  intros x Hx [<- | []].
  apply mem_In in Hx. congruence.
Qed.

Lemma In_dict_set d k a k' a' :
  In (k', a') (dict_set d k a) -> (k' = k /\ a' = a) \/ In (k', a') d.
Proof.
  induction d as [| [k0 a0] d IH]; simpl.
  - intros [[= <- <-] | []]. left. split; reflexivity.
  - destruct (Nat.eqb_spec k0 k) as [-> | Hk0]; simpl.
    + intros [[= <- <-] | Hin]; [left; split; reflexivity | right; right; exact Hin].
    + intros [Heq | Hin]; [right; left; exact Heq |].
      destruct (IH Hin) as [Hnew | Hold]; [left; exact Hnew | right; right; exact Hold].
Qed.

End Dicts.

Section GraphStructure.

Context {V : Type}.

Implicit Types G : Graph V.

Lemma same_pair_sym a b u v : same_pair a b u v = same_pair a b v u.
Proof. unfold same_pair. apply orb_comm. Qed.

Lemma same_pair_endpoints a b u v (w w' : V) :
  same_pair a b u v = true <-> endpoints (a, b, w) = endpoints (u, v, w').
Proof.
  unfold same_pair, endpoints. simpl.
  rewrite orb_true_iff, !andb_true_iff, !Nat.eqb_eq. split.
  - intros [[-> ->] | [-> ->]]; [reflexivity |].
    rewrite Nat.min_comm, Nat.max_comm. reflexivity.
  - intros [= Hmin Hmax]. lia.
Qed.

Lemma edge_weight_add_node G n u v :
  edge_weight (add_node G n) u v = edge_weight G u v.
Proof.
  unfold add_node. destruct (dict_get G n) as [nbrs |] eqn:Hn; [reflexivity |].
  unfold edge_weight, neighbours. rewrite dict_get_set.
  destruct (Nat.eqb_spec n u) as [-> | Hnu]; [| reflexivity].
  rewrite Hn. reflexivity.
Qed.

Lemma edge_weight_set_row G a b (w : V) u v :
  edge_weight (dict_set G a (dict_set (neighbours G a) b w)) u v
  = if (a =? u) && (b =? v) then Some w else edge_weight G u v.
Proof.
  unfold edge_weight at 1. unfold neighbours at 1. rewrite dict_get_set.
  destruct (Nat.eqb_spec a u) as [-> | Hau]; simpl.
  - rewrite dict_get_set. destruct (b =? v); reflexivity.
  - reflexivity.
Qed.

(** The weight found under [u][v] after [add_edge]. *)
Lemma edge_weight_add_edge G a b (w : V) u v :
  edge_weight (add_edge G a b w) u v
  = if same_pair a b u v then Some w else edge_weight G u v.
Proof.
  unfold add_edge. rewrite !edge_weight_set_row, !edge_weight_add_node.
  unfold same_pair. rewrite (andb_comm (a =? v)).
  destruct ((b =? u) && (a =? v)), ((a =? u) && (b =? v)); reflexivity.
Qed.

Lemma In_nodes_add_node G n k : In k (nodes (add_node G n)) <-> k = n \/ In k (nodes G).
Proof.
  unfold add_node, nodes. destruct (dict_get G n) as [nbrs |] eqn:Hn.
  - split; [tauto |]. intros [-> | Hk]; [| exact Hk].
    apply dict_get_In in Hn. apply (in_map fst) in Hn. exact Hn.
  - apply In_dict_keys_set.
Qed.

Lemma In_nodes_add_edge G a b (w : V) k :
  In k (nodes (add_edge G a b w)) <-> k = a \/ k = b \/ In k (nodes G).
Proof.
  unfold add_edge, nodes. rewrite !In_dict_keys_set.
  fold (nodes (add_node (add_node G a) b)). rewrite !In_nodes_add_node. tauto.
Qed.

Lemma wf_empty_graph : wf_graph (@empty_graph V).
Proof.
  split; [constructor |]. split; [intros n nbrs [] |]. intros u v w. discriminate.
Qed.

Lemma wf_add_node G n : wf_graph G -> wf_graph (add_node G n).
Proof.
  intros (Hnodes & Hrows & Hsym). unfold add_node.
  destruct (dict_get G n) as [nbrs |] eqn:Hn; [repeat split; assumption |].
  split; [apply NoDup_dict_keys_set; exact Hnodes |]. split.
  - intros k nbrs Hin. apply In_dict_set in Hin.
    destruct Hin as [[_ ->] | Hin]; [constructor | eapply Hrows; exact Hin].
  - intros u v w.
    pose proof (edge_weight_add_node G n) as Hw. unfold add_node in Hw.
    rewrite Hn in Hw. rewrite !Hw. apply Hsym.
Qed.

Lemma neighbours_NoDup G u :
  (forall n nbrs, In (n, nbrs) G -> NoDup (dict_keys nbrs)) ->
  NoDup (dict_keys (neighbours G u)).
Proof.
  intros Hrows. unfold neighbours. destruct (dict_get G u) as [nbrs |] eqn:Hu.
  - apply dict_get_In in Hu. eapply Hrows. exact Hu.
  - constructor.
Qed.

Lemma wf_add_edge G a b (w : V) : wf_graph G -> wf_graph (add_edge G a b w).
Proof.
  intros HG.
  pose proof (wf_add_node _ b (wf_add_node _ a HG)) as (Hnodes & Hrows & Hsym).
  split; [| split].
  - unfold add_edge, nodes. do 2 apply NoDup_dict_keys_set. exact Hnodes.
  - assert (Hrows3 : forall n nbrs,
              In (n, nbrs) (dict_set (add_node (add_node G a) b) a
                              (dict_set (neighbours (add_node (add_node G a) b) a) b w)) ->
              NoDup (dict_keys nbrs)).
    { intros n nbrs Hin. apply In_dict_set in Hin.
      destruct Hin as [[_ ->] | Hin]; [| eapply Hrows; exact Hin].
      apply NoDup_dict_keys_set. apply neighbours_NoDup. exact Hrows. }
    intros n nbrs Hin. unfold add_edge in Hin. apply In_dict_set in Hin.
    destruct Hin as [[_ ->] | Hin]; [| eapply Hrows3; exact Hin].
    apply NoDup_dict_keys_set. apply neighbours_NoDup. exact Hrows3.
  - intros u v x. rewrite !edge_weight_add_edge. rewrite (same_pair_sym a b v u).
    destruct (same_pair a b u v); [auto |].
    destruct HG as (_ & _ & HsymG). apply HsymG.
Qed.

Lemma wf_add_nodes_from ns : forall G, wf_graph G -> wf_graph (add_nodes_from G ns).
Proof.
  induction ns as [| n ns IH]; intros G HG; simpl; [exact HG |].
  apply IH. apply wf_add_node. exact HG.
Qed.

Lemma wf_add_edges_from es : forall G, wf_graph G -> wf_graph (add_edges_from G es).
Proof.
  induction es as [| [[a b] w] es IH]; intros G HG; simpl; [exact HG |].
  apply IH. apply wf_add_edge. exact HG.
Qed.

(** ** The edges reported *)

Lemma In_edges_from (seen : list nat) G u v (w : V) :
  In (u, v, w) (edges_from seen G) ->
  exists nbrs, In (u, nbrs) G /\ In (v, w) nbrs /\ ~ In v seen.
Proof.
  revert seen. induction G as [| [n nbrs] G IH]; intros seen; simpl; [intros [] |].
  rewrite in_app_iff. intros [Hin | Hin].
  - apply in_map_iff in Hin. destruct Hin as ([m x] & [= <- <- <-] & Hin).
    apply filter_In in Hin. destruct Hin as [Hin Hseen]. simpl in Hseen.
    exists nbrs. split; [left; reflexivity |]. split; [exact Hin |].
    intros Hm. apply mem_In in Hm. rewrite Hm in Hseen. discriminate.
  - destruct (IH _ Hin) as (nbrs' & Hrow & Hnbr & Hseen).
    exists nbrs'. split; [right; exact Hrow |]. split; [exact Hnbr |].
    intros Hv. apply Hseen. right. exact Hv.
Qed.

Lemma edge_weight_In G u v (w : V) :
  edge_weight G u v = Some w ->
  exists nbrs, In (u, nbrs) G /\ In (v, w) nbrs.
Proof.
  unfold edge_weight, neighbours. destruct (dict_get G u) as [nbrs |] eqn:Hu;
    [| discriminate].
  intros Hv. exists nbrs. split; apply dict_get_In; assumption.
Qed.

Lemma In_edge_weight G u nbrs v (w : V) :
  wf_graph G -> In (u, nbrs) G -> In (v, w) nbrs -> edge_weight G u v = Some w.
Proof.
  intros (Hnodes & Hrows & _) Hrow Hnbr. unfold edge_weight, neighbours.
  rewrite (In_dict_get G u nbrs Hnodes Hrow).
  apply In_dict_get; [eapply Hrows; exact Hrow | exact Hnbr].
Qed.

(** An edge reported is an edge stored. *)
Lemma edges_edge_weight G u v (w : V) :
  wf_graph G -> In (u, v, w) (edges G) -> edge_weight G u v = Some w.
Proof.
  intros HG Hin. apply In_edges_from in Hin.
  destruct Hin as (nbrs & Hrow & Hnbr & _). eapply In_edge_weight; eassumption.
Qed.

Lemma edges_from_complete G :
  forall seen,
    NoDup (dict_keys G) ->
    (forall k, In k seen -> ~ In k (dict_keys G)) ->
    (forall u nbrs v (w : V), In (u, nbrs) G -> In (v, w) nbrs ->
       In v seen \/ exists nbrs', In (v, nbrs') G /\ In (u, w) nbrs') ->
    forall u nbrs v w, In (u, nbrs) G -> In (v, w) nbrs -> ~ In v seen ->
      In (u, v, w) (edges_from seen G) \/ In (v, u, w) (edges_from seen G).
Proof.
  induction G as [| [n nb] G IH]; intros seen Hnd Hseen Hsym u nbrs v w Hrow Hnbr Hv;
    [destruct Hrow |].
  inversion Hnd as [| ? ? Hn Hnd']; subst. simpl.
  assert (Hhead : forall m x, In (m, x) nb -> ~ In m seen ->
            In (n, m, x) (map (fun mw => (n, fst mw, snd mw))
                            (filter (fun mw => negb (mem (fst mw) seen)) nb))).
  { intros m x Hin Hm. apply in_map_iff. exists (m, x). split; [reflexivity |].
    apply filter_In. split; [exact Hin |]. simpl.
    destruct (mem m seen) eqn:Hmem; [| reflexivity].
    apply mem_In in Hmem. contradiction. }
  destruct Hrow as [[= <- <-] | Hrow].
  - left. apply in_app_iff. left. apply Hhead; assumption.
  - assert (Hu : In u (dict_keys G)) by (apply (in_map fst) in Hrow; exact Hrow).
    destruct (Nat.eq_dec v n) as [-> | Hvn].
    + right. apply in_app_iff. left.
      destruct (Hsym u nbrs n w (or_intror Hrow) Hnbr) as [Hs | (nbrs' & Hrow' & Hnbr')];
        [contradiction |].
      destruct Hrow' as [[= <-] | Hrow'].
      * apply Hhead; [exact Hnbr' |].
        intros Hus. apply (Hseen u Hus). right. exact Hu.
      * exfalso. apply Hn. apply (in_map fst) in Hrow'. exact Hrow'.
    + destruct (IH (n :: seen) Hnd') with (u := u) (nbrs := nbrs) (v := v) (w := w)
        as [Hin | Hin]; try assumption.
      * intros k [<- | Hk]; [exact Hn |].
        intros Hk'. apply (Hseen k Hk). right. exact Hk'.
      * intros u' nbrs' v' w' Hrow' Hnbr'.
        destruct (Hsym u' nbrs' v' w' (or_intror Hrow') Hnbr')
          as [Hs | (nbrs'' & [[= <- <-] | Hrow''] & Hnbr'')].
        -- left. right. exact Hs.
        -- left. left. reflexivity.
        -- right. exists nbrs''. split; assumption.
      * intros [Heq | Hs]; [congruence | contradiction].
      * left. apply in_app_iff. right. exact Hin.
      * right. apply in_app_iff. right. exact Hin.
Qed.

(** An edge stored is reported, in one direction or the other. *)
Lemma edge_weight_edges G u v (w : V) :
  wf_graph G -> edge_weight G u v = Some w ->
  In (u, v, w) (edges G) \/ In (v, u, w) (edges G).
Proof.
  intros HG Hw. pose proof HG as (Hnodes & Hrows & Hsym).
  destruct (edge_weight_In G u v w Hw) as (nbrs & Hrow & Hnbr).
  apply (edges_from_complete G [] Hnodes) with (nbrs := nbrs); auto.
  intros u' nbrs' v' w' Hrow' Hnbr'. right.
  apply edge_weight_In. apply Hsym. eapply In_edge_weight; eassumption.
Qed.

Lemma edge_of_edge_weight G u v (w : V) :
  wf_graph G -> (edge_of G (u, v, w) <-> edge_weight G u v = Some w).
Proof.
  intros HG. unfold edge_of. simpl. split.
  - intros [Hin | Hin]; [apply edges_edge_weight; assumption |].
    pose proof HG as (_ & _ & Hsym). apply Hsym.
    apply edges_edge_weight; [exact HG | exact Hin].
  - apply edge_weight_edges. exact HG.
Qed.

Lemma edge_weight_nodes G u v (w : V) :
  wf_graph G -> edge_weight G u v = Some w -> In u (nodes G) /\ In v (nodes G).
Proof.
  intros HG Hw. pose proof HG as (_ & _ & Hsym). split.
  - destruct (edge_weight_In G u v w Hw) as (nbrs & Hrow & _).
    apply (in_map fst) in Hrow. exact Hrow.
  - destruct (edge_weight_In G v u w (Hsym _ _ _ Hw)) as (nbrs & Hrow & _).
    apply (in_map fst) in Hrow. exact Hrow.
Qed.

Lemma edges_within G : wf_graph G -> within (nodes G) (edges G).
Proof.
  intros HG u v w Hin. eapply edge_weight_nodes; [exact HG |].
  apply edges_edge_weight; eassumption.
Qed.

(** No pair of endpoints is reported twice. *)
Lemma endpoints_inj (n m m' : nat) (x x' : V) :
  endpoints (n, m, x) = endpoints (n, m', x') -> m = m'.
Proof. unfold endpoints. simpl. intros [= Hmin Hmax]. lia. Qed.

Lemma endpoints_mem (u v n : nat) (x y : V) (m : nat) :
  endpoints (u, v, x) = endpoints (n, m, y) -> u = n \/ v = n.
Proof. unfold endpoints. simpl. intros [= Hmin Hmax]. lia. Qed.

Lemma NoDup_row_endpoints (n : nat) (p : nat * V -> bool) (nbrs : dict V) :
  NoDup (dict_keys nbrs) ->
  NoDup (map endpoints (map (fun mw => (n, fst mw, snd mw)) (filter p nbrs))).
Proof.
  induction nbrs as [| [m x] nbrs IH]; simpl; intros Hnd; [constructor |].
  inversion Hnd as [| ? ? Hm Hnd']; subst.
  destruct (p (m, x)); [| apply IH; exact Hnd'].
  simpl. constructor; [| apply IH; exact Hnd'].
  intros Hin. apply in_map_iff in Hin. destruct Hin as ([[a b] y] & Heq & Hin).
  apply in_map_iff in Hin. destruct Hin as ([m' x'] & [= <- <- <-] & Hin).
  apply filter_In in Hin. destruct Hin as [Hin _].
  simpl in Heq. apply endpoints_inj in Heq. subst m'.
  apply Hm. apply (in_map fst) in Hin. exact Hin.
Qed.

Lemma NoDup_edges_from G :
  forall seen,
    NoDup (dict_keys G) ->
    (forall n nbrs, In (n, nbrs) G -> NoDup (dict_keys nbrs)) ->
    NoDup (map (@endpoints V) (edges_from seen G)).
Proof.
  induction G as [| [n nb] G IH]; intros seen Hnd Hrows; simpl; [constructor |].
  inversion Hnd as [| ? ? Hn Hnd']; subst.
  rewrite map_app. apply NoDup_app.
  - apply NoDup_row_endpoints. apply (Hrows n nb). left. reflexivity.
  - apply IH; [exact Hnd' |]. intros k nbrs Hin. apply (Hrows k nbrs). right. exact Hin.
  - intros p Hp Hp'.
    apply in_map_iff in Hp. destruct Hp as ([[a b] y] & Heq & Hin).
    apply in_map_iff in Hin. destruct Hin as ([m x] & [= <- <- <-] & _).
    apply in_map_iff in Hp'. destruct Hp' as ([[u v] z] & Heq' & Hin').
    apply In_edges_from in Hin'. destruct Hin' as (nbrs & Hrow & _ & Hseen).
    rewrite <- Heq in Heq'. simpl in Heq'. apply endpoints_mem in Heq'.
    destruct Heq' as [-> | ->].
    + apply Hn. apply (in_map fst) in Hrow. exact Hrow.
    + apply Hseen. left. reflexivity.
Qed.

Lemma NoDup_edges G : wf_graph G -> NoDup (map endpoints (edges G)).
Proof.
  intros (Hnodes & Hrows & _). apply NoDup_edges_from; assumption.
Qed.

End GraphStructure.

(* ================================================================== *)
(** * maximum_spanning_tree and get_mst *)
(* ================================================================== *)

Lemma for_each_preserves {A B : Type} (Inv : B -> Prop) (body : B -> A -> result B) :
  (forall acc x acc', Inv acc -> body acc x = Ok acc' -> Inv acc') ->
  forall l acc acc', Inv acc -> for_each body l acc = Ok acc' -> Inv acc'.
Proof.
  intros Hbody. induction l as [| x l IH]; intros acc acc' Hacc Hloop; simpl in Hloop.
  - injection Hloop as <-. exact Hacc.
  - apply bind_ok_inv in Hloop. destruct Hloop as (acc1 & Hstep & Hloop).
    eapply IH; [| exact Hloop]. eapply Hbody; eassumption.
Qed.

Section TreeGraph.

Context {V : Type}.

Implicit Types G : Graph V.

Lemma add_node_present G n : In n (nodes G) -> add_node G n = G.
Proof.
  intros Hn. unfold add_node. destruct (dict_get G n) eqn:Hget; [reflexivity |].
  apply dict_get_None in Hget. contradiction.
Qed.

Lemma nodes_add_node_new G n : ~ In n (nodes G) -> nodes (add_node G n) = nodes G ++ [n].
Proof.
  intros Hn. unfold add_node. pose proof (proj2 (dict_get_None G n) Hn) as ->.
  unfold nodes. rewrite dict_keys_set.
  destruct (mem n (dict_keys G)) eqn:Hmem; [| reflexivity].
  apply mem_In in Hmem. contradiction.
Qed.

Lemma nodes_add_nodes_from ns :
  forall G, NoDup ns -> (forall n, In n ns -> ~ In n (nodes G)) ->
  nodes (add_nodes_from G ns) = nodes G ++ ns.
Proof.
  unfold add_nodes_from.
  induction ns as [| n ns IH]; intros G Hnd Hnew; simpl.
  - rewrite app_nil_r. reflexivity.
  - inversion Hnd as [| ? ? Hn Hnd']; subst.
    rewrite IH.
    + rewrite nodes_add_node_new by (apply Hnew; left; reflexivity).
      rewrite <- app_assoc. reflexivity.
    + exact Hnd'.
    + intros k Hk Hin. apply In_nodes_add_node in Hin.
      destruct Hin as [-> | Hin]; [contradiction |].
      apply (Hnew k); [right; exact Hk | exact Hin].
Qed.

Lemma edge_weight_add_nodes_from ns :
  forall G u v, edge_weight (add_nodes_from G ns) u v = edge_weight G u v.
Proof.
  unfold add_nodes_from.
  induction ns as [| n ns IH]; intros G u v; simpl; [reflexivity |].
  rewrite IH. apply edge_weight_add_node.
Qed.

Lemma nodes_dict_set_present {A : Type} (d : dict A) k a :
  In k (dict_keys d) -> dict_keys (dict_set d k a) = dict_keys d.
Proof.
  intros Hk. rewrite dict_keys_set. apply mem_In in Hk. rewrite Hk. reflexivity.
Qed.

Lemma nodes_add_edge_present G a b (w : V) :
  In a (nodes G) -> In b (nodes G) -> nodes (add_edge G a b w) = nodes G.
Proof.
  intros Ha Hb. unfold add_edge.
  rewrite (add_node_present G a Ha), (add_node_present G b Hb).
  unfold nodes. rewrite nodes_dict_set_present.
  - apply nodes_dict_set_present. exact Ha.
  - rewrite nodes_dict_set_present; assumption.
Qed.

Lemma nodes_add_edges_from es :
  forall G, within (nodes G) es -> nodes (add_edges_from G es) = nodes G.
Proof.
  unfold add_edges_from.
  induction es as [| [[a b] w] es IH]; intros G Hin; simpl; [reflexivity |].
  destruct (Hin a b w (or_introl eq_refl)) as [Ha Hb].
  rewrite IH.
  - apply nodes_add_edge_present; assumption.
  - rewrite nodes_add_edge_present by assumption.
    intros u v x Huvx. apply (Hin u v x). right. exact Huvx.
Qed.

(** The edges of the graph built come from the list ... *)
Lemma edge_weight_add_edges_from es :
  forall G u v (w : V),
    edge_weight (add_edges_from G es) u v = Some w ->
    (exists a b, In (a, b, w) es /\ same_pair a b u v = true) \/
    edge_weight G u v = Some w.
Proof.
  unfold add_edges_from.
  induction es as [| [[a b] x] es IH]; intros G u v w; simpl; [auto |].
  intros Hw. apply IH in Hw. destruct Hw as [(a' & b' & Hin & Hsame) | Hw].
  - left. exists a', b'. split; [right; exact Hin | exact Hsame].
  - rewrite edge_weight_add_edge in Hw.
    destruct (same_pair a b u v) eqn:Hsame; [| right; exact Hw].
    injection Hw as ->. left. exists a, b. split; [left; reflexivity | exact Hsame].
Qed.

Lemma edge_weight_add_edges_from_other es :
  forall G u v,
    (forall a b (w : V), In (a, b, w) es -> same_pair a b u v = false) ->
    edge_weight (add_edges_from G es) u v = edge_weight G u v.
Proof.
  unfold add_edges_from.
  induction es as [| [[a b] x] es IH]; intros G u v Hother; simpl; [reflexivity |].
  rewrite IH.
  - rewrite edge_weight_add_edge. rewrite (Hother a b x (or_introl eq_refl)). reflexivity.
  - intros a' b' w Hin. apply (Hother a' b' w). right. exact Hin.
Qed.

(** ... and every edge of a list without repeated endpoints is in it. *)
Lemma edge_weight_add_edges_from_In es :
  forall G a b (w : V),
    NoDup (map endpoints es) -> In (a, b, w) es ->
    edge_weight (add_edges_from G es) a b = Some w.
Proof.
  induction es as [| [[a0 b0] x] es IH]; intros G a b w Hnd Hin; [destruct Hin |].
  inversion Hnd as [| ? ? Hhead Hnd']; subst.
  change (add_edges_from G ((a0, b0, x) :: es))
    with (add_edges_from (add_edge G a0 b0 x) es).
  destruct Hin as [[= -> -> ->] | Hin].
  - rewrite edge_weight_add_edges_from_other.
    + rewrite edge_weight_add_edge.
      unfold same_pair. rewrite !Nat.eqb_refl. reflexivity.
    + intros a' b' w' Hin'. destruct (same_pair a' b' a b) eqn:Hsame; [| reflexivity].
      exfalso. apply Hhead. apply in_map_iff. exists (a', b', w').
      split; [| exact Hin'].
      apply (same_pair_endpoints a' b' a b w' w). exact Hsame.
  - apply IH; assumption.
Qed.

Lemma acyclic_NoDup_endpoints (F : list (edge V)) :
  acyclic F -> NoDup (map endpoints F).
Proof.
  induction F as [| [[u v] w] F IH]; simpl; [constructor |].
  intros [Huv Hacyclic]. constructor; [| apply IH; exact Hacyclic].
  intros Hin. apply in_map_iff in Hin. destruct Hin as ([[u' v'] w'] & Heq & Hin).
  apply Huv. apply (same_pair_endpoints u' v' u v w' w) in Heq.
  unfold same_pair in Heq. rewrite orb_true_iff, !andb_true_iff, !Nat.eqb_eq in Heq.
  destruct Heq as [[-> ->] | [-> ->]].
  - eapply connected_edge. exact Hin.
  - apply connected_sym. eapply connected_edge. exact Hin.
Qed.

End TreeGraph.

Section MaximumSpanningTree.

Context {V : Type} `{WeightLaws V}.

Variable G : Graph V.
Hypothesis G_wf : wf_graph G.

Let N := nodes G.
Let E := edges G.
Let K := kruskal_mst_edges G.
Let T := maximum_spanning_tree G.

Lemma nodes_NoDup : NoDup N.
Proof. apply G_wf. Qed.

Lemma K_sub (e : edge V) : In e K -> In e E.
Proof.
  intros He. apply kruskal_scan_In in He. apply (proj1 (In_sort_desc _ _)) in He. exact He.
Qed.

Lemma K_within : within N K.
Proof.
  intros u v w Hin. apply (edges_within G G_wf u v w). apply K_sub. exact Hin.
Qed.

Lemma K_tight : length K + components N K = length N.
Proof.
  apply (kruskal_scan_tight N (sort_desc E) [] uf_init).
  - apply uf_equiv_init.
  - intros u v w Hin. apply (proj1 (In_sort_desc _ _)) in Hin.
    apply (edges_within G G_wf u v w Hin).
  - simpl. apply components_nil. apply nodes_NoDup.
Qed.

Lemma K_acyclic : acyclic K.
Proof.
  apply forest_acyclic. apply (tight_forest N); [apply nodes_NoDup | apply K_tight].
Qed.

(** The edges of the graph at least as heavy as [theta] are connected by
    the edges of [K] at least as heavy as [theta]. *)
Lemma K_heavy (theta : V) u v w :
  In (u, v, w) E -> wleb theta w = true -> connected (heavy theta K) u v.
Proof.
  intros Hin Hw.
  apply (kruskal_scan_heavy theta (sort_desc E) [] uf_init) with (w := w).
  - apply uf_equiv_init.
  - apply sort_desc_sorted.
  - intros a e [].
  - apply (proj2 (In_sort_desc _ _)). exact Hin.
  - exact Hw.
Qed.

Lemma T_wf : wf_graph T.
Proof.
  apply wf_add_edges_from. apply wf_add_nodes_from. apply wf_empty_graph.
Qed.

Lemma T_nodes : nodes T = N.
Proof.
  unfold T, maximum_spanning_tree.
  assert (Hnodes : nodes (add_nodes_from (@empty_graph V) (nodes G)) = N).
  { rewrite nodes_add_nodes_from; [reflexivity | apply nodes_NoDup | intros n _ []]. }
  rewrite nodes_add_edges_from; [exact Hnodes |].
  rewrite Hnodes. apply K_within.
Qed.

(** The edges of the tree returned are those of [K], up to direction. *)
Lemma T_edges_from_K u v w :
  In (u, v, w) (edges T) -> In (u, v, w) K \/ In (v, u, w) K.
Proof.
  intros Hin. apply (edges_edge_weight T u v w T_wf) in Hin.
  apply edge_weight_add_edges_from in Hin.
  destruct Hin as [(a & b & Hin & Hsame) | Hw].
  - unfold same_pair in Hsame.
    rewrite orb_true_iff, !andb_true_iff, !Nat.eqb_eq in Hsame.
    destruct Hsame as [[-> ->] | [-> ->]]; [left | right]; exact Hin.
  - rewrite edge_weight_add_nodes_from in Hw. discriminate.
Qed.

Lemma K_edges_in_T u v w :
  In (u, v, w) K -> In (u, v, w) (edges T) \/ In (v, u, w) (edges T).
Proof.
  intros Hin. apply (edge_weight_edges T u v w T_wf).
  apply edge_weight_add_edges_from_In; [| exact Hin].
  apply acyclic_NoDup_endpoints. apply K_acyclic.
Qed.

Lemma T_K_connected (F F' : list (edge V)) :
  (forall u v w, In (u, v, w) F -> In (u, v, w) F' \/ In (v, u, w) F') ->
  forall x y, connected F x y -> connected F' x y.
Proof.
  intros Hsub. apply connected_mono. intros u v w Hin.
  destruct (Hsub u v w Hin) as [Hin' | Hin'].
  - eapply connected_edge. exact Hin'.
  - apply connected_sym. eapply connected_edge. exact Hin'.
Qed.

Lemma heavy_either (theta : V) (F F' : list (edge V)) :
  (forall u v w, In (u, v, w) F -> In (u, v, w) F' \/ In (v, u, w) F') ->
  forall u v w, In (u, v, w) (heavy theta F) ->
    In (u, v, w) (heavy theta F') \/ In (v, u, w) (heavy theta F').
Proof.
  intros Hsub u v w Hin. apply filter_In in Hin. destruct Hin as [Hin Hw].
  destruct (Hsub u v w Hin) as [Hin' | Hin']; [left | right];
    apply filter_In; split; assumption.
Qed.

Lemma T_edges_length : length (edges T) <= length K.
Proof.
  rewrite <- (length_map endpoints (edges T)), <- (length_map endpoints K).
  apply NoDup_incl_length; [apply NoDup_edges; apply T_wf |].
  intros p Hp. apply in_map_iff in Hp. destruct Hp as ([[u v] w] & <- & Hin).
  apply in_map_iff. destruct (T_edges_from_K u v w Hin) as [HK | HK].
  - exists (u, v, w). split; [reflexivity | exact HK].
  - exists (v, u, w). split; [| exact HK].
    unfold endpoints. simpl. rewrite Nat.min_comm, Nat.max_comm. reflexivity.
Qed.

Lemma T_tight : length (edges T) + components N (edges T) = length N.
Proof.
  pose proof K_tight as HK. pose proof T_edges_length as Hlen.
  pose proof (components_bound N (edges T) nodes_NoDup) as Hbound.
  assert (Hsame : components N (edges T) = components N K).
  { apply components_ext. intros x y. split; apply T_K_connected.
    - exact T_edges_from_K.
    - exact K_edges_in_T. }
  unfold edge in *. lia.
Qed.

Lemma T_edges_of_G e : In e (edges T) -> edge_of G e.
Proof.
  destruct e as [[u v] w]. intros Hin. unfold edge_of. simpl.
  destruct (T_edges_from_K u v w Hin) as [HK | HK]; apply K_sub in HK; auto.
Qed.

Lemma T_connects x y : connected E x y -> connected (edges T) x y.
Proof.
  intros Hxy. apply (T_K_connected K (edges T) K_edges_in_T).
  revert x y Hxy. apply connected_mono. intros u v w Hin.
  eapply connected_incl; [apply incl_filter |].
  apply (K_heavy w u v w Hin). apply wleb_refl.
Qed.

Lemma edge_of_within (F : list (edge V)) :
  (forall e, In e F -> edge_of G e) -> within N F.
Proof.
  intros Hsub u v w Hin. apply Hsub in Hin. unfold edge_of in Hin. simpl in Hin.
  destruct Hin as [Hin | Hin]; apply (edges_within G G_wf) in Hin; tauto.
Qed.

(** A spanning tree of a connected graph has one edge less than there are
    nodes. *)
Lemma spanning_tree_size (F : list (edge V)) :
  N <> [] -> spanning_tree G F -> length F + 1 = length N.
Proof.
  intros Hne (Hsub & Hforest & Hconn).
  pose proof (acyclic_components N F nodes_NoDup (edge_of_within F Hsub)
                (forest_acyclic F Hforest)) as Htight.
  rewrite (components_connected N F Hne Hconn) in Htight. exact Htight.
Qed.

Lemma T_spanning_tree : connected_graph G -> spanning_tree G (edges T).
Proof.
  intros [Hne Hconn]. split; [exact T_edges_of_G |]. split.
  - apply (tight_forest N); [apply nodes_NoDup | apply T_tight].
  - intros u v Hu Hv. apply T_connects. apply Hconn; assumption.
Qed.

(** No spanning tree has more edges above a threshold than the tree
    returned. *)
Lemma T_heavy_count (theta : V) (F : list (edge V)) :
  spanning_tree G F -> length (heavy theta F) <= length (heavy theta (edges T)).
Proof.
  intros (Hsub & Hforest & _).
  apply (forest_size N).
  - apply nodes_NoDup.
  - intros u v w Hin. apply filter_In in Hin. destruct Hin as [Hin _].
    apply (edge_of_within F Hsub u v w Hin).
  - apply acyclic_filter. apply forest_acyclic. exact Hforest.
  - intros u v w Hin. apply filter_In in Hin. destruct Hin as [Hin Hw]. simpl in Hw.
    apply (T_K_connected (heavy theta K) (heavy theta (edges T))
             (heavy_either theta K (edges T) K_edges_in_T)).
    apply Hsub in Hin. unfold edge_of in Hin. simpl in Hin.
    destruct Hin as [Hin | Hin].
    + apply (K_heavy theta u v w Hin Hw).
    + apply connected_sym. apply (K_heavy theta v u w Hin Hw).
Qed.

(** The tree returned: a spanning tree of the graph, of maximum weight. *)
Lemma maximum_spanning_tree_spec :
  connected_graph G ->
  nodes T = nodes G /\
  spanning_tree G (edges T) /\
  length (edges T) = length (nodes G) - 1 /\
  forall F, spanning_tree G F ->
    wleb (total_weight F) (total_weight (edges T)) = true.
Proof.
  intros Hconn. pose proof (T_spanning_tree Hconn) as HT.
  destruct Hconn as [Hne _].
  pose proof (spanning_tree_size (edges T) Hne HT) as Hsize.
  split; [exact T_nodes |]. split; [exact HT |]. split; [fold N; lia |].
  intros F HF.
  apply (total_weight_dominates (length N - 1)).
  - pose proof (spanning_tree_size F Hne HF). lia.
  - lia.
  - intros theta. apply T_heavy_count. exact HF.
Qed.

End MaximumSpanningTree.

(* ================================================================== *)
(** * The graph that get_mst builds *)
(* ================================================================== *)

Section MstGraph.

Context {V : Type}.

Variable W : matrix (npfloat V).
Variable N : nat.
Hypothesis W_square : has_shape N N W.

Let n := N - 1.

Lemma np_get2_entry (i j : nat) :
  i < n -> j < n -> np_get2 W (Z.of_nat i) (Z.of_nat j) = Ok (entry W i j).
Proof.
  intros Hi Hj. unfold entry.
  rewrite (np_get2_spec NegInf N N W (Z.of_nat i) (Z.of_nat j) W_square)
    by (unfold n in *; lia).
  rewrite !position_of_nat. reflexivity.
Qed.

Lemma mst_cell_step (i j : nat) (G : Graph V) :
  i < n -> j < n ->
  mst_cell W i G j
  = Ok (match entry W i j with Finite w => add_edge G i j w | NegInf => G end).
Proof.
  intros Hi Hj. unfold mst_cell. rewrite (np_get2_entry i j Hi Hj). simpl.
  destruct (entry W i j); reflexivity.
Qed.

Lemma visible_next_cell (i j a b : nat) :
  j < n ->
  visible W n i (S j) a b
  = if (a =? i) && (b =? j) then finite (entry W i j) else visible W n i j a b.
Proof.
  intros Hj. unfold visible, processed.
  destruct (Nat.ltb_spec a i), (Nat.ltb_spec b n), (Nat.eqb_spec a i),
    (Nat.ltb_spec b (S j)), (Nat.ltb_spec b j), (Nat.eqb_spec b j);
    simpl; subst; try reflexivity; lia.
Qed.

Lemma visible_next_row (i a b : nat) :
  visible W n i n a b = visible W n (S i) 0 a b.
Proof.
  unfold visible, processed.
  destruct (Nat.ltb_spec a i), (Nat.ltb_spec b n), (Nat.eqb_spec a i),
    (Nat.ltb_spec a (S i)), (Nat.eqb_spec a (S i));
    simpl; subst; try reflexivity; lia.
Qed.

Lemma visible_self (i j : nat) : visible W n i j i j = None.
Proof.
  unfold visible, processed. rewrite !Nat.ltb_irrefl, andb_false_r. reflexivity.
Qed.

Lemma visible_below (i j : nat) : i < j -> visible W n i j j i = None.
Proof.
  intros Hij. unfold visible, processed.
  destruct (Nat.ltb_spec j i), (Nat.eqb_spec j i); simpl; try reflexivity; lia.
Qed.

Lemma last_written_next_cell (i j u v : nat) :
  j < n ->
  last_written W n i (S j) u v
  = if same_pair i j u v
    then match finite (entry W i j) with
         | Some w => Some w
         | None => last_written W n i j u v
         end
    else last_written W n i j u v.
Proof.
  intros Hj. unfold last_written, same_pair.
  rewrite !visible_next_cell by exact Hj.
  destruct (Nat.le_ge_cases u v) as [Huv | Huv].
  - rewrite (Nat.max_r u v Huv), (Nat.min_l u v Huv).
    destruct (Nat.eqb_spec v i), (Nat.eqb_spec u j), (Nat.eqb_spec u i),
      (Nat.eqb_spec v j), (Nat.eqb_spec i u), (Nat.eqb_spec j v),
      (Nat.eqb_spec i v), (Nat.eqb_spec j u);
      simpl; subst; try congruence;
      rewrite ?visible_self; try (rewrite visible_below by lia); try reflexivity;
      try (destruct (finite (entry W _ _)); reflexivity).
  - rewrite (Nat.max_l u v Huv), (Nat.min_r u v Huv).
    destruct (Nat.eqb_spec v i), (Nat.eqb_spec u j), (Nat.eqb_spec u i),
      (Nat.eqb_spec v j), (Nat.eqb_spec i u), (Nat.eqb_spec j v),
      (Nat.eqb_spec i v), (Nat.eqb_spec j u);
      simpl; subst; try congruence;
      rewrite ?visible_self; try (rewrite visible_below by lia); try reflexivity;
      try (destruct (finite (entry W _ _)); reflexivity).
Qed.

Lemma last_written_next_row (i u v : nat) :
  last_written W n i n u v = last_written W n (S i) 0 u v.
Proof. unfold last_written. rewrite !visible_next_row. reflexivity. Qed.

Lemma visible_start (a b : nat) : visible W n 0 0 a b = None.
Proof.
  unfold visible, processed. replace (b <? 0) with false by reflexivity.
  rewrite andb_false_r. reflexivity.
Qed.

Lemma last_written_start (u v : nat) : last_written W n 0 0 u v = None.
Proof. unfold last_written. rewrite !visible_start. reflexivity. Qed.

Lemma last_written_end (u v : nat) :
  length W = N -> last_written W n n 0 u v = graph_weight W u v.
Proof.
  intros Hlen. unfold last_written, graph_weight, visible, processed, n_rows.
  rewrite Hlen. fold n.
  destruct (Nat.le_ge_cases u v) as [Huv | Huv].
  - rewrite (Nat.max_r u v Huv), (Nat.min_l u v Huv).
    destruct (Nat.ltb_spec u n), (Nat.ltb_spec v n), (Nat.eqb_spec u n),
      (Nat.eqb_spec v n); simpl; try reflexivity; lia.
  - rewrite (Nat.max_l u v Huv), (Nat.min_r u v Huv).
    destruct (Nat.ltb_spec u n), (Nat.ltb_spec v n), (Nat.eqb_spec u n),
      (Nat.eqb_spec v n); simpl; try reflexivity; lia.
Qed.

Lemma same_pair_refl (a b : nat) : same_pair a b a b = true.
Proof. unfold same_pair. rewrite !Nat.eqb_refl. reflexivity. Qed.

Lemma same_pair_swap (a b : nat) : same_pair a b b a = true.
Proof. unfold same_pair. rewrite !Nat.eqb_refl. apply orb_true_r. Qed.

Lemma mst_invariant_cell (i j : nat) (G : Graph V) :
  i < n -> j < n -> mst_invariant W n i j G ->
  exists G', mst_cell W i G j = Ok G' /\ mst_invariant W n i (S j) G'.
Proof.
  intros Hi Hj (Hwf & Hnodes & Hweights). rewrite (mst_cell_step i j G Hi Hj).
  eexists. split; [reflexivity |].
  destruct (entry W i j) as [| w] eqn:Hentry.
  - split; [exact Hwf |]. split; [exact Hnodes |].
    intros u v. rewrite last_written_next_cell by exact Hj. rewrite Hentry. simpl.
    rewrite Hweights. destruct (same_pair i j u v); reflexivity.
  - split; [apply wf_add_edge; exact Hwf |]. split.
    + intros u Hu. apply In_nodes_add_edge in Hu.
      destruct Hu as [-> | [-> | Hu]].
      * split; [exact Hi |]. exists j, w.
        rewrite edge_weight_add_edge, same_pair_refl. reflexivity.
      * split; [exact Hj |]. exists i, w.
        rewrite edge_weight_add_edge, same_pair_swap. reflexivity.
      * destruct (Hnodes u Hu) as (Hlt & v & x & Hx). split; [exact Hlt |].
        exists v. rewrite edge_weight_add_edge.
        destruct (same_pair i j u v); eauto.
    + intros u v. rewrite last_written_next_cell by exact Hj. rewrite Hentry. simpl.
      rewrite edge_weight_add_edge, Hweights. reflexivity.
Qed.

Lemma mst_invariant_columns (i : nat) (Hi : i < n) :
  forall k j G, j + k <= n -> mst_invariant W n i j G ->
  exists G', for_each (mst_cell W i) (seq j k) G = Ok G' /\
             mst_invariant W n i (j + k) G'.
Proof.
  induction k as [| k IH]; intros j G Hjk Hinv.
  - exists G. rewrite Nat.add_0_r. split; [reflexivity | exact Hinv].
  - destruct (mst_invariant_cell i j G Hi ltac:(lia) Hinv) as (G1 & Hcell & Hinv1).
    destruct (IH (S j) G1 ltac:(lia) Hinv1) as (G' & Hloop & Hinv').
    exists G'. split; [simpl; rewrite Hcell; exact Hloop |].
    replace (j + S k) with (S j + k) by lia. exact Hinv'.
Qed.

Lemma mst_invariant_next_row (i : nat) (G : Graph V) :
  mst_invariant W n i n G -> mst_invariant W n (S i) 0 G.
Proof.
  intros (Hwf & Hnodes & Hweights). split; [exact Hwf |]. split; [exact Hnodes |].
  intros u v. rewrite <- last_written_next_row. apply Hweights.
Qed.

Lemma mst_invariant_rows :
  forall k i G, i + k <= n -> mst_invariant W n i 0 G ->
  exists G', for_each (mst_row W n) (seq i k) G = Ok G' /\
             mst_invariant W n (i + k) 0 G'.
Proof.
  induction k as [| k IH]; intros i G Hik Hinv.
  - exists G. rewrite Nat.add_0_r. split; [reflexivity | exact Hinv].
  - destruct (mst_invariant_columns i ltac:(lia) n 0 G ltac:(lia) Hinv)
      as (G1 & Hrow & Hinv1).
    apply mst_invariant_next_row in Hinv1.
    destruct (IH (S i) G1 ltac:(lia) Hinv1) as (G' & Hloop & Hinv').
    exists G'. split; [simpl; unfold mst_row at 1; rewrite Hrow; exact Hloop |].
    replace (i + S k) with (S i + k) by lia. exact Hinv'.
Qed.

Lemma mst_invariant_start : mst_invariant W n 0 0 empty_graph.
Proof.
  split; [apply wf_empty_graph |]. split; [intros u [] |].
  intros u v. rewrite last_written_start. reflexivity.
Qed.

(** The graph built from a square matrix. *)
Lemma mst_graph_square :
  exists G, mst_graph W = Ok G /\ mst_invariant W n n 0 G.
Proof.
  destruct (mst_invariant_rows n 0 empty_graph ltac:(lia) mst_invariant_start)
    as (G & Hloop & Hinv).
  exists G. split; [| exact Hinv].
  unfold mst_graph, n_rows. destruct W_square as [-> _]. exact Hloop.
Qed.

End MstGraph.

Lemma mst_cell_wf {V : Type} (W : matrix (npfloat V)) (i j : nat) (G G' : Graph V) :
  wf_graph G -> mst_cell W i G j = Ok G' -> wf_graph G'.
Proof.
  intros HG. unfold mst_cell.
  destruct (np_get2 W (Z.of_nat i) (Z.of_nat j)) as [[| w] | e]; simpl;
    try discriminate; intros [= <-]; [exact HG | apply wf_add_edge; exact HG].
Qed.

(** Whatever the matrix, the graph built is well formed. *)
Lemma mst_graph_wf {V : Type} (W : matrix (npfloat V)) (G : Graph V) :
  mst_graph W = Ok G -> wf_graph G.
Proof.
  unfold mst_graph.
  apply (for_each_preserves wf_graph); [| apply wf_empty_graph].
  intros G1 i G2 HG1. unfold mst_row.
  apply (for_each_preserves wf_graph); [| exact HG1].
  intros G3 j G4. apply mst_cell_wf.
Qed.

(** C4, the counterexample: on a symmetric 3x3 matrix of finite weights the
    graph has, besides the edge between 0 and 1, the self-loops (0, 0) and
    (1, 1), edges of pairs (i, j) with i = j. *)
Lemma get_mst_graph_has_self_loops :
  exists G,
    mst_graph [[Finite 1; Finite 5; Finite 2];
               [Finite 5; Finite 1; Finite 7];
               [Finite 2; Finite 7; Finite 1]]%R = Ok G /\
    edges G = [(0, 0, 1%R); (0, 1, 5%R); (1, 1, 1%R)].
Proof. eexists. split; reflexivity. Qed.

(** C4, as amended.  For an N x N weight matrix W the graph that [get_mst]
    hands to the spanning-tree algorithm has its nodes among the indices
    0..N-2, a node being an index that has an edge; it has one edge for each
    pair {u, v} of such indices, u = v included, for which W[u, v] or W[v, u]
    is not the sentinel, and no other; the weight of the edge is the entry
    passed to [add_edge] last, the one in the lower triangle unless that is
    the sentinel.  For a symmetric W this is W[u, v]. *)
Theorem get_mst_graph_edges {V : Type} (W : matrix (npfloat V)) (N : nat) :
  has_shape N N W ->
  exists G,
    mst_graph W = Ok G /\
    (forall u, In u (nodes G) <-> exists v w, edge_of G (u, v, w)) /\
    (forall u, In u (nodes G) -> u < N - 1) /\
    (forall u v w, edge_of G (u, v, w) <-> graph_weight W u v = Some w) /\
    NoDup (map endpoints (edges G)) /\
    ((forall a b, entry W a b = entry W b a) ->
     forall u v w, edge_of G (u, v, w) <->
                   u < N - 1 /\ v < N - 1 /\ entry W u v = Finite w).
Proof.
  intros HW. destruct (mst_graph_square W N HW) as (G & HG & Hwf & Hnodes & Hweights).
  assert (Hedge : forall u v w, edge_of G (u, v, w) <-> graph_weight W u v = Some w).
  { intros u v w. rewrite (edge_of_edge_weight G u v w Hwf), Hweights.
    rewrite (last_written_end W N u v (proj1 HW)). reflexivity. }
  exists G. split; [exact HG |]. split; [| split; [| split; [| split]]].
  - intros u. split.
    + intros Hu. destruct (Hnodes u Hu) as (_ & v & w & Hw).
      exists v, w. apply edge_of_edge_weight; assumption.
    + intros (v & w & Hw). apply (edge_of_edge_weight G u v w Hwf) in Hw.
      apply (edge_weight_nodes G u v w Hwf Hw).
  - intros u Hu. apply Hnodes. exact Hu.
  - exact Hedge.
  - apply NoDup_edges. exact Hwf.
  - intros Hsym u v w. rewrite Hedge. unfold graph_weight, n_rows.
    rewrite (proj1 HW).
    rewrite (Hsym (Nat.max u v) (Nat.min u v)).
    assert (Hmm : entry W (Nat.min u v) (Nat.max u v) = entry W u v).
    { destruct (Nat.le_ge_cases u v) as [Huv | Huv].
      - rewrite (Nat.max_r u v Huv), (Nat.min_l u v Huv). reflexivity.
      - rewrite (Nat.max_l u v Huv), (Nat.min_r u v Huv). apply Hsym. }
    rewrite Hmm.
    destruct (Nat.ltb_spec u (N - 1)), (Nat.ltb_spec v (N - 1)); simpl;
      try (split; [discriminate | lia]).
    destruct (entry W u v) as [| x]; simpl.
    + split; [discriminate | intros (_ & _ & Hx); discriminate].
    + split; [intros [= ->]; auto | intros (_ & _ & [= ->]); reflexivity].
Qed.

Lemma get_mst_graph_edges_witness :
  exists G,
    mst_graph [[Finite 1; NegInf; Finite 2];
               [Finite 5; Finite 1; Finite 7];
               [Finite 2; Finite 7; Finite 1]]%Z = Ok G /\
    forall u v w, edge_of G (u, v, w) <->
      graph_weight [[Finite 1; NegInf; Finite 2];
                    [Finite 5; Finite 1; Finite 7];
                    [Finite 2; Finite 7; Finite 1]]%Z u v = Some w.
Proof.
  destruct (get_mst_graph_edges
              [[Finite 1; NegInf; Finite 2];
               [Finite 5; Finite 1; Finite 7];
               [Finite 2; Finite 7; Finite 1]]%Z 3)
    as (G & HG & _ & _ & Hedges & _).
  - split; [reflexivity | repeat constructor].
  - exists G. split; [exact HG | exact Hedges].
Defined.

(* ================================================================== *)
(** * generate_unweighted_adj_matrix on a tree with edges *)
(* ================================================================== *)

Lemma np_get_middle {A B : Type} (f : A -> B) (pre : list A) (x : A) (rest : list A) :
  np_get (map f (pre ++ x :: rest)) (Z.of_nat (length pre)) = Ok (f x).
Proof.
  rewrite (np_get_of_nat _ (f x)).
  - rewrite map_app. rewrite app_nth2 by (rewrite length_map; lia).
    rewrite length_map, Nat.sub_diag. reflexivity.
  - rewrite length_map, length_app. simpl. lia.
Qed.

(** The loop over the columns of the array of edges is the loop over the
    edges. *)
Lemma mark_edge_loop (pairs : list (nat * nat)) :
  forall (pre : list (nat * nat)) (adj_matrix : matrix Z),
    for_each (mark_edge [map (fun p => Z.of_nat (fst p)) (pre ++ pairs);
                         map (fun p => Z.of_nat (snd p)) (pre ++ pairs)])
             (seq (length pre) (length pairs)) adj_matrix
    = for_each mark_pair pairs adj_matrix.
Proof.
  induction pairs as [| p pairs IH]; intros pre adj_matrix; [reflexivity |].
  cbn [length seq for_each].
  assert (Hstep : mark_edge [map (fun p => Z.of_nat (fst p)) (pre ++ p :: pairs);
                             map (fun p => Z.of_nat (snd p)) (pre ++ p :: pairs)]
                            adj_matrix (length pre)
                  = mark_pair adj_matrix p).
  { unfold mark_edge, mark_pair, np_get2.
    change (np_get [?r0; ?r1] 0) with (Ok r0).
    change (np_get [?r0; ?r1] 1) with (Ok r1).
    cbn [bind]. rewrite !np_get_middle. reflexivity. }
  rewrite Hstep. destruct (mark_pair adj_matrix p) as [adj1 | e]; [| reflexivity].
  cbn [bind].
  replace (pre ++ p :: pairs) with ((pre ++ [p]) ++ pairs)
    by (rewrite <- app_assoc; reflexivity).
  replace (S (length pre)) with (length (pre ++ [p]))
    by (rewrite length_app; simpl; lia).
  apply IH.
Qed.

Lemma generate_unweighted_adj_matrix_loop {V : Type} (mst : Graph V) (num_nodes : nat) :
  edge_pairs mst <> [] ->
  generate_unweighted_adj_matrix mst num_nodes
  = for_each mark_pair (edge_pairs mst) (np_zeros 0%Z num_nodes num_nodes).
Proof.
  intros Hne. unfold generate_unweighted_adj_matrix.
  destruct (edge_pairs mst) as [| p pairs] eqn:Hpairs; [congruence |].
  cbn [edge_array tuple_get nth_error bind].
  apply (mark_edge_loop (p :: pairs) []).
Qed.

Lemma nonzeros_set (row : list Z) (b : nat) :
  b < length row -> nth b row 0%Z = 0%Z ->
  nonzeros (list_set row b 1%Z) = nonzeros row + 1.
Proof.
  revert b. unfold nonzeros. induction row as [| x row IH]; intros [| b] Hb Hx;
    simpl in *; try lia.
  - subst x. simpl. lia.
  - destruct (negb (x =? 0)%Z); simpl; rewrite IH by (assumption || lia); reflexivity.
Qed.

Lemma count_nonzero_set (M : matrix Z) (a : nat) (row : list Z) :
  a < length M -> nonzeros row = nonzeros (nth a M []) + 1 ->
  count_nonzero (list_set M a row) = count_nonzero M + 1.
Proof.
  revert a. unfold count_nonzero. induction M as [| r M IH]; intros [| a] Ha Hrow;
    simpl in *; try lia.
  rewrite IH by (assumption || lia). lia.
Qed.

Lemma np_set2_count (n : nat) (M : matrix Z) (a b : nat) :
  has_shape n n M -> a < n -> b < n -> mget 0%Z M a b = 0%Z ->
  exists M',
    np_set2 M (Z.of_nat a) (Z.of_nat b) 1%Z = Ok M' /\ has_shape n n M' /\
    (forall x y, x < n -> y < n ->
       mget 0%Z M' x y = if (x =? a) && (y =? b) then 1%Z else mget 0%Z M x y) /\
    count_nonzero M' = count_nonzero M + 1.
Proof.
  intros HM Ha Hb Hzero.
  destruct (np_set2_spec 0%Z n n M (Z.of_nat a) (Z.of_nat b) 1%Z HM
              (of_nat_in_range n a Ha) (of_nat_in_range n b Hb))
    as (M' & Hset & HM' & Hget).
  rewrite !position_of_nat in Hget.
  exists M'. split; [exact Hset |]. split; [exact HM' |]. split; [exact Hget |].
  unfold np_set2 in Hset. destruct HM as [Hlen Hrows].
  rewrite Hlen in Hset. rewrite np_index_in_range in Hset by lia. cbn [bind] in Hset.
  rewrite Nat2Z.id in Hset.
  destruct (nth_error M a) as [row |] eqn:Hrow; [| discriminate].
  assert (Hlrow : length row = n).
  { rewrite Forall_forall in Hrows. apply Hrows. eapply nth_error_In. exact Hrow. }
  rewrite Hlrow in Hset. rewrite np_index_in_range in Hset by lia. cbn [bind] in Hset.
  rewrite Nat2Z.id in Hset. injection Hset as <-.
  pose proof (nth_error_nth _ _ [] Hrow) as Hnth.
  apply count_nonzero_set; [lia |]. rewrite Hnth.
  apply nonzeros_set; [lia |]. unfold mget in Hzero. rewrite Hnth in Hzero. exact Hzero.
Qed.

Lemma joined_cons (p : nat * nat) (pairs : list (nat * nat)) (a b : nat) :
  joined (p :: pairs) a b = same_pair (fst p) (snd p) a b || joined pairs a b.
Proof. reflexivity. Qed.

Lemma joined_sym (pairs : list (nat * nat)) (a b : nat) :
  joined pairs a b = joined pairs b a.
Proof.
  induction pairs as [| p pairs IH]; [reflexivity |].
  rewrite !joined_cons, IH, (same_pair_sym (fst p) (snd p) a b). reflexivity.
Qed.

Lemma same_pair_ends (p q : nat * nat) :
  same_pair (fst p) (snd p) (fst q) (snd q) = true <-> pair_ends p = pair_ends q.
Proof.
  unfold same_pair, pair_ends.
  rewrite orb_true_iff, !andb_true_iff, !Nat.eqb_eq. split.
  - intros [[-> ->] | [-> ->]]; [reflexivity |].
    rewrite Nat.min_comm, Nat.max_comm. reflexivity.
  - intros [= Hmin Hmax]. lia.
Qed.

(** The loop over edges with distinct ends below [n], no two of them with
    the same ends, started where the cells of the edges hold 0. *)
Lemma mark_pairs_spec (n : nat) (pairs : list (nat * nat)) :
  forall adj_matrix,
    has_shape n n adj_matrix ->
    (forall p, In p pairs -> fst p <> snd p /\ fst p < n /\ snd p < n) ->
    NoDup (map pair_ends pairs) ->
    (forall a b, a < n -> b < n -> joined pairs a b = true ->
       mget 0%Z adj_matrix a b = 0%Z) ->
    exists adj',
      for_each mark_pair pairs adj_matrix = Ok adj' /\ has_shape n n adj' /\
      (forall a b, a < n -> b < n ->
         mget 0%Z adj' a b = if joined pairs a b then 1%Z else mget 0%Z adj_matrix a b) /\
      count_nonzero adj' = count_nonzero adj_matrix + 2 * length pairs.
Proof.
  induction pairs as [| [u v] pairs IH]; intros A HA Hpairs Hnd Hzero.
  - exists A. split; [reflexivity |]. split; [exact HA |]. split; [reflexivity |].
    simpl. lia.
  - destruct (Hpairs (u, v) (or_introl eq_refl)) as (Huv & Hu & Hv). simpl in Huv, Hu, Hv.
    inversion Hnd as [| ? ? Hnew Hnd']; subst.
    assert (Hother : forall a b, joined pairs a b = true -> same_pair u v a b = false).
    { intros a b Hab. destruct (same_pair u v a b) eqn:Hsame; [| reflexivity].
      exfalso. apply Hnew. unfold joined in Hab. apply existsb_exists in Hab.
      destruct Hab as (q & Hq & Hqab). apply in_map_iff. exists q. split; [| exact Hq].
      apply (same_pair_ends q (u, v)). simpl.
      unfold same_pair in *.
      rewrite orb_true_iff, !andb_true_iff, !Nat.eqb_eq in *. lia. }
    destruct (np_set2_count n A u v HA Hu Hv) as (A1 & Hset1 & HA1 & Hget1 & Hcount1).
    { apply Hzero; [exact Hu | exact Hv |]. rewrite joined_cons.
      unfold same_pair. simpl. rewrite !Nat.eqb_refl. reflexivity. }
    destruct (np_set2_count n A1 v u HA1 Hv Hu) as (A2 & Hset2 & HA2 & Hget2 & Hcount2).
    { rewrite Hget1 by assumption.
      destruct (Nat.eqb_spec v u) as [Hvu | Hvu]; [congruence |]. simpl.
      apply Hzero; [exact Hv | exact Hu |]. rewrite joined_cons.
      unfold same_pair. simpl. rewrite !Nat.eqb_refl, orb_true_r. reflexivity. }
    assert (Hget : forall a b, a < n -> b < n ->
              mget 0%Z A2 a b = if same_pair u v a b then 1%Z else mget 0%Z A a b).
    { intros a b Ha Hb. rewrite Hget2, Hget1 by assumption. unfold same_pair.
      rewrite (Nat.eqb_sym u a), (Nat.eqb_sym v b), (Nat.eqb_sym u b), (Nat.eqb_sym v a).
      rewrite (andb_comm (b =? u)).
      destruct ((a =? v) && (b =? u)), ((a =? u) && (b =? v)); reflexivity. }
    destruct (IH A2 HA2) as (A' & Hloop & HA' & Hget' & Hcount').
    + intros p Hp. apply Hpairs. right. exact Hp.
    + exact Hnd'.
    + intros a b Ha Hb Hab. rewrite Hget by assumption.
      rewrite (Hother a b Hab). apply Hzero; [exact Ha | exact Hb |].
      rewrite joined_cons, Hab. apply orb_true_r.
    + exists A'. split.
      * cbn [for_each]. unfold mark_pair at 1. cbn [fst snd].
        rewrite Hset1. cbn [bind]. rewrite Hset2. exact Hloop.
      * split; [exact HA' |]. split.
        -- intros a b Ha Hb. rewrite Hget' by assumption. rewrite joined_cons.
           cbn [fst snd]. rewrite Hget by assumption.
           destruct (joined pairs a b) eqn:Hab.
           ++ rewrite orb_true_r. reflexivity.
           ++ rewrite orb_false_r. reflexivity.
        -- rewrite Hcount', Hcount2, Hcount1. cbn [length]. lia.
Qed.

Lemma count_nonzero_zeros (n : nat) : count_nonzero (np_zeros 0%Z n n) = 0.
Proof.
  unfold count_nonzero, np_zeros.
  assert (Hrow : nonzeros (repeat 0%Z n) = 0).
  { unfold nonzeros. induction n as [| k IH]; simpl; [reflexivity | exact IH]. }
  generalize n at 2. intros m. induction m as [| m IH]; simpl; [reflexivity |].
  rewrite Hrow, IH. reflexivity.
Qed.

(** The adjacency matrix of a tree with at least one edge, whose edges have
    distinct ends below [num_nodes]: square, symmetric, of zeros and ones,
    with a one exactly where an edge joins the two indices, and with two
    non-zero entries for each edge. *)
Lemma generate_unweighted_adj_matrix_spec {V : Type} (mst : Graph V) (num_nodes : nat) :
  edge_pairs mst <> [] ->
  (forall p, In p (edge_pairs mst) ->
     fst p <> snd p /\ fst p < num_nodes /\ snd p < num_nodes) ->
  NoDup (map pair_ends (edge_pairs mst)) ->
  exists adj,
    generate_unweighted_adj_matrix mst num_nodes = Ok adj /\
    has_shape num_nodes num_nodes adj /\
    (forall a b, a < num_nodes -> b < num_nodes ->
       mget 0%Z adj a b = mget 0%Z adj b a /\
       (mget 0%Z adj a b = 0%Z \/ mget 0%Z adj a b = 1%Z) /\
       (mget 0%Z adj a b = 1%Z <->
        In (a, b) (edge_pairs mst) \/ In (b, a) (edge_pairs mst))) /\
    count_nonzero adj = 2 * length (edge_pairs mst).
Proof.
  intros Hne Hpairs Hnd. rewrite (generate_unweighted_adj_matrix_loop mst _ Hne).
  destruct (mark_pairs_spec num_nodes (edge_pairs mst) (np_zeros 0%Z num_nodes num_nodes))
    as (adj & Hloop & Hshape & Hget & Hcount).
  - apply np_zeros_shape.
  - exact Hpairs.
  - exact Hnd.
  - intros a b _ _ _. apply mget_np_zeros.
  - exists adj. split; [exact Hloop |]. split; [exact Hshape |]. split.
    + intros a b Ha Hb. rewrite !Hget by assumption. rewrite !mget_np_zeros.
      assert (Hjoined : joined (edge_pairs mst) a b = true <->
                        In (a, b) (edge_pairs mst) \/ In (b, a) (edge_pairs mst)).
      { unfold joined. rewrite existsb_exists. split.
        - intros ([u v] & Hin & Hsame). unfold same_pair in Hsame. simpl in Hsame.
          rewrite orb_true_iff, !andb_true_iff, !Nat.eqb_eq in Hsame.
          destruct Hsame as [[-> ->] | [-> ->]]; [left | right]; exact Hin.
        - intros [Hin | Hin].
          + exists (a, b). split; [exact Hin | apply same_pair_refl].
          + exists (b, a). split; [exact Hin | apply same_pair_swap]. }
      assert (Hsym : joined (edge_pairs mst) a b = joined (edge_pairs mst) b a).
      { apply joined_sym. }
      rewrite <- Hsym. split; [reflexivity |].
      destruct (joined (edge_pairs mst) a b); split; auto.
      * split; [intros _; apply Hjoined; reflexivity | reflexivity].
      * split; [discriminate |]. intros Hin. apply Hjoined in Hin. discriminate.
    + rewrite Hcount, count_nonzero_zeros. reflexivity.
Qed.

(* ================================================================== *)
(** * Weights that are integers or reals *)
(* ================================================================== *)

#[export] Instance WeightLaws_Z : WeightLaws Z.
Proof.
  split; simpl.
  - intros a b. destruct (Z.leb_spec a b); [left; reflexivity |].
    right. apply Z.leb_le. lia.
  - intros a b c Hab Hbc. apply Z.leb_le in Hab, Hbc. apply Z.leb_le. lia.
  - intros a b. apply Z.add_comm.
  - intros a b c. apply Z.add_assoc.
  - intros a b c Hab. apply Z.leb_le in Hab. apply Z.leb_le. lia.
Qed.

Lemma wleb_R_true (x y : R) : (x <= y)%R -> wleb x y = true.
Proof. intros Hxy. simpl. destruct (Rle_dec x y); [reflexivity | contradiction]. Qed.

Lemma wleb_R_false (x y : R) : (y < x)%R -> wleb x y = false.
Proof. intros Hxy. simpl. destruct (Rle_dec x y); [lra | reflexivity]. Qed.

Lemma wleb_R_le (x y : R) : wleb x y = true -> (x <= y)%R.
Proof. simpl. destruct (Rle_dec x y); [auto | discriminate]. Qed.

#[export] Instance WeightLaws_R : WeightLaws R.
Proof.
  split.
  - intros a b. destruct (Rle_lt_dec a b) as [Hab | Hab].
    + left. apply wleb_R_true. exact Hab.
    + right. apply wleb_R_true. lra.
  - intros a b c Hab Hbc. apply wleb_R_le in Hab, Hbc. apply wleb_R_true. lra.
  - intros a b. apply Rplus_comm.
  - intros a b c. simpl. ring.
  - intros a b c Hab. apply wleb_R_le in Hab. apply wleb_R_true. simpl. lra.
Qed.

(* ================================================================== *)
(** * get_mst returns a maximum spanning tree *)
(* ================================================================== *)

(** C2.  When the graph that [get_mst] builds from the weight matrix is
    connected, [get_mst] returns a tree on the nodes of that graph whose
    edges form a spanning tree of it, one edge less than there are nodes,
    and whose total weight is at least that of every spanning tree of the
    graph. *)
Theorem get_mst_maximum_spanning_tree {V : Type} `{WeightLaws V}
    (W : matrix (npfloat V)) (G : Graph V) :
  mst_graph W = Ok G ->
  connected_graph G ->
  exists T,
    get_mst W = Ok T /\
    nodes T = nodes G /\
    spanning_tree G (edges T) /\
    length (edges T) = length (nodes G) - 1 /\
    forall F, spanning_tree G F ->
      wleb (total_weight F) (total_weight (edges T)) = true.
Proof.
  intros HG Hconn. exists (maximum_spanning_tree G). split.
  - unfold get_mst. rewrite HG. reflexivity.
  - apply maximum_spanning_tree_spec; [| exact Hconn].
    eapply mst_graph_wf. exact HG.
Qed.

Lemma get_mst_maximum_spanning_tree_witness :
  exists T,
    get_mst example_weights = Ok T /\
    edges T = [(0, 1, 5%Z); (1, 2, 7%Z)] /\
    length (edges T) = length (nodes example_graph) - 1.
Proof.
  destruct (get_mst_maximum_spanning_tree example_weights example_graph)
    as (T & HT & _ & _ & Hlen & _).
  - reflexivity.
  - split; [discriminate |].
    intros u v Hu Hv. apply uf_of_equiv.
    simpl in Hu, Hv.
    destruct Hu as [<- | [<- | [<- | []]]], Hv as [<- | [<- | [<- | []]]];
      reflexivity.
  - exists T. split; [exact HT |]. split; [| exact Hlen].
    vm_compute in HT. injection HT as <-. reflexivity.
Defined.

(* ================================================================== *)
(** * generate_unweighted_adj_matrix and the sub-pipeline *)
(* ================================================================== *)

(** C9.  The sub-pipeline [get_mst] then [generate_unweighted_adj_matrix],
    as [generate_data] runs it, takes nothing from the random number
    generator and leaves it and standard output as they are: two runs on
    the same weight matrix and number of nodes, in whatever states, end
    alike, with the same adjacency matrix or with the same exception. *)
Theorem sub_pipeline_deterministic {V : Type} `{Weight V} (C : Collaborators)
    (W : matrix (npfloat V)) (num_nodes : nat) (w1 w2 : world C) :
  match sub_pipeline C W num_nodes w1, sub_pipeline C W num_nodes w2 with
  | Ok (adj1, w1'), Ok (adj2, w2') =>
      adj1 = adj2 /\ Ok adj1 = adjacency_of_weights W num_nodes /\ w1' = w1 /\ w2' = w2
  | Raise e1, Raise e2 => e1 = e2 /\ Raise e1 = adjacency_of_weights W num_nodes
  | _, _ => False
  end.
Proof.
  unfold sub_pipeline, adjacency_of_weights, bindM, lift, bind.
  destruct (get_mst W) as [mst | e]; [| split; reflexivity].
  destruct (generate_unweighted_adj_matrix mst num_nodes) as [adj | e];
    repeat split; reflexivity.
Qed.

(** C10.  A tree without edges makes [generate_unweighted_adj_matrix] fail
    with the IndexError of [edges.shape[1]]: the array of an empty list has
    shape (0,).  This is the case for the tree that [get_mst] returns for a
    weight matrix with a single row. *)
Theorem generate_unweighted_adj_matrix_no_edges {V : Type} `{Weight V}
    (mst : Graph V) (num_nodes : nat) :
  (edges mst = [] ->
   generate_unweighted_adj_matrix mst num_nodes = Raise tuple_index_error) /\
  (forall row : list (npfloat V),
     get_mst [row] = Ok empty_graph /\
     adjacency_of_weights [row] num_nodes = Raise tuple_index_error).
Proof.
  split.
  - intros Hedges. unfold generate_unweighted_adj_matrix, edge_pairs.
    rewrite Hedges. reflexivity.
  - intros row. split; reflexivity.
Qed.

Lemma generate_unweighted_adj_matrix_no_edges_witness :
  generate_unweighted_adj_matrix (add_node (@empty_graph Z) 0) 3
  = Raise tuple_index_error.
Proof.
  apply (generate_unweighted_adj_matrix_no_edges (add_node (@empty_graph Z) 0) 3).
  reflexivity.
Defined.

(** C5, at the input where the code fails: a weight matrix of two sequences
    gives a tree with the single node 0 and no edge, so that every edge of
    it has distinct endpoints below 2 and no pair occurs twice; the call for
    2 nodes ends with an IndexError and not with the 2 x 2 matrix of
    zeros. *)
Theorem generate_unweighted_adj_matrix_single_node :
  exists mst : Graph R,
    get_mst [[Finite 1; Finite 5]; [Finite 5; Finite 1]]%R = Ok mst /\
    nodes mst = [0] /\ edges mst = [] /\
    generate_unweighted_adj_matrix mst 2 = Raise tuple_index_error /\
    generate_unweighted_adj_matrix mst 2 <> Ok (np_zeros 0%Z 2 2).
Proof.
  eexists. split; [reflexivity |]. repeat split. discriminate.
Qed.

(** ** The sub-pipeline on a connected graph *)

Lemma forest_no_self_loop {V : Type} (F : list (edge V)) (u v : nat) (w : V) :
  forest F -> In (u, v, w) F -> u <> v.
Proof.
  intros Hforest Hin Huv. subst v. apply in_split in Hin.
  destruct Hin as (F1 & F2 & ->).
  apply (Hforest F1 u u w F2 eq_refl). apply connected_refl.
Qed.

Lemma pair_ends_endpoints {V : Type} (es : list (edge V)) :
  map pair_ends (map fst es) = map endpoints es.
Proof. rewrite map_map. reflexivity. Qed.

(** For a square weight matrix whose graph is connected and has two nodes at
    least, the sub-pipeline returns the adjacency matrix of the maximum
    spanning tree: symmetric, with a one exactly where a tree edge joins two
    indices, and with two non-zero entries for each of the (nodes - 1)
    edges. *)
Lemma adjacency_of_weights_spanning_tree {V : Type} `{WeightLaws V}
    (W : matrix (npfloat V)) (N num_nodes : nat) (G : Graph V) :
  has_shape N N W -> mst_graph W = Ok G -> connected_graph G ->
  2 <= length (nodes G) -> N - 1 <= num_nodes ->
  exists T adj,
    get_mst W = Ok T /\ spanning_tree G (edges T) /\
    adjacency_of_weights W num_nodes = Ok adj /\
    has_shape num_nodes num_nodes adj /\
    (forall a b, a < num_nodes -> b < num_nodes ->
       mget 0%Z adj a b = mget 0%Z adj b a /\
       (mget 0%Z adj a b = 0%Z \/ mget 0%Z adj a b = 1%Z) /\
       (mget 0%Z adj a b = 1%Z <->
        In (a, b) (edge_pairs T) \/ In (b, a) (edge_pairs T))) /\
    count_nonzero adj = 2 * (length (nodes G) - 1).
Proof.
  intros HW HG Hconn Hnodes Hnum.
  pose proof (mst_graph_wf W G HG) as Hwf.
  destruct (maximum_spanning_tree_spec G Hwf Hconn) as (HTnodes & Htree & Hlen & _).
  set (T := maximum_spanning_tree G) in *.
  assert (HT : get_mst W = Ok T) by (unfold get_mst; rewrite HG; reflexivity).
  assert (HTwf : wf_graph T) by apply T_wf.
  destruct (mst_graph_square W N HW) as (G' & HG' & _ & Hbound & _).
  rewrite HG in HG'. injection HG' as <-.
  destruct (generate_unweighted_adj_matrix_spec T num_nodes)
    as (adj & Hadj & Hshape & Hcells & Hcount).
  - unfold edge_pairs. destruct (edges T); [simpl in Hlen; lia | discriminate].
  - intros [u v] Hp. unfold edge_pairs in Hp. apply in_map_iff in Hp.
    destruct Hp as ([[u' v'] w] & [= -> ->] & Hin). simpl.
    destruct Htree as (Hsub & Hforest & _).
    split; [eapply forest_no_self_loop; eassumption |].
    pose proof (edge_of_within G Hwf (edges T) Hsub u v w Hin) as [Hu Hv].
    apply Hbound in Hu, Hv. lia.
  - unfold edge_pairs. rewrite pair_ends_endpoints. apply NoDup_edges. exact HTwf.
  - exists T, adj. split; [exact HT |]. split; [exact Htree |]. split.
    + unfold adjacency_of_weights. rewrite HT. exact Hadj.
    + split; [exact Hshape |]. split; [exact Hcells |].
      rewrite Hcount. unfold edge_pairs. rewrite length_map. f_equal. exact Hlen.
Qed.

(* ================================================================== *)
(** * generate_data *)
(* ================================================================== *)

(** The adjacency that [generate_data] returns is derived from a second
    draw of sequences, the features it returns are those of the first. *)
Lemma generate_data_second_draw (C : Collaborators) (n_leaves : nat) (alpha : R)
    (w0 w1 w2 : world C) (features1 features2 : matrix Z) (adjacency : csr) :
  generate_node_features C n_leaves alpha w0 = Ok (features1, w1) ->
  generate_node_features C n_leaves alpha w1 = Ok (features2, w2) ->
  adjacency_from_features C features2 n_leaves alpha = Ok adjacency ->
  exists w3, generate_data C n_leaves alpha w0 = Ok ((adjacency, features1), w3).
Proof.
  intros H1 H2 Hadj. unfold adjacency_from_features in Hadj.
  apply bind_ok_inv in Hadj. destruct Hadj as (W & HW & Hadj).
  apply bind_ok_inv in Hadj. destruct Hadj as (adj_matrix & Hsub & Hcsr).
  injection Hcsr as <-.
  unfold adjacency_of_weights in Hsub.
  apply bind_ok_inv in Hsub. destruct Hsub as (mst & Hmst & Hmat).
  unfold generate_data, generate_weighted_adj_matrix, bindM.
  rewrite H1, H2. unfold lift at 1. rewrite HW.
  unfold ret at 1. unfold lift at 1. rewrite Hmst. unfold lift at 1. rewrite Hmat.
  destruct (negb (n_rows features1 =? n_rows adj_matrix)),
    (negb (n_rows adj_matrix =? n_cols adj_matrix));
    eexists; reflexivity.
Qed.

(** ** An example *)

Ltac decide_wleb :=
  repeat match goal with
         | |- context [@wleb R Weight_R ?x ?y] =>
             first [ rewrite (wleb_R_true x y) by lra
                   | rewrite (wleb_R_false x y) by lra ]
         end.

Lemma get_mst_weights_01 (a b c : R) :
  (b < a)%R -> (a < c)%R ->
  get_mst (as_weights (weights_01 a b c)) = Ok (tree_01 a b).
Proof.
  intros Hba Hac. unfold get_mst.
  replace (mst_graph (as_weights (weights_01 a b c)))
    with (Ok [(0, [(0, c); (1, a); (2, b)]);
              (1, [(0, a); (1, c); (2, b)]);
              (2, [(0, b); (1, b); (2, c)])]) by reflexivity.
  cbn [bind]. unfold maximum_spanning_tree, kruskal_mst_edges.
  replace (edges [(0, [(0, c); (1, a); (2, b)]);
                  (1, [(0, a); (1, c); (2, b)]);
                  (2, [(0, b); (1, b); (2, c)])])
    with [(0, 0, c); (0, 1, a); (0, 2, b); (1, 1, c); (1, 2, b); (2, 2, c)]
    by reflexivity.
  unfold sort_desc.
  repeat (cbn [fold_right insert_desc weight_of snd]; decide_wleb).
  reflexivity.
Qed.

Lemma get_mst_weights_12 (a b c : R) :
  (b < a)%R -> (a < c)%R ->
  get_mst (as_weights (weights_12 a b c)) = Ok (tree_12 a b).
Proof.
  intros Hba Hac. unfold get_mst.
  replace (mst_graph (as_weights (weights_12 a b c)))
    with (Ok [(0, [(0, c); (1, b); (2, b)]);
              (1, [(0, b); (1, c); (2, a)]);
              (2, [(0, b); (1, a); (2, c)])]) by reflexivity.
  cbn [bind]. unfold maximum_spanning_tree, kruskal_mst_edges.
  replace (edges [(0, [(0, c); (1, b); (2, b)]);
                  (1, [(0, b); (1, c); (2, a)]);
                  (2, [(0, b); (1, a); (2, c)])])
    with [(0, 0, c); (0, 1, b); (0, 2, b); (1, 1, c); (1, 2, a); (2, 2, c)]
    by reflexivity.
  unfold sort_desc.
  repeat (cbn [fold_right insert_desc weight_of snd]; decide_wleb).
  reflexivity.
Qed.

Lemma ten_sites_above (p : R) : (/ 16 <= p <= 1)%R -> (exp_underflow <= ten_sites p)%R.
Proof.
  intros [Hlow Hhigh].
  assert (Hln : (- (4 * ln 2) <= ln p)%R).
  { replace (- (4 * ln 2))%R with (ln (/ 2 ^ 4)).
    - destruct Hlow as [Hlt | Heq].
      + left. apply ln_increasing; [lra | simpl; lra].
      + right. f_equal. simpl. lra.
    - rewrite ln_Rinv by (apply pow_lt; lra). rewrite ln_pow by lra.
      simpl. lra. }
  pose proof ln_lt_2. unfold exp_underflow, ten_sites. lra.
Qed.

Lemma ten_sites_order :
  (exp_float (ten_sites (1 / 10)) < exp_float (ten_sites (7 / 10)) /\
   exp_float (ten_sites (7 / 10)) < exp_float 0)%R.
Proof.
  rewrite !exp_float_above
    by (try apply ten_sites_above; pose proof exp_underflow_neg; lra).
  assert (H1 : (ln (1 / 10) < ln (7 / 10))%R) by (apply ln_increasing; lra).
  assert (H2 : (ln (7 / 10) < 0)%R).
  { rewrite <- ln_1. apply ln_increasing; lra. }
  split; apply exp_increasing; unfold ten_sites; lra.
Qed.

Lemma example_first_draw :
  generate_node_features example_collaborators 4 (1 / 10) example_world
  = Ok (first_features, @Build_world example_collaborators 1 []).
Proof. reflexivity. Qed.

Lemma example_later_draw :
  generate_node_features example_collaborators 4 (1 / 10)
    (@Build_world example_collaborators 1 [])
  = Ok (later_features, @Build_world example_collaborators 2 []).
Proof. reflexivity. Qed.

Lemma example_first_adjacency :
  adjacency_from_features example_collaborators first_features 4 (1 / 10)
  = Ok (csr_matrix adjacency_01).
Proof.
  unfold adjacency_from_features.
  replace (build_weighted_adjacency_matrix first_features
             (JukesCantor example_collaborators (1 / 10)))
    with (Ok (weights_01 (exp_float (ten_sites (7 / 10))) (exp_float (ten_sites (1 / 10)))
                     (exp_float 0)))
    by reflexivity.
  cbn [bind]. unfold adjacency_of_weights.
  destruct ten_sites_order as [Hba Hac].
  rewrite (get_mst_weights_01 _ _ _ Hba Hac). reflexivity.
Qed.

Lemma example_later_adjacency :
  adjacency_from_features example_collaborators later_features 4 (1 / 10)
  = Ok (csr_matrix adjacency_12).
Proof.
  unfold adjacency_from_features.
  replace (build_weighted_adjacency_matrix later_features
             (JukesCantor example_collaborators (1 / 10)))
    with (Ok (weights_12 (exp_float (ten_sites (7 / 10))) (exp_float (ten_sites (1 / 10)))
                     (exp_float 0)))
    by reflexivity.
  cbn [bind]. unfold adjacency_of_weights.
  destruct ten_sites_order as [Hba Hac].
  rewrite (get_mst_weights_12 _ _ _ Hba Hac). reflexivity.
Qed.

(** C1, at an input where the code fails: with a generator whose first draw
    has equal sequences at 0 and 1 and whose second draw has them at 1 and
    2, [generate_data] for four leaves returns the features of the first
    draw with the adjacency of the second (nodes 0-1 and 1-2 joined); the
    adjacency derived from the features it returns joins 0-1 and 0-2. *)
Theorem generate_data_adjacency_not_of_features :
  exists w,
    generate_data example_collaborators 4 (1 / 10) example_world
    = Ok ((csr_matrix adjacency_12, first_features), w) /\
    adjacency_from_features example_collaborators first_features 4 (1 / 10)
    = Ok (csr_matrix adjacency_01) /\
    csr_matrix adjacency_01 <> csr_matrix adjacency_12.
Proof.
  destruct (generate_data_second_draw example_collaborators 4 (1 / 10)
              example_world _ _ _ _ _
              example_first_draw example_later_draw example_later_adjacency)
    as (w & Hrun).
  exists w. split; [exact Hrun |]. split; [exact example_first_adjacency |].
  discriminate.
Qed.

(* ================================================================== *)
(** * one_hot and generate_node_features *)
(* ================================================================== *)

Lemma bases_lt_4 (c : ascii) (b : nat) : bases c = Some b -> b < 4.
Proof.
  unfold bases.
  destruct (Ascii.eqb c "A"); [intros [= <-]; lia |].
  destruct (Ascii.eqb c "C"); [intros [= <-]; lia |].
  destruct (Ascii.eqb c "G"); [intros [= <-]; lia |].
  destruct (Ascii.eqb c "T"); [intros [= <-]; lia | discriminate].
Qed.

Lemma one_hot_site_length (nucleotide : option ascii) :
  length (one_hot_site nucleotide) = 4.
Proof.
  unfold one_hot_site. destruct nucleotide as [c |]; [| reflexivity].
  destruct (bases c); [| reflexivity]. apply length_list_set.
Qed.

(** The vector of a site: a single 1, at the code of the nucleotide, when
    the nucleotide is a key of [bases]; zeros only otherwise. *)
Lemma one_hot_site_entries (nucleotide : option ascii) (k : nat) :
  k < 4 ->
  nth k (one_hot_site nucleotide) 0%Z
  = match nucleotide with
    | Some c =>
        match bases c with
        | Some b => if k =? b then 1%Z else 0%Z
        | None => 0%Z
        end
    | None => 0%Z
    end.
Proof.
  intros Hk. unfold one_hot_site.
  assert (Hzero : nth k (repeat 0%Z 4) 0%Z = 0%Z) by apply nth_repeat.
  destruct nucleotide as [c |]; [| exact Hzero].
  destruct (bases c) as [b |] eqn:Hb; [| exact Hzero].
  pose proof (bases_lt_4 c b Hb) as Hlt.
  rewrite nth_list_set by (rewrite repeat_length; exact Hlt).
  destruct (k =? b); [reflexivity | exact Hzero].
Qed.

Lemma argmax_one_hot_site (nucleotide : option ascii) :
  argmax (one_hot_site nucleotide) = site_code nucleotide.
Proof.
  unfold one_hot_site, site_code. destruct nucleotide as [c |]; [| reflexivity].
  destruct (bases c) as [b |] eqn:Hb; [| reflexivity].
  pose proof (bases_lt_4 c b Hb) as Hlt.
  destruct b as [| [| [| [| b]]]]; try lia; reflexivity.
Qed.

Lemma site_code_valid (nucleotide : option ascii) : valid_symbol (site_code nucleotide).
Proof.
  unfold site_code, valid_symbol. destruct nucleotide as [c |]; [| lia].
  destruct (bases c) as [b |] eqn:Hb; [| lia].
  pose proof (bases_lt_4 c b Hb). lia.
Qed.

Lemma one_hot_nonempty (sequences : list string) :
  sequences <> [] ->
  one_hot sequences
  = Ok (map (fun sequence =>
               map (fun j => one_hot_site (String.get j sequence))
                   (seq 0 (max_length sequences))) sequences).
Proof. destruct sequences; [congruence | reflexivity]. Qed.

(** X1.  [one_hot] raises the ValueError of [max] exactly on an empty list
    of sequences.  On any other list it returns an array of shape
    (number of sequences, length of the longest, 4) in which the vector of
    a site has a single 1, at [bases[nucleotide]], when the nucleotide is a
    key of [bases], and is all zero for any other nucleotide and past the
    end of a shorter sequence. *)
Theorem one_hot_encoding (sequences : list string) :
  (one_hot sequences = Raise max_empty <-> sequences = []) /\
  (sequences <> [] ->
   exists encoded,
     one_hot sequences = Ok encoded /\
     length encoded = length sequences /\
     Forall (has_shape (max_length sequences) 4) encoded /\
     forall i j k,
       i < length sequences -> j < max_length sequences -> k < 4 ->
       nth k (nth j (nth i encoded []) []) 0%Z
       = match String.get j (nth i sequences EmptyString) with
         | Some c =>
             match bases c with
             | Some b => if k =? b then 1%Z else 0%Z
             | None => 0%Z
             end
         | None => 0%Z
         end).
Proof.
  split.
  - destruct sequences; simpl; split; congruence.
  - intros Hne. eexists. split; [apply one_hot_nonempty; exact Hne |].
    split; [apply length_map |]. split.
    + apply Forall_map. apply Forall_forall. intros s _. split.
      * rewrite length_map, length_seq. reflexivity.
      * apply Forall_map. apply Forall_forall. intros j _. apply one_hot_site_length.
    + intros i j k Hi Hj Hk.
      rewrite nth_indep with (d' := (fun sequence =>
                   map (fun j => one_hot_site (String.get j sequence))
                       (seq 0 (max_length sequences))) EmptyString)
        by (rewrite length_map; exact Hi).
      rewrite (map_nth (fun sequence =>
                   map (fun j => one_hot_site (String.get j sequence))
                       (seq 0 (max_length sequences))) sequences EmptyString i).
      rewrite nth_indep with
        (d' := (fun j => one_hot_site (String.get j (nth i sequences EmptyString))) 0)
        by (rewrite length_map, length_seq; exact Hj).
      rewrite (map_nth (fun j => one_hot_site (String.get j (nth i sequences EmptyString)))
                 (seq 0 (max_length sequences)) 0 j).
      rewrite seq_nth by exact Hj. simpl plus.
      apply one_hot_site_entries. exact Hk.
Qed.

Lemma one_hot_encoding_witness :
  exists encoded,
    one_hot ["ACGT"; "AN"]%string = Ok encoded /\ length encoded = 2.
Proof.
  destruct (proj2 (one_hot_encoding ["ACGT"; "AN"]%string))
    as (encoded & Hrun & Hlen & _).
  - discriminate.
  - exists encoded. split; [exact Hrun | exact Hlen].
Defined.

Lemma argmax_one_hot (sequences : list string) (encoded : list (matrix Z)) :
  one_hot sequences = Ok encoded -> argmax_last_axis encoded = site_codes sequences.
Proof.
  unfold one_hot. destruct sequences as [| s0 rest] eqn:Hseqs; [discriminate |].
  rewrite <- Hseqs. intros [= <-]. unfold argmax_last_axis, site_codes, max_length.
  rewrite map_map. apply map_ext. intros s. rewrite map_map. apply map_ext.
  intros j. apply argmax_one_hot_site.
Qed.

Lemma site_codes_shape (sequences : list string) :
  has_shape (length sequences) (max_length sequences) (site_codes sequences).
Proof.
  unfold site_codes. split; [apply length_map |].
  apply Forall_map. apply Forall_forall. intros s _.
  rewrite length_map, length_seq. reflexivity.
Qed.

Lemma site_codes_valid (sequences : list string) :
  Forall (Forall valid_symbol) (site_codes sequences).
Proof.
  unfold site_codes. apply Forall_map. apply Forall_forall. intros s _.
  apply Forall_map. apply Forall_forall. intros j _. apply site_code_valid.
Qed.

Lemma mget_site_codes (sequences : list string) (i j : nat) :
  i < length sequences -> j < max_length sequences ->
  mget 0%Z (site_codes sequences) i j
  = site_code (String.get j (nth i sequences EmptyString)).
Proof.
  intros Hi Hj. unfold mget, site_codes.
  rewrite nth_indep with (d' := (fun sequence =>
               map (fun j => site_code (String.get j sequence))
                   (seq 0 (max_length sequences))) EmptyString)
    by (rewrite length_map; exact Hi).
  rewrite (map_nth (fun sequence =>
               map (fun j => site_code (String.get j sequence))
                   (seq 0 (max_length sequences))) sequences EmptyString i).
  rewrite nth_indep with
    (d' := (fun j => site_code (String.get j (nth i sequences EmptyString))) 0)
    by (rewrite length_map, length_seq; exact Hj).
  rewrite (map_nth (fun j => site_code (String.get j (nth i sequences EmptyString)))
             (seq 0 (max_length sequences)) 0 j).
  rewrite seq_nth by exact Hj. reflexivity.
Qed.

(** X2.  The reduction of the one-hot array to integer codes undoes the
    encoding: for a non-empty list of sequences the features form a
    (number of sequences) x (length of the longest) array of symbols 0..3
    whose entry at a site is [bases[nucleotide]] when the nucleotide is a key
    of [bases]; an unknown nucleotide and the padding of a shorter sequence
    both come out as 0, the code of A. *)
Theorem features_decode_one_hot (sequences : list string) :
  sequences <> [] ->
  exists encoded,
    one_hot sequences = Ok encoded /\
    let features := argmax_last_axis encoded in
    has_shape (length sequences) (max_length sequences) features /\
    Forall (Forall valid_symbol) features /\
    forall i j, i < length sequences -> j < max_length sequences ->
      mget 0%Z features i j
      = match String.get j (nth i sequences EmptyString) with
        | Some c =>
            match bases c with
            | Some b => Z.of_nat b
            | None => 0%Z
            end
        | None => 0%Z
        end.
Proof.
  intros Hne. pose proof (one_hot_nonempty sequences Hne) as Hrun.
  eexists. split; [exact Hrun |]. cbv zeta.
  rewrite (argmax_one_hot sequences _ Hrun).
  split; [apply site_codes_shape |]. split; [apply site_codes_valid |].
  intros i j Hi Hj. rewrite mget_site_codes by assumption. reflexivity.
Qed.

Lemma features_decode_one_hot_witness :
  exists encoded,
    one_hot ["ACGT"; "AN"]%string = Ok encoded /\
    Forall (Forall valid_symbol) (argmax_last_axis encoded).
Proof.
  destruct (features_decode_one_hot ["ACGT"; "AN"]%string)
    as (encoded & Hrun & _ & Hvalid & _).
  - discriminate.
  - exists encoded. split; [exact Hrun | exact Hvalid].
Defined.

(* ================================================================== *)
(** * More on compute_log_likelihood *)
(* ================================================================== *)

(** Two arrays of one shape with the same entries are the same array. *)
Lemma matrix_ext {A : Type} (d : A) (rows cols : nat) (M M' : matrix A) :
  has_shape rows cols M -> has_shape rows cols M' ->
  (forall i j, i < rows -> j < cols -> mget d M i j = mget d M' i j) ->
  M = M'.
Proof.
  intros HM HM' Hget.
  apply (nth_ext M M' [] []); [destruct HM, HM'; congruence |].
  intros i Hi. rewrite (proj1 HM) in Hi.
  apply (nth_ext _ _ d d).
  - rewrite (has_shape_row rows cols M i HM Hi), (has_shape_row rows cols M' i HM' Hi).
    reflexivity.
  - intros j Hj. rewrite (has_shape_row rows cols M i HM Hi) in Hj.
    apply (Hget i j Hi Hj).
Qed.

Lemma counting_loop_cells (sites : list (Z * Z)) :
  forall S_ij, has_shape 4 4 S_ij -> Forall accepted_site sites ->
  exists S', for_each count_site sites S_ij = Ok S' /\ has_shape 4 4 S' /\
    forall a b, a < 4 -> b < 4 ->
      mget 0%Z S' a b
      = (mget 0%Z S_ij a b
         + Z.of_nat (length (filter (fun s => ((position 4 (fst s) =? a)
                                               && (position 4 (snd s) =? b))%nat) sites)))%Z.
Proof.
  induction sites as [| s sites IH]; intros S_ij HS Hsites.
  - exists S_ij. split; [reflexivity |]. split; [exact HS |].
    intros a b _ _. simpl. lia.
  - inversion Hsites as [| ? ? Hs Hrest]; subst.
    destruct (count_site_spec S_ij s HS Hs) as (S1 & Hstep & HS1 & Hget).
    destruct (IH S1 HS1 Hrest) as (S' & Hloop & HS' & Hcells).
    exists S'. split; [simpl; rewrite Hstep; exact Hloop |]. split; [exact HS' |].
    intros a b Ha Hb. rewrite (Hcells a b Ha Hb), (Hget a b Ha Hb).
    cbn [filter]. rewrite (Nat.eqb_sym (position 4 (fst s)) a),
      (Nat.eqb_sym (position 4 (snd s)) b).
    destruct (Nat.eqb_spec a (position 4 (fst s))) as [-> | Ha'];
      destruct (Nat.eqb_spec b (position 4 (snd s))) as [-> | Hb'];
      cbn [andb length]; lia.
Qed.

Lemma site_count_total (sites : list (Z * Z)) :
  Forall accepted_site sites ->
  list_sum (map (fun ab => length (filter (fun s => (position 4 (fst s) =? fst ab)
                                                    && (position 4 (snd s) =? snd ab))
                                          sites))
                (list_prod (seq 0 4) (seq 0 4)))
  = length sites.
Proof.
  induction sites as [| s sites IH]; intros Hsites; [reflexivity |].
  inversion Hsites as [| ? ? [Hi Hj] Hrest]; subst.
  specialize (IH Hrest).
  change (length (s :: sites)) with (S (length sites)). rewrite <- IH.
  pose proof (position_lt_4 _ Hi) as Hpi. pose proof (position_lt_4 _ Hj) as Hpj.
  unfold list_sum. cbn [list_prod seq map app fst snd fold_right filter].
  remember (position 4 (fst s)) as p eqn:Ep. remember (position 4 (snd s)) as q eqn:Eq.
  clear Ep Eq.
  destruct p as [| [| [| [| p]]]]; try lia;
    destruct q as [| [| [| [| q]]]]; try lia;
    cbn [Nat.eqb andb length]; lia.
Qed.

Lemma combine_length_eq {A B : Type} (l : list A) (l' : list B) :
  length l = length l' -> length (combine l l') = length l.
Proof. intros Hlen. rewrite length_combine. lia. Qed.

(** X3.  The array [S_ij] that the first loop of [compute_log_likelihood]
    builds from two sequences of one length, with symbols numpy accepts as
    indices, is 4x4; its entry [a][b] is the number of sites where the first
    sequence has the symbol a and the second the symbol b, and its 16
    entries add up to the length of the sequences. *)
Theorem substitution_counts_count_sites (seq1 seq2 : list Z) :
  length seq1 = length seq2 ->
  Forall accepted_index seq1 -> Forall accepted_index seq2 ->
  exists S_ij,
    substitution_counts seq1 seq2 = Ok S_ij /\
    has_shape 4 4 S_ij /\
    (forall a b, a < 4 -> b < 4 ->
       mget 0%Z S_ij a b = Z.of_nat (site_count seq1 seq2 a b)) /\
    sum_Z (map (fun ab => mget 0%Z S_ij (fst ab) (snd ab)) (list_prod (seq 0 4) (seq 0 4)))
    = Z.of_nat (length seq1).
Proof.
  intros Hlen H1 H2.
  pose proof (accepted_sites seq1 seq2 H1 H2) as Hsites.
  destruct (counting_loop_cells (combine seq1 seq2) (np_zeros 0%Z 4 4)
              (np_zeros_shape 0%Z 4 4) Hsites) as (S_ij & Hrun & HS & Hcells).
  assert (Hcount : forall a b, a < 4 -> b < 4 ->
            mget 0%Z S_ij a b = Z.of_nat (site_count seq1 seq2 a b)).
  { intros a b Ha Hb. rewrite (Hcells a b Ha Hb), mget_np_zeros. reflexivity. }
  exists S_ij. split; [exact Hrun |]. split; [exact HS |]. split; [exact Hcount |].
  rewrite <- (combine_length_eq seq1 seq2 Hlen).
  rewrite <- (site_count_total (combine seq1 seq2) Hsites).
  unfold sum_Z, list_sum. cbn [list_prod seq map app fst snd fold_right].
  rewrite !Hcount by lia. unfold site_count. lia.
Qed.

Lemma substitution_counts_count_sites_witness :
  exists S_ij,
    substitution_counts [0; 3; 0; -1]%Z [0; 3; 0; 1]%Z = Ok S_ij /\
    mget 0%Z S_ij 0 0 = 2%Z /\ mget 0%Z S_ij 3 3 = 1%Z /\ mget 0%Z S_ij 3 1 = 1%Z.
Proof.
  destruct (substitution_counts_count_sites [0; 3; 0; -1]%Z [0; 3; 0; 1]%Z)
    as (S_ij & Hrun & _ & Hcells & _).
  - reflexivity.
  - repeat constructor; unfold accepted_index; lia.
  - repeat constructor; unfold accepted_index; lia.
  - exists S_ij. split; [exact Hrun |].
    rewrite !Hcells by lia. repeat split.
Defined.

(** ** Negative symbols *)

Lemma position_wrap_symbol (x : Z) : position 4 (wrap_symbol x) = position 4 x.
Proof. unfold wrap_symbol. apply position_of_nat. Qed.

Lemma wrap_symbol_valid (x : Z) : accepted_index x -> valid_symbol (wrap_symbol x).
Proof.
  intros Hx. pose proof (position_lt_4 x Hx). unfold wrap_symbol, valid_symbol. lia.
Qed.

Lemma np_get2_wrap {A : Type} (M : matrix A) (i j : Z) :
  has_shape 4 4 M -> accepted_index i -> accepted_index j ->
  np_get2 M (wrap_symbol i) (wrap_symbol j) = np_get2 M i j.
Proof.
  intros HM Hi Hj. unfold np_get2, np_get.
  pose proof HM as [Hlen Hrows]. rewrite Hlen.
  destruct (np_index_valid 4 i (accepted_index_range i Hi)) as [-> _].
  destruct (np_index_valid 4 (wrap_symbol i)
              (accepted_index_range _ (valid_symbol_accepted _ (wrap_symbol_valid i Hi))))
    as [-> _].
  rewrite position_wrap_symbol. cbn [bind].
  destruct (nth_error M (position 4 i)) as [row |] eqn:Hrow; [| reflexivity].
  cbn [bind].
  assert (Hlrow : length row = 4).
  { rewrite Forall_forall in Hrows. apply Hrows. eapply nth_error_In. exact Hrow. }
  rewrite Hlrow.
  destruct (np_index_valid 4 j (accepted_index_range j Hj)) as [-> _].
  destruct (np_index_valid 4 (wrap_symbol j)
              (accepted_index_range _ (valid_symbol_accepted _ (wrap_symbol_valid j Hj))))
    as [-> _].
  rewrite position_wrap_symbol. reflexivity.
Qed.

Lemma np_set2_wrap {A : Type} (M : matrix A) (i j : Z) (x : A) :
  has_shape 4 4 M -> accepted_index i -> accepted_index j ->
  np_set2 M (wrap_symbol i) (wrap_symbol j) x = np_set2 M i j x.
Proof.
  intros HM Hi Hj. unfold np_set2.
  pose proof HM as [Hlen Hrows]. rewrite Hlen.
  destruct (np_index_valid 4 i (accepted_index_range i Hi)) as [-> _].
  destruct (np_index_valid 4 (wrap_symbol i)
              (accepted_index_range _ (valid_symbol_accepted _ (wrap_symbol_valid i Hi))))
    as [-> _].
  rewrite position_wrap_symbol. cbn [bind].
  destruct (nth_error M (position 4 i)) as [row |] eqn:Hrow; [| reflexivity].
  assert (Hlrow : length row = 4).
  { rewrite Forall_forall in Hrows. apply Hrows. eapply nth_error_In. exact Hrow. }
  rewrite Hlrow.
  destruct (np_index_valid 4 j (accepted_index_range j Hj)) as [-> _].
  destruct (np_index_valid 4 (wrap_symbol j)
              (accepted_index_range _ (valid_symbol_accepted _ (wrap_symbol_valid j Hj))))
    as [-> _].
  rewrite position_wrap_symbol. reflexivity.
Qed.

Lemma combine_map_wrap (seq1 seq2 : list Z) :
  combine (map wrap_symbol seq1) (map wrap_symbol seq2)
  = map (fun s => (wrap_symbol (fst s), wrap_symbol (snd s))) (combine seq1 seq2).
Proof.
  revert seq2. induction seq1 as [| x seq1 IH]; intros [| y seq2]; simpl;
    try reflexivity.
  rewrite IH. reflexivity.
Qed.

Lemma counting_loop_wrap (sites : list (Z * Z)) :
  forall S_ij, has_shape 4 4 S_ij -> Forall accepted_site sites ->
  for_each count_site (map (fun s => (wrap_symbol (fst s), wrap_symbol (snd s))) sites) S_ij
  = for_each count_site sites S_ij.
Proof.
  induction sites as [| s sites IH]; intros S_ij HS Hsites; [reflexivity |].
  inversion Hsites as [| ? ? Hs Hrest]; subst.
  destruct (count_site_spec S_ij s HS Hs) as (S1 & Hstep & HS1 & _).
  cbn [map for_each]. rewrite Hstep.
  assert (Hwrap : count_site S_ij (wrap_symbol (fst s), wrap_symbol (snd s)) = Ok S1).
  { rewrite <- Hstep. destruct s as [i j]. destruct Hs as [Hi Hj]. cbn [fst snd] in *.
    unfold count_site. rewrite (np_get2_wrap S_ij i j HS Hi Hj).
    destruct (np_get2 S_ij i j); [| reflexivity]. cbn [bind].
    apply np_set2_wrap; assumption. }
  rewrite Hwrap. cbn [bind]. apply IH; assumption.
Qed.

Lemma likelihood_loop_wrap (P : matrix R) (sites : list (Z * Z)) :
  has_shape 4 4 P -> Forall accepted_site sites ->
  forall acc,
    for_each (add_site P) (map (fun s => (wrap_symbol (fst s), wrap_symbol (snd s))) sites) acc
    = for_each (add_site P) sites acc.
Proof.
  intros HP. induction sites as [| s sites IH]; intros Hsites acc; [reflexivity |].
  inversion Hsites as [| ? ? Hs Hrest]; subst.
  destruct s as [i j]. destruct Hs as [Hi Hj]. cbn [fst snd] in *.
  cbn [map for_each fst snd]. unfold add_site at 1 3.
  rewrite (np_get2_wrap P i j HP Hi Hj).
  destruct (np_get2 P i j); [| reflexivity]. cbn [bind]. apply IH. exact Hrest.
Qed.

(** X4.  A symbol from -4 to -1 counts as the symbol 4 more: for a model
    with 4x4 transition matrices, two sequences with symbols from -4 to 3
    get the likelihood (or the exception) of the sequences in which every
    negative symbol is replaced by the symbol numpy reads it as. *)
Theorem compute_log_likelihood_wraps_negative_symbols
    (seq1 seq2 : list Z) (model : SubstitutionModel) :
  model_4x4 model ->
  Forall accepted_index seq1 -> Forall accepted_index seq2 ->
  Forall valid_symbol (map wrap_symbol seq1) /\
  Forall valid_symbol (map wrap_symbol seq2) /\
  compute_log_likelihood (map wrap_symbol seq1) (map wrap_symbol seq2) model
  = compute_log_likelihood seq1 seq2 model.
Proof.
  intros Hmodel H1 H2.
  assert (Hvalid : forall l, Forall accepted_index l -> Forall valid_symbol (map wrap_symbol l)).
  { intros l Hl. apply Forall_map. eapply Forall_impl; [| exact Hl].
    exact wrap_symbol_valid. }
  split; [apply Hvalid; exact H1 |]. split; [apply Hvalid; exact H2 |].
  pose proof (accepted_sites seq1 seq2 H1 H2) as Hsites.
  unfold compute_log_likelihood, substitution_counts. rewrite !length_map.
  destruct (negb (length seq1 =? length seq2)); [reflexivity |].
  rewrite combine_map_wrap.
  rewrite (counting_loop_wrap _ _ (np_zeros_shape 0%Z 4 4) Hsites).
  destruct (for_each count_site (combine seq1 seq2) (np_zeros 0%Z 4 4)) as [S_ij | e];
    [| reflexivity].
  cbn [bind]. rewrite (likelihood_loop_wrap _ _ (Hmodel _) Hsites). reflexivity.
Qed.

Lemma compute_log_likelihood_wraps_negative_symbols_witness :
  compute_log_likelihood (map wrap_symbol [-1; 0; -4]%Z) (map wrap_symbol [2; -3; 0]%Z)
    example_model
  = compute_log_likelihood [-1; 0; -4]%Z [2; -3; 0]%Z example_model.
Proof.
  apply (compute_log_likelihood_wraps_negative_symbols
           [-1; 0; -4]%Z [2; -3; 0]%Z example_model).
  - exact example_model_4x4.
  - repeat constructor; unfold accepted_index; lia.
  - repeat constructor; unfold accepted_index; lia.
Defined.

(* ================================================================== *)
(** * More on build_weighted_adjacency_matrix *)
(* ================================================================== *)

(** A loop whose body either keeps the invariant or raises one given
    exception, does the same. *)
Lemma for_each_ok_or_raises {A B : Type} (Inv : B -> Prop) (e0 : exn)
    (body : B -> A -> result B) (l : list A) :
  (forall acc x, Inv acc -> In x l ->
     (exists acc', body acc x = Ok acc' /\ Inv acc') \/ body acc x = Raise e0) ->
  forall acc, Inv acc ->
    (exists acc', for_each body l acc = Ok acc' /\ Inv acc') \/
    for_each body l acc = Raise e0.
Proof.
  induction l as [| x l IH]; intros Hbody acc Hacc.
  - left. exists acc. split; [reflexivity | exact Hacc].
  - cbn [for_each].
    destruct (Hbody acc x Hacc (or_introl eq_refl)) as [(acc1 & -> & Hacc1) | ->].
    + cbn [bind]. apply IH; [| exact Hacc1].
      intros acc2 y Hacc2 Hy. apply Hbody; [exact Hacc2 | right; exact Hy].
    + right. reflexivity.
Qed.

(** ... and raises it when one of its steps always does. *)
Lemma for_each_raises_at {A B : Type} (Inv : B -> Prop) (e0 : exn)
    (body : B -> A -> result B) (l : list A) :
  (forall acc x, Inv acc -> In x l ->
     (exists acc', body acc x = Ok acc' /\ Inv acc') \/ body acc x = Raise e0) ->
  (exists x, In x l /\ forall acc, Inv acc -> body acc x = Raise e0) ->
  forall acc, Inv acc -> for_each body l acc = Raise e0.
Proof.
  induction l as [| x l IH]; intros Hbody (x0 & Hx0 & Hraise) acc Hacc.
  - destruct Hx0.
  - cbn [for_each].
    destruct (Hbody acc x Hacc (or_introl eq_refl)) as [(acc1 & Hstep & Hacc1) | ->];
      [| reflexivity].
    rewrite Hstep. cbn [bind]. apply IH; [| | exact Hacc1].
    + intros acc2 y Hacc2 Hy. apply Hbody; [exact Hacc2 | right; exact Hy].
    + destruct Hx0 as [<- | Hx0].
      * rewrite (Hraise acc Hacc) in Hstep. discriminate.
      * exists x0. split; [exact Hx0 | exact Hraise].
Qed.

Lemma compute_log_likelihood_mismatch (seq1 seq2 : list Z) (model : SubstitutionModel) :
  length seq1 <> length seq2 ->
  compute_log_likelihood seq1 seq2 model = Raise length_mismatch.
Proof.
  intros Hlen. unfold compute_log_likelihood.
  apply Nat.eqb_neq in Hlen. rewrite Hlen. reflexivity.
Qed.

Section WeightLoops.

Variable seqs : matrix Z.
Variable model : SubstitutionModel.
Hypothesis model_shape : model_4x4 model.
Hypothesis seqs_accepted : Forall (Forall accepted_index) seqs.

Let N := length seqs.

Lemma row_accepted (i : nat) : i < N -> Forall accepted_index (nth i seqs []).
Proof.
  intros Hi. pose proof seqs_accepted as Hacc. rewrite Forall_forall in Hacc.
  apply Hacc. apply nth_In. exact Hi.
Qed.

Lemma likelihood_cell_set (M : matrix R) (i j : nat) (v : R) :
  has_shape N N M -> i < N -> j < N ->
  exists M', np_set2 M (Z.of_nat i) (Z.of_nat j) v = Ok M' /\ has_shape N N M'.
Proof.
  intros HM Hi Hj.
  destruct (np_set2_spec 0%R N N M (Z.of_nat i) (Z.of_nat j) v HM
              (of_nat_in_range N i Hi) (of_nat_in_range N j Hj))
    as (M' & Hset & HM' & _).
  exists M'. split; assumption.
Qed.

Lemma likelihood_cell_mismatch (M : matrix R) (i j : nat) :
  i < N -> j < N -> length (nth i seqs []) <> length (nth j seqs []) ->
  likelihood_cell seqs model i M j = Raise length_mismatch.
Proof.
  intros Hi Hj Hlen. unfold likelihood_cell.
  destruct (Nat.eqb_spec i j) as [-> | Hij]; [contradiction Hlen; reflexivity |].
  cbn [negb].
  rewrite (np_get_of_nat seqs [] i Hi), (np_get_of_nat seqs [] j Hj). cbn [bind].
  rewrite (compute_log_likelihood_mismatch _ _ model Hlen). reflexivity.
Qed.

Lemma likelihood_cell_ok_or_mismatch (M : matrix R) (i j : nat) :
  has_shape N N M -> i < N -> j < N ->
  (exists M', likelihood_cell seqs model i M j = Ok M' /\ has_shape N N M') \/
  likelihood_cell seqs model i M j = Raise length_mismatch.
Proof.
  intros HM Hi Hj.
  destruct (Nat.eq_dec (length (nth i seqs [])) (length (nth j seqs []))) as [Hlen | Hlen];
    [| right; apply likelihood_cell_mismatch; assumption].
  left. unfold likelihood_cell.
  destruct (negb (i =? j)); [| apply likelihood_cell_set; assumption].
  rewrite (np_get_of_nat seqs [] i Hi), (np_get_of_nat seqs [] j Hj). cbn [bind].
  destruct (compute_log_likelihood_value (nth i seqs []) (nth j seqs []) model
              model_shape Hlen (row_accepted i Hi) (row_accepted j Hj))
    as (S_ij & _ & _ & -> & _).
  cbn [bind]. apply likelihood_cell_set; assumption.
Qed.

Lemma likelihood_row_ok_or_mismatch (M : matrix R) (i : nat) :
  has_shape N N M -> i < N ->
  (exists M', likelihood_row seqs model N M i = Ok M' /\ has_shape N N M') \/
  likelihood_row seqs model N M i = Raise length_mismatch.
Proof.
  intros HM Hi. unfold likelihood_row.
  apply (for_each_ok_or_raises (has_shape N N)); [| exact HM].
  intros M1 j HM1 Hj. apply in_seq in Hj.
  apply likelihood_cell_ok_or_mismatch; [exact HM1 | exact Hi | lia].
Qed.

Lemma likelihood_row_mismatch (M : matrix R) (i j : nat) :
  has_shape N N M -> i < N -> j < N ->
  length (nth i seqs []) <> length (nth j seqs []) ->
  likelihood_row seqs model N M i = Raise length_mismatch.
Proof.
  intros HM Hi Hj Hlen. unfold likelihood_row.
  apply (for_each_raises_at (has_shape N N)); [| | exact HM].
  - intros M1 k HM1 Hk. apply in_seq in Hk.
    apply likelihood_cell_ok_or_mismatch; [exact HM1 | exact Hi | lia].
  - exists j. split; [apply in_seq; lia |].
    intros M1 _. apply likelihood_cell_mismatch; assumption.
Qed.

Lemma log_likelihood_matrix_mismatch (i j : nat) :
  i < N -> j < N -> length (nth i seqs []) <> length (nth j seqs []) ->
  log_likelihood_matrix seqs model = Raise length_mismatch.
Proof.
  intros Hi Hj Hlen. unfold log_likelihood_matrix. fold N.
  apply (for_each_raises_at (has_shape N N)); [| | apply np_zeros_shape].
  - intros M k HM Hk. apply in_seq in Hk.
    apply likelihood_row_ok_or_mismatch; [exact HM | lia].
  - exists i. split; [apply in_seq; lia |].
    intros M HM. apply (likelihood_row_mismatch M i j); assumption.
Qed.

End WeightLoops.

(** X5.  On N sequences of one length whose symbols numpy accepts as
    indices, and a model with 4x4 transition matrices,
    [build_weighted_adjacency_matrix] raises nothing: it returns an N x N
    matrix whose diagonal is 1 and whose other entries are [np.exp] of the
    log-likelihood of the pair. *)
Theorem build_weighted_adjacency_matrix_succeeds
    (seqs : matrix Z) (model : SubstitutionModel) (len : nat) :
  model_4x4 model ->
  Forall (fun row => length row = len /\ Forall accepted_index row) seqs ->
  exists W,
    build_weighted_adjacency_matrix seqs model = Ok W /\
    has_shape (length seqs) (length seqs) W /\
    (forall i, i < length seqs -> mget 0%R W i i = 1%R) /\
    (forall i j, i < length seqs -> j < length seqs -> i <> j ->
       exists v, compute_log_likelihood (nth i seqs []) (nth j seqs []) model = Ok v /\
                 mget 0%R W i j = exp_float v).
Proof.
  intros Hmodel Hseqs.
  destruct (log_likelihood_matrix_total seqs model len Hmodel Hseqs) as (L & Hloop).
  destruct (log_likelihood_matrix_cells seqs model L Hloop) as [HL Hcells].
  exists (np_exp L). split; [| split; [| split]].
  - unfold build_weighted_adjacency_matrix. rewrite Hloop. reflexivity.
  - apply np_exp_shape. exact HL.
  - intros i Hi. rewrite (mget_np_exp _ _ L i i HL Hi Hi).
    specialize (Hcells i i Hi Hi). unfold cell_value in Hcells.
    rewrite Nat.eqb_refl in Hcells. cbn [negb] in Hcells.
    injection Hcells as <-. apply exp_float_0.
  - intros i j Hi Hj Hij. exists (mget 0%R L i j).
    split; [| apply (mget_np_exp _ _ L i j HL Hi Hj)].
    specialize (Hcells i j Hi Hj). unfold cell_value in Hcells.
    apply Nat.eqb_neq in Hij. rewrite Hij in Hcells. cbn [negb] in Hcells.
    rewrite (np_get_of_nat seqs [] i Hi), (np_get_of_nat seqs [] j Hj) in Hcells.
    exact Hcells.
Qed.

Lemma build_weighted_adjacency_matrix_succeeds_witness :
  exists W,
    build_weighted_adjacency_matrix [[0; 1]; [0; -4]; [3; 3]]%Z example_model = Ok W /\
    has_shape 3 3 W.
Proof.
  destruct (build_weighted_adjacency_matrix_succeeds
              [[0; 1]; [0; -4]; [3; 3]]%Z example_model 2)
    as (W & Hrun & HW & _).
  - exact example_model_4x4.
  - repeat constructor; unfold accepted_index; lia.
  - exists W. split; [exact Hrun | exact HW].
Defined.

(** X6.  When two of the sequences differ in length (their symbols being
    indices numpy accepts, the transition matrices 4x4),
    [build_weighted_adjacency_matrix] returns no matrix: the ValueError of
    [compute_log_likelihood] comes out of the loops. *)
Theorem build_weighted_adjacency_matrix_length_mismatch
    (seqs : matrix Z) (model : SubstitutionModel) (i j : nat) :
  model_4x4 model ->
  Forall (Forall accepted_index) seqs ->
  i < length seqs -> j < length seqs ->
  length (nth i seqs []) <> length (nth j seqs []) ->
  build_weighted_adjacency_matrix seqs model = Raise length_mismatch.
Proof.
  intros Hmodel Hseqs Hi Hj Hlen. unfold build_weighted_adjacency_matrix.
  rewrite (log_likelihood_matrix_mismatch seqs model Hmodel Hseqs i j Hi Hj Hlen).
  reflexivity.
Qed.

Lemma build_weighted_adjacency_matrix_length_mismatch_witness :
  build_weighted_adjacency_matrix [[0; 1]; [0; 1]; [3; 3; 2]]%Z example_model
  = Raise length_mismatch.
Proof.
  apply (build_weighted_adjacency_matrix_length_mismatch
           [[0; 1]; [0; 1]; [3; 3; 2]]%Z example_model 1 2).
  - exact example_model_4x4.
  - repeat constructor; unfold accepted_index; lia.
  - simpl; lia.
  - simpl; lia.
  - simpl; lia.
Defined.

(** ** Weights as probabilities *)

Lemma np_get_In {A : Type} (a : list A) (i : Z) (x : A) :
  np_get a i = Ok x -> In x a.
Proof.
  unfold np_get. intros Hget.
  apply bind_ok_inv in Hget. destruct Hget as (k & _ & Hget).
  destruct (nth_error a k) as [y |] eqn:Hy; [| discriminate].
  injection Hget as <-. eapply nth_error_In. exact Hy.
Qed.

Lemma compute_log_likelihood_nonpositive
    (seq1 seq2 : list Z) (model : SubstitutionModel) (v : R) :
  model_stochastic model ->
  compute_log_likelihood seq1 seq2 model = Ok v -> (v <= 0)%R.
Proof.
  intros Hmodel. unfold compute_log_likelihood.
  destruct (negb (length seq1 =? length seq2)); [discriminate |].
  intros Hrun. apply bind_ok_inv in Hrun. destruct Hrun as (S_ij & _ & Hrun).
  cbv zeta in Hrun.
  apply bind_ok_inv in Hrun. destruct Hrun as (v' & Hloop & [= <-]).
  revert Hloop.
  apply (for_each_preserves (fun acc => (acc <= 0)%R)); [| lra].
  intros acc [i j] acc' Hacc Hstep. unfold add_site in Hstep.
  apply bind_ok_inv in Hstep. destruct Hstep as (p & Hp & [= <-]).
  unfold np_get2 in Hp. apply bind_ok_inv in Hp. destruct Hp as (row & Hrow & Hp).
  apply np_get_In in Hrow. apply np_get_In in Hp.
  specialize (Hmodel (optimize_t model S_ij)).
  rewrite Forall_forall in Hmodel. specialize (Hmodel row Hrow).
  rewrite Forall_forall in Hmodel. specialize (Hmodel p Hp).
  assert (ln p <= 0)%R; [| lra].
  rewrite <- ln_1. destruct Hmodel as [Hpos [Hlt | ->]]; [| lra].
  left. apply ln_increasing; assumption.
Qed.

(** X7.  When every entry of the transition matrices is a probability in
    (0, 1], every log-likelihood in the matrix that
    [build_weighted_adjacency_matrix] exponentiates is at most 0 and every
    weight it returns is in [0, 1]: no pair of sequences gets a weight above
    the 1 of the diagonal.  A weight is exactly 0 if and only if the
    log-likelihood is below the bound at which [np.exp] underflows. *)
Theorem build_weighted_adjacency_matrix_weights_are_probabilities
    (seqs : matrix Z) (model : SubstitutionModel) (W : matrix R) :
  model_stochastic model ->
  build_weighted_adjacency_matrix seqs model = Ok W ->
  exists L,
    log_likelihood_matrix seqs model = Ok L /\
    forall i j, i < length seqs -> j < length seqs ->
      (mget 0 L i j <= 0)%R /\
      (0 <= mget 0 W i j <= 1)%R /\
      (mget 0 W i j = 0 <-> mget 0 L i j < exp_underflow)%R.
Proof.
  intros Hmodel Hrun. unfold build_weighted_adjacency_matrix in Hrun.
  apply bind_ok_inv in Hrun. destruct Hrun as (L & Hloop & [= <-]).
  exists L. split; [exact Hloop |]. intros i j Hi Hj.
  destruct (log_likelihood_matrix_cells seqs model L Hloop) as [HL Hcells].
  rewrite (mget_np_exp _ _ L i j HL Hi Hj).
  assert (Hneg : (mget 0 L i j <= 0)%R).
  { specialize (Hcells i j Hi Hj). unfold cell_value in Hcells.
    destruct (negb (i =? j)).
    - apply bind_ok_inv in Hcells. destruct Hcells as (seq_i & _ & Hcells).
      apply bind_ok_inv in Hcells. destruct Hcells as (seq_j & _ & Hcells).
      exact (compute_log_likelihood_nonpositive seq_i seq_j model _ Hmodel Hcells).
    - injection Hcells as <-. lra. }
  split; [exact Hneg |]. split; [split |].
  - apply exp_float_nonneg.
  - rewrite <- exp_float_0. apply exp_float_mono. exact Hneg.
  - split; [| apply exp_float_below].
    intros Hzero. destruct (Rlt_dec (mget 0%R L i j) exp_underflow) as [Hlt | Hge];
      [exact Hlt |].
    rewrite exp_float_above in Hzero by lra.
    pose proof (exp_pos (mget 0%R L i j)). lra.
Qed.

Lemma example_model_stochastic : model_stochastic example_model.
Proof.
  intros t. simpl. unfold example_matrix. repeat constructor; lra.
Qed.

Lemma build_weighted_adjacency_matrix_weights_are_probabilities_witness :
  let L := [[0; 0 + ln (7 / 10) + ln (1 / 10)]; [0 + ln (7 / 10) + ln (1 / 10); 0]]%R in
  exists L',
    log_likelihood_matrix [[0; 1]; [0; 0]]%Z example_model = Ok L' /\
    (0 <= mget 0 (np_exp L) 0 1 <= 1)%R.
Proof.
  intros L.
  destruct (build_weighted_adjacency_matrix_weights_are_probabilities
              [[0; 1]; [0; 0]]%Z example_model (np_exp L)) as (L' & HL' & Hcells).
  - exact example_model_stochastic.
  - reflexivity.
  - exists L'. split; [exact HL' |].
    apply (Hcells 0 1); simpl; lia.
Defined.

(** ** Symmetry *)

Lemma mget_transpose4 (S : matrix Z) (a b : nat) :
  a < 4 -> b < 4 -> mget 0%Z (transpose4 S) a b = mget 0%Z S b a.
Proof.
  intros Ha Hb.
  destruct a as [| [| [| [| a]]]]; try lia;
    destruct b as [| [| [| [| b]]]]; try lia; reflexivity.
Qed.

Lemma transpose4_shape (S : matrix Z) : has_shape 4 4 (transpose4 S).
Proof. split; [reflexivity | repeat constructor]. Qed.

Lemma site_count_swap (seq1 seq2 : list Z) (a b : nat) :
  site_count seq2 seq1 a b = site_count seq1 seq2 b a.
Proof.
  unfold site_count. revert seq2.
  induction seq1 as [| x seq1 IH]; intros [| y seq2]; try reflexivity.
  cbn [combine filter fst snd]. rewrite (andb_comm (position 4 y =? a)).
  destruct ((position 4 x =? b) && (position 4 y =? a)); cbn [length]; rewrite IH;
    reflexivity.
Qed.

Lemma np_site_sum_swap (P : matrix R) (seq1 seq2 : list Z) :
  (forall a b, a < 4 -> b < 4 -> mget 0%R P a b = mget 0%R P b a) ->
  Forall accepted_index seq1 -> Forall accepted_index seq2 ->
  np_site_sum P (combine seq2 seq1) = np_site_sum P (combine seq1 seq2).
Proof.
  intros HP H1. revert seq2. unfold np_site_sum.
  induction H1 as [| x seq1 Hx H1 IH]; intros seq2 H2.
  - destruct seq2; reflexivity.
  - destruct H2 as [| y seq2 Hy H2]; [reflexivity |].
    cbn [combine map sum_R fold_right fst snd].
    rewrite (HP (position 4 y) (position 4 x) (position_lt_4 y Hy) (position_lt_4 x Hx)).
    f_equal. apply IH. exact H2.
Qed.

Lemma substitution_counts_swap (seq1 seq2 : list Z) (S12 S21 : matrix Z) :
  Forall accepted_index seq1 -> Forall accepted_index seq2 ->
  substitution_counts seq1 seq2 = Ok S12 ->
  substitution_counts seq2 seq1 = Ok S21 ->
  S21 = transpose4 S12.
Proof.
  intros H1 H2 Hrun12 Hrun21.
  destruct (counting_loop_cells (combine seq1 seq2) (np_zeros 0%Z 4 4)
              (np_zeros_shape 0%Z 4 4) (accepted_sites seq1 seq2 H1 H2))
    as (S & Hrun & HS & Hcells).
  unfold substitution_counts in Hrun12. rewrite Hrun12 in Hrun. injection Hrun as <-.
  destruct (counting_loop_cells (combine seq2 seq1) (np_zeros 0%Z 4 4)
              (np_zeros_shape 0%Z 4 4) (accepted_sites seq2 seq1 H2 H1))
    as (S' & Hrun' & HS' & Hcells').
  unfold substitution_counts in Hrun21. rewrite Hrun21 in Hrun'. injection Hrun' as <-.
  apply (matrix_ext 0%Z 4 4); [exact HS' | apply transpose4_shape |].
  intros a b Ha Hb. rewrite (mget_transpose4 S12 a b Ha Hb).
  rewrite (Hcells' a b Ha Hb), (Hcells b a Hb Ha), !mget_np_zeros.
  f_equal. f_equal. apply (site_count_swap seq1 seq2 a b).
Qed.

Lemma compute_log_likelihood_swap (seq1 seq2 : list Z) (model : SubstitutionModel) :
  model_4x4 model -> model_symmetric model ->
  length seq1 = length seq2 ->
  Forall accepted_index seq1 -> Forall accepted_index seq2 ->
  compute_log_likelihood seq2 seq1 model = compute_log_likelihood seq1 seq2 model.
Proof.
  intros Hmodel [Ht HP] Hlen H1 H2.
  destruct (compute_log_likelihood_value seq1 seq2 model Hmodel Hlen H1 H2)
    as (S12 & Hrun12 & HS12 & Hv12 & _).
  destruct (compute_log_likelihood_value seq2 seq1 model Hmodel (eq_sym Hlen) H2 H1)
    as (S21 & Hrun21 & HS21 & Hv21 & _).
  cbv zeta in Hv12, Hv21. rewrite Hv12, Hv21.
  rewrite (substitution_counts_swap seq1 seq2 S12 S21 H1 H2 Hrun12 Hrun21).
  rewrite (Ht S12 HS12).
  rewrite (np_site_sum_swap _ seq1 seq2 (HP _) H1 H2). reflexivity.
Qed.

(** X8.  For a model that does not tell a pair of sequences from the pair
    taken the other way round (the branch length of transposed counts is the
    same, the transition matrices are symmetric), the matrix that
    [build_weighted_adjacency_matrix] returns is symmetric, although the
    loops compute the two halves separately. *)
Theorem build_weighted_adjacency_matrix_symmetric
    (seqs : matrix Z) (model : SubstitutionModel) (len : nat) (W : matrix R) :
  model_4x4 model -> model_symmetric model ->
  Forall (fun row => length row = len /\ Forall accepted_index row) seqs ->
  build_weighted_adjacency_matrix seqs model = Ok W ->
  forall i j, i < length seqs -> j < length seqs ->
    mget 0%R W i j = mget 0%R W j i.
Proof.
  intros Hmodel Hsym Hseqs Hrun i j Hi Hj.
  unfold build_weighted_adjacency_matrix in Hrun.
  apply bind_ok_inv in Hrun. destruct Hrun as (L & Hloop & [= <-]).
  destruct (log_likelihood_matrix_cells seqs model L Hloop) as [HL Hcells].
  rewrite (mget_np_exp _ _ L i j HL Hi Hj), (mget_np_exp _ _ L j i HL Hj Hi).
  f_equal.
  pose proof (Hcells i j Hi Hj) as Hij. pose proof (Hcells j i Hj Hi) as Hji.
  assert (Hrow : forall k, k < length seqs ->
            length (nth k seqs []) = len /\ Forall accepted_index (nth k seqs [])).
  { intros k Hk. rewrite Forall_forall in Hseqs. apply Hseqs. apply nth_In. exact Hk. }
  destruct (Hrow i Hi) as [Hli Hacci]. destruct (Hrow j Hj) as [Hlj Haccj].
  unfold cell_value in Hij, Hji. rewrite (Nat.eqb_sym j i) in Hji.
  destruct (negb (i =? j)).
  - rewrite (np_get_of_nat seqs [] i Hi), (np_get_of_nat seqs [] j Hj) in Hij, Hji.
    cbn [bind] in Hij, Hji.
    rewrite (compute_log_likelihood_swap (nth i seqs []) (nth j seqs []) model
               Hmodel Hsym ltac:(congruence) Hacci Haccj) in Hji.
    congruence.
  - congruence.
Qed.

Lemma example_model_symmetric : model_symmetric example_model.
Proof.
  split; [reflexivity |]. intros t a b Ha Hb.
  destruct a as [| [| [| [| a]]]]; try lia;
    destruct b as [| [| [| [| b]]]]; try lia; reflexivity.
Qed.

Lemma build_weighted_adjacency_matrix_symmetric_witness :
  let L := [[0; 0 + ln (7 / 10) + ln (1 / 10)]; [0 + ln (7 / 10) + ln (1 / 10); 0]]%R in
  mget 0%R (np_exp L) 0 1 = mget 0%R (np_exp L) 1 0.
Proof.
  intros L.
  apply (build_weighted_adjacency_matrix_symmetric
           [[0; 1]; [0; 0]]%Z example_model 2 (np_exp L)).
  - exact example_model_4x4.
  - exact example_model_symmetric.
  - repeat constructor; unfold accepted_index; lia.
  - reflexivity.
  - simpl; lia.
  - simpl; lia.
Defined.

(* ================================================================== *)
(** * More on get_mst *)
(* ================================================================== *)

Lemma for_each_ext_in {A B : Type} (f g : B -> A -> result B) (l : list A) :
  (forall acc x, In x l -> f acc x = g acc x) ->
  forall acc, for_each f l acc = for_each g l acc.
Proof.
  induction l as [| x l IH]; intros Hfg acc; [reflexivity |].
  cbn [for_each]. rewrite (Hfg acc x (or_introl eq_refl)).
  destruct (g acc x) as [acc' | e]; [| reflexivity].
  cbn [bind]. apply IH. intros acc1 y Hy. apply Hfg. right. exact Hy.
Qed.

(** X9.  [get_mst] never reads the last row and the last column of the
    weight matrix: two N x N matrices that agree on the leading
    (N-1) x (N-1) block give the same tree. *)
Theorem get_mst_ignores_last_row_and_column {V : Type} `{Weight V}
    (W W' : matrix (npfloat V)) (N : nat) :
  has_shape N N W -> has_shape N N W' ->
  (forall i j, i < N - 1 -> j < N - 1 -> entry W i j = entry W' i j) ->
  get_mst W = get_mst W'.
Proof.
  intros HW HW' Hsame. unfold get_mst.
  assert (HG : mst_graph W = mst_graph W'); [| rewrite HG; reflexivity].
  unfold mst_graph, n_rows. rewrite (proj1 HW), (proj1 HW').
  apply for_each_ext_in. intros G i Hi. apply in_seq in Hi.
  unfold mst_row. apply for_each_ext_in. intros G' j Hj. apply in_seq in Hj.
  unfold mst_cell.
  rewrite (np_get2_entry W N HW i j) by lia.
  rewrite (np_get2_entry W' N HW' i j) by lia.
  rewrite (Hsame i j) by lia. reflexivity.
Qed.

Lemma get_mst_ignores_last_row_and_column_witness :
  get_mst [[Finite 1; Finite 5; Finite 2];
           [Finite 5; Finite 1; Finite 7];
           [Finite 2; Finite 7; Finite 1]]%Z
  = get_mst [[Finite 1; Finite 5; NegInf];
             [Finite 5; Finite 1; Finite 0];
             [Finite 8; NegInf; Finite 3]]%Z.
Proof.
  apply (get_mst_ignores_last_row_and_column _ _ 3).
  - split; [reflexivity | repeat constructor].
  - split; [reflexivity | repeat constructor].
  - intros i j Hi Hj.
    destruct i as [| [| i]]; try lia; destruct j as [| [| j]]; try lia; reflexivity.
Defined.

Lemma np_get2_beyond_columns {A : Type} (rows cols : nat) (M : matrix A) (i j : nat) :
  has_shape rows cols M -> i < rows -> cols <= j ->
  np_get2 M (Z.of_nat i) (Z.of_nat j) = Raise index_error.
Proof.
  intros HM Hi Hj. unfold np_get2.
  rewrite (np_get_of_nat M [] i) by (rewrite (proj1 HM); exact Hi). cbn [bind].
  unfold np_get. rewrite (has_shape_row rows cols M i HM Hi).
  rewrite np_index_outside by lia. reflexivity.
Qed.

Lemma mst_cell_ok_or_raises {V : Type} (W : matrix (npfloat V)) (i j : nat) (G : Graph V) :
  (exists G', mst_cell W i G j = Ok G' /\ True) \/ mst_cell W i G j = Raise index_error.
Proof.
  unfold mst_cell.
  destruct (np_get2 W (Z.of_nat i) (Z.of_nat j)) as [[| w] | e] eqn:Hget; cbn [bind].
  - left. eexists. split; [reflexivity | exact I].
  - left. eexists. split; [reflexivity | exact I].
  - right. rewrite (np_get2_raises W _ _ e Hget). reflexivity.
Qed.

(** X10.  A weight matrix with fewer than (rows - 1) columns makes
    [get_mst] raise an IndexError: the loops index the columns by the number
    of rows. *)
Theorem get_mst_too_few_columns {V : Type} `{Weight V}
    (W : matrix (npfloat V)) (rows cols : nat) :
  has_shape rows cols W -> cols < rows - 1 ->
  get_mst W = Raise index_error.
Proof.
  intros HW Hcols. unfold get_mst.
  assert (HG : mst_graph W = Raise index_error); [| rewrite HG; reflexivity].
  unfold mst_graph, n_rows. rewrite (proj1 HW).
  apply (for_each_raises_at (fun _ => True)); [| | exact I].
  - intros G i _ _. unfold mst_row.
    apply (for_each_ok_or_raises (fun _ => True)); [| exact I].
    intros G' j _ _. apply mst_cell_ok_or_raises.
  - exists 0. split; [apply in_seq; lia |].
    intros G _. unfold mst_row.
    apply (for_each_raises_at (fun _ => True)); [| | exact I].
    + intros G' j _ _. apply mst_cell_ok_or_raises.
    + exists cols. split; [apply in_seq; lia |].
      intros G' _. unfold mst_cell.
      rewrite (np_get2_beyond_columns rows cols W 0 cols HW) by lia. reflexivity.
Qed.

Lemma get_mst_too_few_columns_witness :
  get_mst [[Finite 1]; [Finite 5]; [Finite 2]]%Z = Raise index_error.
Proof.
  apply (get_mst_too_few_columns _ 3 1).
  - split; [reflexivity | repeat constructor].
  - simpl; lia.
Defined.

(** X11.  Whatever the graph of an N x N weight matrix looks like,
    connected or not, [get_mst] returns a spanning forest of it: the nodes
    are those of the graph, every edge is an edge of the graph, no edge
    closes a cycle, the tree connects exactly the nodes that the graph
    connects, and the number of its edges is the number of nodes less the
    number of connected components. *)
Theorem get_mst_spanning_forest {V : Type} `{WeightLaws V}
    (W : matrix (npfloat V)) (N : nat) :
  has_shape N N W ->
  exists G T,
    mst_graph W = Ok G /\ get_mst W = Ok T /\
    nodes T = nodes G /\
    (forall e, In e (edges T) -> edge_of G e) /\
    forest (edges T) /\
    (forall u v, connected (edges T) u v <-> connected (edges G) u v) /\
    length (edges T) + components (nodes G) (edges G) = length (nodes G).
Proof.
  intros HW. destruct (mst_graph_square W N HW) as (G & HG & _).
  pose proof (mst_graph_wf W G HG) as Hwf.
  assert (Hconn : forall u v,
            connected (edges (maximum_spanning_tree G)) u v <-> connected (edges G) u v).
  { intros u v. split; [| apply (T_connects G Hwf)].
    revert u v. apply connected_mono. intros a b w Hin.
    destruct (T_edges_of_G G (a, b, w) Hin) as [Hab | Hba].
    - eapply connected_edge. exact Hab.
    - apply connected_sym. eapply connected_edge. exact Hba. }
  exists G, (maximum_spanning_tree G).
  split; [exact HG |]. split; [unfold get_mst; rewrite HG; reflexivity |].
  split; [apply (T_nodes G Hwf) |]. split; [apply (T_edges_of_G G) |].
  split; [apply (tight_forest (nodes G)); [apply Hwf | apply (T_tight G Hwf)] |].
  split; [exact Hconn |].
  rewrite <- (components_ext (nodes G) _ _ Hconn). apply (T_tight G Hwf).
Qed.

Lemma get_mst_spanning_forest_witness :
  exists G T,
    mst_graph [[Finite 1; NegInf; NegInf; Finite 9];
               [NegInf; Finite 1; Finite 7; Finite 9];
               [NegInf; Finite 7; Finite 1; Finite 9];
               [Finite 9; Finite 9; Finite 9; Finite 1]]%Z = Ok G /\
    get_mst [[Finite 1; NegInf; NegInf; Finite 9];
             [NegInf; Finite 1; Finite 7; Finite 9];
             [NegInf; Finite 7; Finite 1; Finite 9];
             [Finite 9; Finite 9; Finite 9; Finite 1]]%Z = Ok T /\
    forest (edges T).
Proof.
  destruct (get_mst_spanning_forest
              [[Finite 1; NegInf; NegInf; Finite 9];
               [NegInf; Finite 1; Finite 7; Finite 9];
               [NegInf; Finite 7; Finite 1; Finite 9];
               [Finite 9; Finite 9; Finite 9; Finite 1]]%Z 4)
    as (G & T & HG & HT & _ & _ & Hforest & _).
  - split; [reflexivity | repeat constructor].
  - exists G, T. split; [exact HG |]. split; [exact HT | exact Hforest].
Defined.

(** ** Weights that are all finite *)

Section FiniteWeights.

Context {V : Type} `{WeightLaws V}.

Variable W : matrix (npfloat V).
Variable N : nat.
Hypothesis W_square : has_shape N N W.
Hypothesis N_ge_2 : 2 <= N.
Hypothesis W_finite : all_finite W (N - 1).

Variable G : Graph V.
Hypothesis G_built : mst_graph W = Ok G.

Lemma complete_invariant : mst_invariant W (N - 1) (N - 1) 0 G.
Proof.
  destruct (mst_graph_square W N W_square) as (G' & HG' & Hinv).
  rewrite G_built in HG'. injection HG' as <-. exact Hinv.
Qed.

Lemma complete_edge_weight (u v : nat) :
  u < N - 1 -> v < N - 1 ->
  exists w, edge_weight G u v = Some w /\
            entry W (Nat.max u v) (Nat.min u v) = Finite w.
Proof.
  intros Hu Hv. destruct complete_invariant as (_ & _ & Hweights).
  destruct (W_finite (Nat.max u v) (Nat.min u v)) as [w Hw]; [lia | lia |].
  exists w. split; [| exact Hw].
  rewrite Hweights, (last_written_end W N u v (proj1 W_square)).
  unfold graph_weight, n_rows. rewrite (proj1 W_square).
  destruct (Nat.ltb_spec u (N - 1)); [| lia].
  destruct (Nat.ltb_spec v (N - 1)); [| lia].
  cbn [andb]. rewrite Hw. reflexivity.
Qed.

Lemma complete_nodes (u : nat) : In u (nodes G) <-> u < N - 1.
Proof.
  destruct complete_invariant as (Hwf & Hnodes & _). split.
  - intros Hu. apply Hnodes. exact Hu.
  - intros Hu. destruct (complete_edge_weight u u Hu Hu) as (w & Hw & _).
    apply (edge_weight_nodes G u u w Hwf Hw).
Qed.

Lemma complete_connected : connected_graph G.
Proof.
  destruct complete_invariant as (Hwf & _ & _). split.
  - intros Hnil. assert (Hzero : In 0 (nodes G)) by (apply complete_nodes; lia).
    rewrite Hnil in Hzero. destruct Hzero.
  - intros u v Hu Hv. apply complete_nodes in Hu, Hv.
    destruct (complete_edge_weight u v Hu Hv) as (w & Hw & _).
    destruct (edge_weight_edges G u v w Hwf Hw) as [Hin | Hin].
    + eapply connected_edge. exact Hin.
    + apply connected_sym. eapply connected_edge. exact Hin.
Qed.

Lemma complete_size : length (nodes G) = N - 1.
Proof.
  destruct complete_invariant as (Hwf & _ & _).
  transitivity (length (seq 0 (N - 1))); [| apply length_seq].
  apply Permutation_length.
  apply NoDup_Permutation; [apply Hwf | apply seq_NoDup |].
  intros u. rewrite complete_nodes, in_seq. lia.
Qed.

End FiniteWeights.

(** X12.  When no entry of the leading block of an N x N weight matrix is
    [-np.inf] (as for the weights that come out of [np.exp]) and N >= 2, the
    graph of [get_mst] is the complete graph on the indices 0..N-2, with the
    lower-triangle entry as the weight of each edge; so [get_mst] returns a
    spanning tree with N-2 edges that no spanning tree outweighs. *)
Theorem get_mst_complete_graph {V : Type} `{WeightLaws V}
    (W : matrix (npfloat V)) (N : nat) :
  has_shape N N W -> 2 <= N -> all_finite W (N - 1) ->
  exists G T,
    mst_graph W = Ok G /\ get_mst W = Ok T /\
    (forall u, In u (nodes G) <-> u < N - 1) /\
    (forall u v, u < N - 1 -> v < N - 1 ->
       exists w, edge_of G (u, v, w) /\
                 entry W (Nat.max u v) (Nat.min u v) = Finite w) /\
    spanning_tree G (edges T) /\
    length (edges T) = N - 2 /\
    forall F, spanning_tree G F ->
      wleb (total_weight F) (total_weight (edges T)) = true.
Proof.
  intros HW HN Hfin. destruct (mst_graph_square W N HW) as (G & HG & _).
  pose proof (mst_graph_wf W G HG) as Hwf.
  destruct (maximum_spanning_tree_spec G Hwf (complete_connected W N HW HN Hfin G HG))
    as (_ & Htree & Hlen & Hmax).
  exists G, (maximum_spanning_tree G).
  split; [exact HG |]. split; [unfold get_mst; rewrite HG; reflexivity |].
  split; [apply (complete_nodes W N HW HN Hfin G HG) |]. split; [| split; [| split]].
  - intros u v Hu Hv.
    destruct (complete_edge_weight W N HW HN Hfin G HG u v Hu Hv) as (w & Hw & Hentry).
    exists w. split; [apply edge_of_edge_weight; assumption | exact Hentry].
  - exact Htree.
  - rewrite Hlen, (complete_size W N HW HN Hfin G HG). lia.
  - exact Hmax.
Qed.

Lemma example_weights_finite : all_finite example_weights 3.
Proof.
  intros a b Ha Hb.
  destruct a as [| [| [| a]]]; try lia; destruct b as [| [| [| b]]]; try lia;
    eexists; reflexivity.
Qed.

Lemma get_mst_complete_graph_witness :
  exists G T,
    mst_graph example_weights = Ok G /\ get_mst example_weights = Ok T /\
    length (edges T) = 2.
Proof.
  destruct (get_mst_complete_graph example_weights 4)
    as (G & T & HG & HT & _ & _ & _ & Hlen & _).
  - split; [reflexivity | repeat constructor].
  - lia.
  - exact example_weights_finite.
  - exists G, T. split; [exact HG |]. split; [exact HT | exact Hlen].
Defined.

(* ================================================================== *)
(** * More on generate_unweighted_adj_matrix *)
(* ================================================================== *)

Lemma joined_In (pairs : list (nat * nat)) (a b : nat) :
  joined pairs a b = true <-> In (a, b) pairs \/ In (b, a) pairs.
Proof.
  unfold joined. rewrite existsb_exists. split.
  - intros ([u v] & Hin & Hsame). unfold same_pair in Hsame. cbn [fst snd] in Hsame.
    rewrite orb_true_iff, !andb_true_iff, !Nat.eqb_eq in Hsame.
    destruct Hsame as [[-> ->] | [-> ->]]; [left | right]; exact Hin.
  - intros [Hin | Hin].
    + exists (a, b). split; [exact Hin | apply same_pair_refl].
    + exists (b, a). split; [exact Hin | apply same_pair_swap].
Qed.

Lemma np_set2_shape {A : Type} (rows cols : nat) (M M' : matrix A) (i j : Z) (x : A) :
  has_shape rows cols M -> np_set2 M i j x = Ok M' -> has_shape rows cols M'.
Proof.
  intros HM. unfold np_set2. intros Hset.
  apply bind_ok_inv in Hset. destruct Hset as (r & _ & Hset).
  destruct (nth_error M r) as [row |] eqn:Hrow; [| discriminate].
  apply bind_ok_inv in Hset. destruct Hset as (c & _ & [= <-]).
  apply has_shape_list_set; [exact HM |].
  rewrite length_list_set. destruct HM as [_ Hrows].
  rewrite Forall_forall in Hrows. apply Hrows. eapply nth_error_In. exact Hrow.
Qed.

(** The loop over any edges with ends below [n]. *)
Lemma mark_pairs_any (n : nat) (pairs : list (nat * nat)) :
  forall adj_matrix,
    has_shape n n adj_matrix ->
    (forall p, In p pairs -> fst p < n /\ snd p < n) ->
    exists adj',
      for_each mark_pair pairs adj_matrix = Ok adj' /\ has_shape n n adj' /\
      forall a b, a < n -> b < n ->
        mget 0%Z adj' a b = if joined pairs a b then 1%Z else mget 0%Z adj_matrix a b.
Proof.
  induction pairs as [| [u v] pairs IH]; intros A HA Hpairs.
  - exists A. split; [reflexivity |]. split; [exact HA | reflexivity].
  - destruct (Hpairs (u, v) (or_introl eq_refl)) as (Hu & Hv). cbn [fst snd] in Hu, Hv.
    destruct (np_set2_spec 0%Z n n A (Z.of_nat u) (Z.of_nat v) 1%Z HA
                (of_nat_in_range n u Hu) (of_nat_in_range n v Hv))
      as (A1 & Hset1 & HA1 & Hget1).
    destruct (np_set2_spec 0%Z n n A1 (Z.of_nat v) (Z.of_nat u) 1%Z HA1
                (of_nat_in_range n v Hv) (of_nat_in_range n u Hu))
      as (A2 & Hset2 & HA2 & Hget2).
    rewrite !position_of_nat in Hget1, Hget2.
    destruct (IH A2 HA2) as (A' & Hloop & HA' & Hget').
    { intros p Hp. apply Hpairs. right. exact Hp. }
    exists A'. split.
    + cbn [for_each]. unfold mark_pair at 1. cbn [fst snd].
      rewrite Hset1. cbn [bind]. rewrite Hset2. exact Hloop.
    + split; [exact HA' |].
      intros a b Ha Hb. rewrite Hget', Hget2, Hget1 by assumption.
      rewrite joined_cons. cbn [fst snd]. unfold same_pair.
      rewrite (Nat.eqb_sym u a), (Nat.eqb_sym v b), (Nat.eqb_sym u b), (Nat.eqb_sym v a).
      rewrite (andb_comm (b =? u)).
      destruct (joined pairs a b), ((a =? v) && (b =? u)), ((a =? u) && (b =? v));
        reflexivity.
Qed.

(** X13.  For any graph with at least one edge whose ends are all below
    [num_nodes] (self-loops and all), [generate_unweighted_adj_matrix]
    returns a num_nodes x num_nodes matrix of zeros and ones that is
    symmetric and has a one exactly where an edge, read in either direction,
    joins the two indices; a self-loop puts a one on the diagonal. *)
Theorem generate_unweighted_adj_matrix_marks_edges {V : Type}
    (mst : Graph V) (num_nodes : nat) :
  edge_pairs mst <> [] ->
  (forall p, In p (edge_pairs mst) -> fst p < num_nodes /\ snd p < num_nodes) ->
  exists adj,
    generate_unweighted_adj_matrix mst num_nodes = Ok adj /\
    has_shape num_nodes num_nodes adj /\
    forall a b, a < num_nodes -> b < num_nodes ->
      mget 0%Z adj a b = mget 0%Z adj b a /\
      (mget 0%Z adj a b = 0%Z \/ mget 0%Z adj a b = 1%Z) /\
      (mget 0%Z adj a b = 1%Z <->
       In (a, b) (edge_pairs mst) \/ In (b, a) (edge_pairs mst)).
Proof.
  intros Hne Hpairs. rewrite (generate_unweighted_adj_matrix_loop mst _ Hne).
  destruct (mark_pairs_any num_nodes (edge_pairs mst) (np_zeros 0%Z num_nodes num_nodes)
              (np_zeros_shape 0%Z _ _) Hpairs) as (adj & Hloop & Hshape & Hget).
  exists adj. split; [exact Hloop |]. split; [exact Hshape |].
  intros a b Ha Hb. rewrite !Hget by assumption. rewrite !mget_np_zeros.
  rewrite <- (joined_In (edge_pairs mst) a b).
  rewrite <- (joined_sym (edge_pairs mst) a b).
  destruct (joined (edge_pairs mst) a b).
  - split; [reflexivity |]. split; [right; reflexivity |]. split; reflexivity.
  - split; [reflexivity |]. split; [left; reflexivity |]. split; discriminate.
Qed.

Lemma generate_unweighted_adj_matrix_marks_edges_witness :
  exists adj,
    generate_unweighted_adj_matrix example_graph 3 = Ok adj /\
    mget 0%Z adj 1 1 = 1%Z.
Proof.
  destruct (generate_unweighted_adj_matrix_marks_edges example_graph 3)
    as (adj & Hrun & _ & Hcells).
  - discriminate.
  - intros p Hp. vm_compute in Hp.
    repeat (destruct Hp as [<- | Hp]; [simpl; lia |]). destruct Hp.
  - exists adj. split; [exact Hrun |].
    apply (Hcells 1 1); [lia | lia |]. left. vm_compute. tauto.
Defined.

Lemma mark_pair_ok_or_raises (n : nat) (adj_matrix : matrix Z) (p : nat * nat) :
  has_shape n n adj_matrix ->
  (exists adj', mark_pair adj_matrix p = Ok adj' /\ has_shape n n adj') \/
  mark_pair adj_matrix p = Raise index_error.
Proof.
  intros HA. unfold mark_pair.
  destruct (np_set2 adj_matrix (Z.of_nat (fst p)) (Z.of_nat (snd p)) 1%Z)
    as [A1 | e] eqn:Hset1; cbn [bind].
  - pose proof (np_set2_shape n n _ _ _ _ _ HA Hset1) as HA1.
    destruct (np_set2 A1 (Z.of_nat (snd p)) (Z.of_nat (fst p)) 1%Z)
      as [A2 | e] eqn:Hset2.
    + left. exists A2. split; [reflexivity |].
      apply (np_set2_shape n n _ _ _ _ _ HA1 Hset2).
    + right. rewrite (np_set2_raises _ _ _ _ e Hset2). reflexivity.
  - right. rewrite (np_set2_raises _ _ _ _ e Hset1). reflexivity.
Qed.

Lemma np_set2_beyond {A : Type} (n : nat) (M : matrix A) (i j : nat) (x : A) :
  has_shape n n M -> n <= i \/ n <= j ->
  np_set2 M (Z.of_nat i) (Z.of_nat j) x = Raise index_error.
Proof.
  intros HM Hij. unfold np_set2. rewrite (proj1 HM).
  destruct (Nat.lt_ge_cases i n) as [Hi | Hi].
  - rewrite np_index_in_range by lia. cbn [bind]. rewrite Nat2Z.id.
    destruct (nth_error M i) as [row |] eqn:Hrow; [| reflexivity].
    assert (Hlen : length row = n).
    { destruct HM as [_ Hrows]. rewrite Forall_forall in Hrows.
      apply Hrows. eapply nth_error_In. exact Hrow. }
    rewrite Hlen, np_index_outside by lia. reflexivity.
  - rewrite np_index_outside by lia. reflexivity.
Qed.

Lemma mark_pairs_beyond (n : nat) (pairs : list (nat * nat)) (adj_matrix : matrix Z) :
  has_shape n n adj_matrix ->
  (exists p, In p pairs /\ (n <= fst p \/ n <= snd p)) ->
  for_each mark_pair pairs adj_matrix = Raise index_error.
Proof.
  intros HA (p & Hp & Hbad).
  apply (for_each_raises_at (has_shape n n)); [| | exact HA].
  - intros A q HAq _. apply mark_pair_ok_or_raises. exact HAq.
  - exists p. split; [exact Hp |]. intros A HAp. unfold mark_pair.
    rewrite (np_set2_beyond n A (fst p) (snd p) 1%Z HAp Hbad). reflexivity.
Qed.

Lemma adj_matrix_node_beyond {V : Type} (mst : Graph V) (num_nodes : nat) (u v : nat) :
  In (u, v) (edge_pairs mst) -> num_nodes <= u \/ num_nodes <= v ->
  generate_unweighted_adj_matrix mst num_nodes = Raise index_error.
Proof.
  intros Hin Hbad.
  rewrite (generate_unweighted_adj_matrix_loop mst num_nodes)
    by (intros Hnil; rewrite Hnil in Hin; destruct Hin).
  apply (mark_pairs_beyond num_nodes); [apply np_zeros_shape |].
  exists (u, v). split; [exact Hin | exact Hbad].
Qed.

(** X14.  When an edge of the graph has an end that is not below
    [num_nodes], [generate_unweighted_adj_matrix] returns no matrix: it
    raises the IndexError of numpy, whatever the other edges are. *)
Theorem generate_unweighted_adj_matrix_node_out_of_range {V : Type}
    (mst : Graph V) (num_nodes : nat) (u v : nat) :
  In (u, v) (edge_pairs mst) -> num_nodes <= u \/ num_nodes <= v ->
  generate_unweighted_adj_matrix mst num_nodes = Raise index_error.
Proof. apply adj_matrix_node_beyond. Qed.

Lemma generate_unweighted_adj_matrix_node_out_of_range_witness :
  generate_unweighted_adj_matrix example_graph 2 = Raise index_error.
Proof.
  apply (generate_unweighted_adj_matrix_node_out_of_range example_graph 2 1 2).
  - vm_compute. tauto.
  - right. lia.
Defined.

(* ================================================================== *)
(** * The sub-pipeline on finite weights *)
(* ================================================================== *)

Lemma connected_touches {V : Type} (F : list (edge V)) (x y : nat) :
  connected F x y ->
  x = y \/
  ((exists a b w, In (a, b, w) F /\ (a = x \/ b = x)) /\
   (exists a b w, In (a, b, w) F /\ (a = y \/ b = y))).
Proof.
  intros Hxy.
  induction Hxy as [x y [w Hin] | x | x y _ IH | x y z _ IH1 _ IH2].
  - right. split; exists x, y, w; (split; [exact Hin |]); [left | right]; reflexivity.
  - left. reflexivity.
  - destruct IH as [-> | [Hx Hy]]; [left; reflexivity | right; split; assumption].
  - destruct IH1 as [-> | [Hx Hy]]; [exact IH2 |].
    destruct IH2 as [<- | [_ Hz]]; right; split; assumption.
Qed.

Lemma finite_weights_adjacency {V : Type} `{WeightLaws V}
    (W : matrix (npfloat V)) (N num_nodes : nat) :
  has_shape N N W -> 3 <= N -> all_finite W (N - 1) -> N - 1 <= num_nodes ->
  exists adj,
    adjacency_of_weights W num_nodes = Ok adj /\
    has_shape num_nodes num_nodes adj /\
    (forall a b, a < num_nodes -> b < num_nodes ->
       mget 0%Z adj a b = mget 0%Z adj b a /\
       (mget 0%Z adj a b = 0%Z \/ mget 0%Z adj a b = 1%Z) /\
       (mget 0%Z adj a b = 1%Z -> a <> b /\ a < N - 1 /\ b < N - 1)) /\
    count_nonzero adj = 2 * (N - 2).
Proof.
  intros HW HN Hfin Hnum. destruct (mst_graph_square W N HW) as (G & HG & _).
  pose proof (mst_graph_wf W G HG) as Hwf.
  assert (HN2 : 2 <= N) by lia.
  pose proof (complete_size W N HW HN2 Hfin G HG) as Hsize.
  destruct (adjacency_of_weights_spanning_tree W N num_nodes G HW HG
              (complete_connected W N HW HN2 Hfin G HG) ltac:(lia) Hnum)
    as (T & adj & HT & Htree & Hadj & Hshape & Hcells & Hcount).
  exists adj. split; [exact Hadj |]. split; [exact Hshape |]. split.
  - intros a b Ha Hb. destruct (Hcells a b Ha Hb) as (Hsym & Hbit & Hone).
    split; [exact Hsym |]. split; [exact Hbit |].
    intros Hab. apply Hone in Hab.
    destruct Htree as (Hsub & Hforest & _).
    assert (Hedge : forall u v, In (u, v) (edge_pairs T) ->
              u <> v /\ u < N - 1 /\ v < N - 1).
    { intros u v Hin. unfold edge_pairs in Hin. apply in_map_iff in Hin.
      destruct Hin as ([[u' v'] w] & [= -> ->] & Hin).
      split; [eapply forest_no_self_loop; eassumption |].
      pose proof (edge_of_within G Hwf (edges T) Hsub u v w Hin) as [Hu Hv].
      apply (complete_nodes W N HW HN2 Hfin G HG) in Hu, Hv. lia. }
    destruct Hab as [Hin | Hin]; apply Hedge in Hin; lia.
  - rewrite Hcount, Hsize. lia.
Qed.

(** The sub-pipeline on finite weights, with the graph and the tree. *)
Lemma finite_weights_tree {V : Type} `{WeightLaws V}
    (W : matrix (npfloat V)) (N num_nodes : nat) :
  has_shape N N W -> 3 <= N -> all_finite W (N - 1) -> N - 1 <= num_nodes ->
  exists G T adj,
    mst_graph W = Ok G /\
    (forall u, In u (nodes G) <-> u < N - 1) /\
    (forall u v, u < N - 1 -> v < N - 1 ->
       exists w, edge_of G (u, v, w) /\
                 entry W (Nat.max u v) (Nat.min u v) = Finite w) /\
    get_mst W = Ok T /\
    spanning_tree G (edges T) /\
    (forall F, spanning_tree G F ->
       wleb (total_weight F) (total_weight (edges T)) = true) /\
    adjacency_of_weights W num_nodes = Ok adj /\
    has_shape num_nodes num_nodes adj /\
    (forall a b, a < num_nodes -> b < num_nodes ->
       mget 0%Z adj a b = mget 0%Z adj b a /\
       (mget 0%Z adj a b = 0%Z \/ mget 0%Z adj a b = 1%Z) /\
       (mget 0%Z adj a b = 1%Z <->
        In (a, b) (edge_pairs T) \/ In (b, a) (edge_pairs T)) /\
       (mget 0%Z adj a b = 1%Z -> a <> b /\ a < N - 1 /\ b < N - 1)) /\
    count_nonzero adj = 2 * (N - 2).
Proof.
  intros HW HN Hfin Hnum. destruct (mst_graph_square W N HW) as (G & HG & _).
  pose proof (mst_graph_wf W G HG) as Hwf.
  assert (HN2 : 2 <= N) by lia.
  pose proof (complete_size W N HW HN2 Hfin G HG) as Hsize.
  pose proof (complete_connected W N HW HN2 Hfin G HG) as Hconn.
  destruct (maximum_spanning_tree_spec G Hwf Hconn) as (_ & _ & _ & Hmax).
  destruct (adjacency_of_weights_spanning_tree W N num_nodes G HW HG Hconn
              ltac:(lia) Hnum)
    as (T & adj & HT & Htree & Hadj & Hshape & Hcells & Hcount).
  assert (HTG : T = maximum_spanning_tree G).
  { unfold get_mst in HT. rewrite HG in HT. cbn [bind] in HT.
    injection HT as <-. reflexivity. }
  exists G, T, adj.
  split; [exact HG |].
  split; [apply (complete_nodes W N HW HN2 Hfin G HG) |].
  split.
  { intros u v Hu Hv.
    destruct (complete_edge_weight W N HW HN2 Hfin G HG u v Hu Hv) as (w & Hw & Hentry).
    exists w. split; [apply edge_of_edge_weight; assumption | exact Hentry]. }
  split; [exact HT |]. split; [exact Htree |].
  split; [rewrite HTG; exact Hmax |].
  split; [exact Hadj |]. split; [exact Hshape |]. split.
  - intros a b Ha Hb. destruct (Hcells a b Ha Hb) as (Hsym & Hbit & Hone).
    split; [exact Hsym |]. split; [exact Hbit |]. split; [exact Hone |].
    intros Hab. apply Hone in Hab.
    destruct Htree as (Hsub & Hforest & _).
    assert (Hedge : forall u v, In (u, v) (edge_pairs T) ->
              u <> v /\ u < N - 1 /\ v < N - 1).
    { intros u v Hin. unfold edge_pairs in Hin. apply in_map_iff in Hin.
      destruct Hin as ([[u' v'] w] & [= -> ->] & Hin).
      split; [eapply forest_no_self_loop; eassumption |].
      pose proof (edge_of_within G Hwf (edges T) Hsub u v w Hin) as [Hu Hv].
      apply (complete_nodes W N HW HN2 Hfin G HG) in Hu, Hv. lia. }
    destruct Hab as [Hin | Hin]; apply Hedge in Hin; lia.
  - rewrite Hcount, Hsize. lia.
Qed.

(** X15.  The sub-pipeline on an N x N matrix of finite weights, N >= 3,
    with room for the indices 0..N-2: it returns the adjacency matrix of a
    spanning tree of those indices, symmetric, of zeros and ones, with
    2 (N - 2) ones, none of them on the diagonal and none in a row or a
    column from N-1 on.  The node of the last row of the weight matrix is
    never linked. *)
Theorem adjacency_of_weights_finite {V : Type} `{WeightLaws V}
    (W : matrix (npfloat V)) (N num_nodes : nat) :
  has_shape N N W -> 3 <= N -> all_finite W (N - 1) -> N - 1 <= num_nodes ->
  exists adj,
    adjacency_of_weights W num_nodes = Ok adj /\
    has_shape num_nodes num_nodes adj /\
    (forall a b, a < num_nodes -> b < num_nodes ->
       mget 0%Z adj a b = mget 0%Z adj b a /\
       (mget 0%Z adj a b = 0%Z \/ mget 0%Z adj a b = 1%Z) /\
       (mget 0%Z adj a b = 1%Z -> a <> b /\ a < N - 1 /\ b < N - 1)) /\
    count_nonzero adj = 2 * (N - 2).
Proof. apply finite_weights_adjacency. Qed.

Lemma adjacency_of_weights_finite_witness :
  exists adj,
    adjacency_of_weights example_weights 4 = Ok adj /\ count_nonzero adj = 4.
Proof.
  destruct (adjacency_of_weights_finite example_weights 4 4)
    as (adj & Hrun & _ & _ & Hcount).
  - split; [reflexivity | repeat constructor].
  - lia.
  - exact example_weights_finite.
  - lia.
  - exists adj. split; [exact Hrun | exact Hcount].
Defined.

Lemma finite_weights_node_beyond {V : Type} `{WeightLaws V}
    (W : matrix (npfloat V)) (N num_nodes : nat) :
  has_shape N N W -> 3 <= N -> all_finite W (N - 1) -> num_nodes < N - 1 ->
  adjacency_of_weights W num_nodes = Raise index_error.
Proof.
  intros HW HN Hfin Hnum. destruct (mst_graph_square W N HW) as (G & HG & _).
  pose proof (mst_graph_wf W G HG) as Hwf.
  assert (HN2 : 2 <= N) by lia.
  destruct (maximum_spanning_tree_spec G Hwf (complete_connected W N HW HN2 Hfin G HG))
    as (_ & (_ & _ & Hconn) & _).
  unfold adjacency_of_weights, get_mst. rewrite HG. cbn [bind].
  destruct (connected_touches _ 0 (N - 2)
              (Hconn 0 (N - 2)
                 (proj2 (complete_nodes W N HW HN2 Hfin G HG 0) ltac:(lia))
                 (proj2 (complete_nodes W N HW HN2 Hfin G HG (N - 2)) ltac:(lia))))
    as [Heq | [_ (a & b & w & Hin & Hend)]]; [lia |].
  apply (adj_matrix_node_beyond _ num_nodes a b).
  - unfold edge_pairs. apply in_map_iff. exists (a, b, w). split; [reflexivity | exact Hin].
  - lia.
Qed.

(** X16.  The sub-pipeline on an N x N matrix of finite weights, N >= 3,
    asked for fewer nodes than the N - 1 indices of the tree: the tree has
    an edge at the index N - 2, and the adjacency matrix has no such row, so
    the IndexError of numpy comes out. *)
Theorem adjacency_of_weights_too_few_nodes {V : Type} `{WeightLaws V}
    (W : matrix (npfloat V)) (N num_nodes : nat) :
  has_shape N N W -> 3 <= N -> all_finite W (N - 1) -> num_nodes < N - 1 ->
  adjacency_of_weights W num_nodes = Raise index_error.
Proof. apply finite_weights_node_beyond. Qed.

Lemma adjacency_of_weights_too_few_nodes_witness :
  adjacency_of_weights example_weights 2 = Raise index_error.
Proof.
  apply (adjacency_of_weights_too_few_nodes example_weights 4 2).
  - split; [reflexivity | repeat constructor].
  - lia.
  - exact example_weights_finite.
  - simpl; lia.
Defined.

(* ================================================================== *)
(** * The orchestration *)
(* ================================================================== *)

Lemma bindM_ok_inv {C : Collaborators} {A B : Type} (c : M C A) (k : A -> M C B)
    (w : world C) (r : B * world C) :
  bindM c k w = Ok r -> exists a w', c w = Ok (a, w') /\ k a w' = Ok r.
Proof.
  unfold bindM. destruct (c w) as [[a w'] | e]; [| discriminate].
  intros Hk. exists a, w'. split; [reflexivity | exact Hk].
Qed.

Lemma lift_ok_inv {C : Collaborators} {A : Type} (r : result A) (w : world C)
    (a : A) (w' : world C) :
  lift r w = Ok (a, w') -> r = Ok a /\ w' = w.
Proof.
  unfold lift. destruct r as [x | e]; [| discriminate].
  intros [= -> ->]. split; reflexivity.
Qed.

Lemma shape_rows_cols {A : Type} (n : nat) (M : matrix A) :
  has_shape n n M -> n_rows M = n /\ n_cols M = n.
Proof.
  intros [Hlen Hrows]. split; [exact Hlen |].
  destruct M as [| row M]; [exact Hlen |].
  inversion Hrows; subst. assumption.
Qed.

Lemma site_codes_rows (sequences : list string) :
  Forall (fun row => length row = max_length sequences /\ Forall accepted_index row)
         (site_codes sequences).
Proof.
  pose proof (site_codes_shape sequences) as [_ Hlen].
  pose proof (site_codes_valid sequences) as Hvalid.
  rewrite Forall_forall in *. intros row Hrow. split; [apply Hlen; exact Hrow |].
  eapply Forall_impl; [| apply Hvalid; exact Hrow]. exact valid_symbol_accepted.
Qed.

Lemma as_weights_shape (rows cols : nat) (W : matrix R) :
  has_shape rows cols W -> has_shape rows cols (as_weights W).
Proof.
  intros [Hlen Hrows]. unfold as_weights. split.
  - rewrite length_map. exact Hlen.
  - apply Forall_map. eapply Forall_impl; [| exact Hrows].
    intros row Hrow. cbn beta. rewrite length_map. exact Hrow.
Qed.

Lemma as_weights_finite (N : nat) (W : matrix R) (n : nat) :
  has_shape N N W -> n <= N -> all_finite (as_weights W) n.
Proof.
  intros HW Hn a b Ha Hb. exists (mget 0%R W a b).
  pose proof (has_shape_row N N W a HW ltac:(lia)) as Hrow.
  destruct HW as [Hlen _]. unfold entry, mget, as_weights.
  rewrite nth_indep with (d' := map Finite []) by (rewrite length_map; lia).
  rewrite map_nth.
  rewrite nth_indep with (d' := Finite 0%R) by (rewrite length_map; lia).
  apply map_nth.
Qed.

Lemma entry_as_weights (N : nat) (W : matrix R) (a b : nat) :
  has_shape N N W -> a < N -> b < N ->
  entry (as_weights W) a b = Finite (mget 0%R W a b).
Proof.
  intros HW Ha Hb.
  pose proof (has_shape_row N N W a HW Ha) as Hrow.
  destruct HW as [Hlen _]. unfold entry, mget, as_weights.
  rewrite nth_indep with (d' := map Finite []) by (rewrite length_map; lia).
  rewrite map_nth.
  rewrite nth_indep with (d' := Finite 0%R) by (rewrite length_map; lia).
  apply map_nth.
Qed.

Section Pipeline.

Variable C : Collaborators.
Variable n_leaves : nat.
Variable alpha : R.

Lemma generate_node_features_run (w : world C) :
  generate_node_features C n_leaves alpha w
  = match fst (draw_sequences C n_leaves alpha (w_rng w)) with
    | [] => Raise max_empty
    | _ :: _ =>
        Ok (site_codes (fst (draw_sequences C n_leaves alpha (w_rng w))),
            {| w_rng := snd (draw_sequences C n_leaves alpha (w_rng w));
               w_stdout := w_stdout w |})
    end.
Proof.
  unfold generate_node_features, draw_sequences, bindM, random.
  destruct (create_tree C n_leaves (1 / 10) (w_rng w)) as [[tree_ opt] g1].
  cbn [fst snd w_rng w_stdout].
  destruct (simulate_seq C tree_ (JukesCantor C alpha) 10 g1) as [[sim_seq prob] g2].
  cbn [fst snd w_rng w_stdout].
  destruct sim_seq as [| s0 rest]; [reflexivity |].
  unfold lift, ret.
  destruct (one_hot (s0 :: rest)) as [encoded | e] eqn:Hrun; [| discriminate].
  rewrite (argmax_one_hot _ _ Hrun). reflexivity.
Qed.

Lemma generate_weighted_adj_matrix_empty (w : world C) :
  fst (draw_sequences C n_leaves alpha (w_rng w)) = [] ->
  generate_weighted_adj_matrix C n_leaves alpha w = Raise max_empty.
Proof.
  intros Hempty. unfold generate_weighted_adj_matrix, bindM.
  rewrite generate_node_features_run, Hempty. reflexivity.
Qed.

Lemma generate_weighted_adj_matrix_run (w : world C) :
  model_4x4 (JukesCantor C alpha) ->
  fst (draw_sequences C n_leaves alpha (w_rng w)) <> [] ->
  exists W,
    generate_weighted_adj_matrix C n_leaves alpha w
    = Ok (W, {| w_rng := snd (draw_sequences C n_leaves alpha (w_rng w));
                w_stdout := w_stdout w |}) /\
    build_weighted_adjacency_matrix
      (site_codes (fst (draw_sequences C n_leaves alpha (w_rng w))))
      (JukesCantor C alpha) = Ok W /\
    has_shape (length (fst (draw_sequences C n_leaves alpha (w_rng w))))
              (length (fst (draw_sequences C n_leaves alpha (w_rng w)))) W.
Proof.
  intros Hmodel Hne.
  set (sim := fst (draw_sequences C n_leaves alpha (w_rng w))) in *.
  destruct (log_likelihood_matrix_total (site_codes sim) (JukesCantor C alpha)
              (max_length sim) Hmodel (site_codes_rows sim)) as (L & Hloop).
  destruct (log_likelihood_matrix_cells _ _ L Hloop) as [HL _].
  rewrite (proj1 (site_codes_shape sim)) in HL.
  assert (Hbuild : build_weighted_adjacency_matrix (site_codes sim) (JukesCantor C alpha)
                   = Ok (np_exp L)).
  { unfold build_weighted_adjacency_matrix. rewrite Hloop. reflexivity. }
  exists (np_exp L). split; [| split; [exact Hbuild | apply np_exp_shape; exact HL]].
  unfold generate_weighted_adj_matrix, bindM.
  rewrite generate_node_features_run. fold sim.
  destruct sim as [| s0 rest] eqn:Hsim; [congruence |].
  unfold lift. rewrite Hbuild. reflexivity.
Qed.

(** The messages that [generate_data] leaves on standard output. *)
Lemma generate_data_run (w0 w1 w2 : world C) (features : matrix Z) (W : matrix R)
    (adj : matrix Z) :
  generate_node_features C n_leaves alpha w0 = Ok (features, w1) ->
  generate_weighted_adj_matrix C n_leaves alpha w1 = Ok (W, w2) ->
  adjacency_of_weights (as_weights W) n_leaves = Ok adj ->
  has_shape n_leaves n_leaves adj ->
  generate_data C n_leaves alpha w0
  = Ok ((csr_matrix adj, features),
        if n_rows features =? n_leaves then w2
        else {| w_rng := w_rng w2; w_stdout := w_stdout w2 ++ [shape_warning] |}).
Proof.
  intros H1 H2 Hadj Hshape. unfold adjacency_of_weights in Hadj.
  apply bind_ok_inv in Hadj. destruct Hadj as (mst & Hmst & Hmat).
  destruct (shape_rows_cols n_leaves adj Hshape) as [Hrows Hcols].
  unfold generate_data, bindM. rewrite H1, H2.
  unfold lift at 1. rewrite Hmst. unfold lift at 1. rewrite Hmat.
  rewrite Hrows, Hcols, Nat.eqb_refl. cbn [negb].
  destruct (n_rows features =? n_leaves); reflexivity.
Qed.

Lemma generate_data_inv (w0 w : world C) (adjacency : csr) (features : matrix Z) :
  generate_data C n_leaves alpha w0 = Ok ((adjacency, features), w) ->
  exists w1 W w2 adj,
    generate_node_features C n_leaves alpha w0 = Ok (features, w1) /\
    generate_weighted_adj_matrix C n_leaves alpha w1 = Ok (W, w2) /\
    adjacency_of_weights (as_weights W) n_leaves = Ok adj /\
    has_shape n_leaves n_leaves adj /\
    adjacency = csr_matrix adj.
Proof.
  unfold generate_data. intros Hrun.
  apply bindM_ok_inv in Hrun. destruct Hrun as (f1 & w1 & H1 & Hrun).
  apply bindM_ok_inv in Hrun. destruct Hrun as (W & w2 & H2 & Hrun).
  apply bindM_ok_inv in Hrun. destruct Hrun as (mst & w3 & Hmst & Hrun).
  apply lift_ok_inv in Hmst. destruct Hmst as [Hmst ->].
  apply bindM_ok_inv in Hrun. destruct Hrun as (adj & w4 & Hmat & Hrun).
  apply lift_ok_inv in Hmat. destruct Hmat as [Hmat ->].
  apply bindM_ok_inv in Hrun. destruct Hrun as ([] & w5 & _ & Hrun).
  apply bindM_ok_inv in Hrun. destruct Hrun as ([] & w6 & _ & Hrun).
  unfold ret in Hrun. injection Hrun as <- <- <-.
  assert (Hshape : has_shape n_leaves n_leaves adj).
  { destruct (edge_pairs mst) as [| p pairs] eqn:Hpairs.
    - unfold generate_unweighted_adj_matrix in Hmat. rewrite Hpairs in Hmat.
      discriminate.
    - rewrite (generate_unweighted_adj_matrix_loop mst n_leaves) in Hmat
        by (rewrite Hpairs; discriminate).
      revert Hmat.
      apply (for_each_preserves (has_shape n_leaves n_leaves));
        [| apply np_zeros_shape].
      intros A q A' HA Hstep. unfold mark_pair in Hstep.
      apply bind_ok_inv in Hstep. destruct Hstep as (A1 & Hset1 & Hset2).
      eapply np_set2_shape; [| exact Hset2].
      eapply np_set2_shape; [exact HA | exact Hset1]. }
  exists w1, W, w2, adj. split; [exact H1 |]. split; [exact H2 |].
  split; [| split; [exact Hshape | reflexivity]].
  unfold adjacency_of_weights. rewrite Hmst. exact Hmat.
Qed.

Lemma generate_data_raises (w0 w1 w2 : world C) (features : matrix Z) (W : matrix R)
    (e : exn) :
  generate_node_features C n_leaves alpha w0 = Ok (features, w1) ->
  generate_weighted_adj_matrix C n_leaves alpha w1 = Ok (W, w2) ->
  adjacency_of_weights (as_weights W) n_leaves = Raise e ->
  generate_data C n_leaves alpha w0 = Raise e.
Proof.
  intros H1 H2 Hadj. unfold adjacency_of_weights in Hadj.
  unfold generate_data, bindM. rewrite H1, H2. unfold lift at 1.
  destruct (get_mst (as_weights W)) as [mst | e']; cbn [bind] in Hadj.
  - unfold lift at 1. rewrite Hadj. reflexivity.
  - injection Hadj as ->. reflexivity.
Qed.

End Pipeline.

(** X17.  [generate_weighted_adj_matrix] draws one set of sequences and
    prints nothing.  If the simulator returns no sequence it raises the
    ValueError of [max]; otherwise, for a model with 4x4 transition
    matrices, it cannot fail: the features it builds are rectangular with
    symbols 0..3, so it returns the square matrix of weights of those
    features, one row for each simulated sequence. *)
Theorem generate_weighted_adj_matrix_outcome
    (C : Collaborators) (n_leaves : nat) (alpha : R) (w : world C) :
  model_4x4 (JukesCantor C alpha) ->
  let sim_seq := fst (draw_sequences C n_leaves alpha (w_rng w)) in
  (sim_seq = [] ->
   generate_weighted_adj_matrix C n_leaves alpha w = Raise max_empty) /\
  (sim_seq <> [] ->
   exists W,
     generate_weighted_adj_matrix C n_leaves alpha w
     = Ok (W, {| w_rng := snd (draw_sequences C n_leaves alpha (w_rng w));
                 w_stdout := w_stdout w |}) /\
     build_weighted_adjacency_matrix (site_codes sim_seq) (JukesCantor C alpha) = Ok W /\
     has_shape (length sim_seq) (length sim_seq) W).
Proof.
  intros Hmodel sim_seq. split.
  - apply generate_weighted_adj_matrix_empty.
  - apply generate_weighted_adj_matrix_run. exact Hmodel.
Qed.

Lemma generate_weighted_adj_matrix_outcome_witness :
  exists W,
    generate_weighted_adj_matrix example_collaborators 4 (1 / 10) example_world
    = Ok (W, @Build_world example_collaborators 1 []) /\
    has_shape 4 4 W.
Proof.
  destruct (proj2 (generate_weighted_adj_matrix_outcome
                     example_collaborators 4 (1 / 10) example_world
                     example_model_4x4))
    as (W & Hrun & _ & HW).
  - discriminate.
  - exists W. split; [exact Hrun | exact HW].
Defined.

(** X18.  Whenever [generate_data] returns, the features are those of the
    first draw of sequences, the generator has been used for two draws, the
    adjacency is n_leaves x n_leaves, and standard output has gained the
    warning about inconsistent shapes if the features do not have n_leaves
    rows, and nothing else: the warning about an invalid adjacency matrix is
    never printed. *)
Theorem generate_data_output
    (C : Collaborators) (n_leaves : nat) (alpha : R) (w0 w : world C)
    (adjacency : csr) (features : matrix Z) :
  generate_data C n_leaves alpha w0 = Ok ((adjacency, features), w) ->
  let draw1 := draw_sequences C n_leaves alpha (w_rng w0) in
  let draw2 := draw_sequences C n_leaves alpha (snd draw1) in
  features = site_codes (fst draw1) /\
  w_rng w = snd draw2 /\
  csr_shape adjacency = (n_leaves, n_leaves) /\
  w_stdout w
  = w_stdout w0 ++ (if n_rows features =? n_leaves then [] else [shape_warning]).
Proof.
  intros Hrun draw1 draw2.
  destruct (generate_data_inv C n_leaves alpha w0 w adjacency features Hrun)
    as (w1 & W & w2 & adj & H1 & H2 & Hadj & Hshape & ->).
  rewrite (generate_data_run C n_leaves alpha w0 w1 w2 features W adj H1 H2 Hadj Hshape)
    in Hrun.
  injection Hrun as Hw.
  rewrite generate_node_features_run in H1. fold draw1 in H1.
  destruct (fst draw1) as [| s0 rest] eqn:Hsim1; [discriminate |].
  injection H1 as Hfeatures Hw1.
  assert (Hw2 : w_rng w2 = snd draw2 /\ w_stdout w2 = w_stdout w0).
  { unfold generate_weighted_adj_matrix in H2.
    apply bindM_ok_inv in H2. destruct H2 as (f2 & w1' & Hf2 & H2).
    rewrite generate_node_features_run in Hf2. rewrite <- Hw1 in Hf2.
    cbn [w_rng w_stdout] in Hf2. fold draw1 draw2 in Hf2.
    destruct (fst draw2); [discriminate |]. injection Hf2 as _ <-.
    apply bindM_ok_inv in H2. destruct H2 as (W' & w2' & HW' & H2).
    apply lift_ok_inv in HW'. destruct HW' as [_ ->].
    unfold ret in H2. injection H2 as _ <-. split; reflexivity. }
  destruct Hw2 as [Hrng Hout].
  destruct (shape_rows_cols n_leaves adj Hshape) as [Hrows Hcols].
  split; [symmetry; exact Hfeatures |]. split; [| split].
  - rewrite <- Hw. destruct (n_rows features =? n_leaves); exact Hrng.
  - unfold csr_matrix. cbn [csr_shape]. rewrite Hrows, Hcols. reflexivity.
  - rewrite <- Hw. destruct (n_rows features =? n_leaves); cbn [w_stdout].
    + rewrite app_nil_r. exact Hout.
    + rewrite Hout. reflexivity.
Qed.

Lemma example_run_five :
  generate_data example_collaborators 5 (1 / 10) example_world
  = Ok ((csr_matrix adjacency_12_five, first_features),
        @Build_world example_collaborators 2 [shape_warning]).
Proof.
  assert (Hadj : adjacency_of_weights
                   (as_weights (weights_12 (exp_float (ten_sites (7 / 10)))
                                           (exp_float (ten_sites (1 / 10)))
                                           (exp_float 0))) 5
                 = Ok adjacency_12_five).
  { unfold adjacency_of_weights. destruct ten_sites_order as [Hba Hac].
    rewrite (get_mst_weights_12 _ _ _ Hba Hac). reflexivity. }
  rewrite (generate_data_run example_collaborators 5 (1 / 10) example_world
             (@Build_world example_collaborators 1 [])
             (@Build_world example_collaborators 2 [])
             first_features _ adjacency_12_five
             eq_refl eq_refl Hadj).
  - reflexivity.
  - split; [reflexivity | repeat constructor].
Qed.

Lemma generate_data_output_witness :
  csr_shape (csr_matrix adjacency_12_five) = (5, 5) /\
  w_stdout (@Build_world example_collaborators 2 [shape_warning])
  = w_stdout example_world ++ [shape_warning].
Proof.
  destruct (generate_data_output example_collaborators 5 (1 / 10) example_world
              _ _ _ example_run_five) as (_ & _ & Hshape & Hout).
  split; [exact Hshape | exact Hout].
Defined.

Section PipelineRuns.

Variable C : Collaborators.
Variable n_leaves : nat.
Variable alpha : R.
Variable w0 : world C.

Hypothesis model_shape : model_4x4 (JukesCantor C alpha).

Let draw1 := draw_sequences C n_leaves alpha (w_rng w0).
Let draw2 := draw_sequences C n_leaves alpha (snd draw1).

Hypothesis first_draw_not_empty : fst draw1 <> [].
Hypothesis second_draw_size : 3 <= length (fst draw2).

Lemma pipeline_first_draw :
  generate_node_features C n_leaves alpha w0
  = Ok (site_codes (fst draw1), {| w_rng := snd draw1; w_stdout := w_stdout w0 |}).
Proof.
  rewrite generate_node_features_run. fold draw1.
  destruct (fst draw1); [congruence | reflexivity].
Qed.

Lemma pipeline_second_draw :
  exists W,
    generate_weighted_adj_matrix C n_leaves alpha
      {| w_rng := snd draw1; w_stdout := w_stdout w0 |}
    = Ok (W, {| w_rng := snd draw2; w_stdout := w_stdout w0 |}) /\
    build_weighted_adjacency_matrix (site_codes (fst draw2)) (JukesCantor C alpha)
    = Ok W /\
    has_shape (length (fst draw2)) (length (fst draw2)) W.
Proof.
  destruct (generate_weighted_adj_matrix_run C n_leaves alpha
              {| w_rng := snd draw1; w_stdout := w_stdout w0 |} model_shape)
    as (W & Hrun & Hbuild & HW).
  - cbn [w_rng]. fold draw2. intros Hnil. rewrite Hnil in second_draw_size.
    simpl in second_draw_size. lia.
  - exists W. split; [exact Hrun |]. split; [exact Hbuild | exact HW].
Qed.

Lemma pipeline_spanning_tree :
  length (fst draw2) - 1 <= n_leaves ->
  exists W G T adj w,
    build_weighted_adjacency_matrix (site_codes (fst draw2)) (JukesCantor C alpha)
    = Ok W /\
    mst_graph (as_weights W) = Ok G /\
    (forall u, In u (nodes G) <-> u < length (fst draw2) - 1) /\
    (forall u v, u < length (fst draw2) - 1 -> v < length (fst draw2) - 1 ->
       edge_of G (u, v, mget 0%R W (Nat.max u v) (Nat.min u v))) /\
    get_mst (as_weights W) = Ok T /\
    spanning_tree G (edges T) /\
    (forall F, spanning_tree G F ->
       wleb (total_weight F) (total_weight (edges T)) = true) /\
    generate_data C n_leaves alpha w0
    = Ok ((csr_matrix adj, site_codes (fst draw1)), w) /\
    has_shape n_leaves n_leaves adj /\
    (forall a b, a < n_leaves -> b < n_leaves ->
       mget 0%Z adj a b = mget 0%Z adj b a /\
       (mget 0%Z adj a b = 0%Z \/ mget 0%Z adj a b = 1%Z) /\
       (mget 0%Z adj a b = 1%Z <->
        In (a, b) (edge_pairs T) \/ In (b, a) (edge_pairs T)) /\
       (mget 0%Z adj a b = 1%Z ->
        a <> b /\ a < length (fst draw2) - 1 /\ b < length (fst draw2) - 1)) /\
    count_nonzero adj = 2 * (length (fst draw2) - 2).
Proof.
  intros Hroom. destruct pipeline_second_draw as (W & Hrun & Hbuild & HW).
  destruct (finite_weights_tree (as_weights W) (length (fst draw2)) n_leaves
              (as_weights_shape _ _ W HW) second_draw_size
              (as_weights_finite (length (fst draw2)) W (length (fst draw2) - 1) HW
                 (Nat.le_sub_l _ _)) Hroom)
    as (G & T & adj & HG & Hnodes & Hedges & HT & Htree & Hmax & Hadj & Hshape
        & Hcells & Hcount).
  exists W, G, T, adj. eexists.
  split; [exact Hbuild |]. split; [exact HG |]. split; [exact Hnodes |].
  split.
  { intros u v Hu Hv. destruct (Hedges u v Hu Hv) as (x & Hx & Hentry).
    rewrite (entry_as_weights _ W _ _ HW) in Hentry by lia.
    injection Hentry as <-. exact Hx. }
  split; [exact HT |]. split; [exact Htree |]. split; [exact Hmax |].
  split; [| split; [exact Hshape | split; [exact Hcells | exact Hcount]]].
  apply (generate_data_run C n_leaves alpha w0 _ _ _ W adj
           pipeline_first_draw Hrun Hadj Hshape).
Qed.

Lemma pipeline_node_beyond :
  n_leaves < length (fst draw2) - 1 ->
  generate_data C n_leaves alpha w0 = Raise index_error.
Proof.
  intros Hfew. destruct pipeline_second_draw as (W & Hrun & _ & HW).
  apply (generate_data_raises C n_leaves alpha w0 _ _ _ W index_error
           pipeline_first_draw Hrun).
  apply (finite_weights_node_beyond (as_weights W) (length (fst draw2)) n_leaves
           (as_weights_shape _ _ W HW) second_draw_size
           (as_weights_finite (length (fst draw2)) W (length (fst draw2) - 1) HW
                 (Nat.le_sub_l _ _)) Hfew).
Qed.

End PipelineRuns.

(** X19.  A run of [generate_data] in which the first draw gives some
    sequences and the second draw gives N >= 3 sequences with
    N - 1 <= n_leaves (a model with 4x4 transition matrices): it returns the
    features of the first draw, and as adjacency that of a maximum spanning
    tree of the second draw.  With W the weight matrix of the features of
    the second draw, the graph G of [get_mst] is the complete graph on the
    indices 0..N-2 with the weights of the lower triangle of W; the tree T
    that [get_mst] returns is a spanning tree of G that no spanning tree of
    G outweighs; and the adjacency is the n_leaves x n_leaves matrix of T:
    symmetric, of zeros and ones, with a one exactly where an edge of T
    joins the two indices, so 2 (N - 2) ones, none on the diagonal, none in
    a row or column from N - 1 on.  With N = n_leaves the last leaf has no
    link. *)
Theorem generate_data_spanning_tree
    (C : Collaborators) (n_leaves : nat) (alpha : R) (w0 : world C) :
  model_4x4 (JukesCantor C alpha) ->
  let draw1 := draw_sequences C n_leaves alpha (w_rng w0) in
  let draw2 := draw_sequences C n_leaves alpha (snd draw1) in
  fst draw1 <> [] -> 3 <= length (fst draw2) -> length (fst draw2) - 1 <= n_leaves ->
  exists W G T adj w,
    build_weighted_adjacency_matrix (site_codes (fst draw2)) (JukesCantor C alpha)
    = Ok W /\
    mst_graph (as_weights W) = Ok G /\
    (forall u, In u (nodes G) <-> u < length (fst draw2) - 1) /\
    (forall u v, u < length (fst draw2) - 1 -> v < length (fst draw2) - 1 ->
       edge_of G (u, v, mget 0%R W (Nat.max u v) (Nat.min u v))) /\
    get_mst (as_weights W) = Ok T /\
    spanning_tree G (edges T) /\
    (forall F, spanning_tree G F ->
       wleb (total_weight F) (total_weight (edges T)) = true) /\
    generate_data C n_leaves alpha w0
    = Ok ((csr_matrix adj, site_codes (fst draw1)), w) /\
    has_shape n_leaves n_leaves adj /\
    (forall a b, a < n_leaves -> b < n_leaves ->
       mget 0%Z adj a b = mget 0%Z adj b a /\
       (mget 0%Z adj a b = 0%Z \/ mget 0%Z adj a b = 1%Z) /\
       (mget 0%Z adj a b = 1%Z <->
        In (a, b) (edge_pairs T) \/ In (b, a) (edge_pairs T)) /\
       (mget 0%Z adj a b = 1%Z ->
        a <> b /\ a < length (fst draw2) - 1 /\ b < length (fst draw2) - 1)) /\
    count_nonzero adj = 2 * (length (fst draw2) - 2).
Proof.
  intros Hmodel draw1 draw2 Hfirst Hsecond Hroom.
  apply (pipeline_spanning_tree C n_leaves alpha w0 Hmodel Hfirst Hsecond Hroom).
Qed.

Lemma generate_data_spanning_tree_witness :
  exists (G T : Graph R) adj w,
    generate_data example_collaborators 4 (1 / 10) example_world
    = Ok ((csr_matrix adj, first_features), w) /\
    spanning_tree G (edges T) /\
    count_nonzero adj = 4.
Proof.
  destruct (generate_data_spanning_tree example_collaborators 4 (1 / 10) example_world)
    as (W & G & T & adj & w & _ & _ & _ & _ & _ & Htree & _ & Hrun & _ & _ & Hcount).
  - exact example_model_4x4.
  - discriminate.
  - simpl; lia.
  - simpl; lia.
  - exists G, T, adj, w. split; [exact Hrun |]. split; [exact Htree | exact Hcount].
Defined.

(** X20.  A run of [generate_data] in which the second draw gives N >= 3
    sequences and n_leaves < N - 1: the tree has an edge at the index N - 2,
    for which the n_leaves x n_leaves adjacency matrix has no row, and the
    call ends in the IndexError of numpy. *)
Theorem generate_data_too_many_sequences
    (C : Collaborators) (n_leaves : nat) (alpha : R) (w0 : world C) :
  model_4x4 (JukesCantor C alpha) ->
  let draw1 := draw_sequences C n_leaves alpha (w_rng w0) in
  let draw2 := draw_sequences C n_leaves alpha (snd draw1) in
  fst draw1 <> [] -> 3 <= length (fst draw2) -> n_leaves < length (fst draw2) - 1 ->
  generate_data C n_leaves alpha w0 = Raise index_error.
Proof.
  intros Hmodel draw1 draw2 Hfirst Hsecond Hfew.
  apply (pipeline_node_beyond C n_leaves alpha w0 Hmodel Hfirst Hsecond Hfew).
Qed.

Lemma generate_data_too_many_sequences_witness :
  generate_data example_collaborators 2 (1 / 10) example_world = Raise index_error.
Proof.
  apply (generate_data_too_many_sequences example_collaborators 2 (1 / 10) example_world).
  - exact example_model_4x4.
  - discriminate.
  - simpl; lia.
  - simpl; lia.
Defined.

(** A weight matrix with at most two rows gives a tree without edges, for
    which the array of edges has no second axis. *)
Lemma small_weights_no_edges {V : Type} `{Weight V}
    (W : matrix (npfloat V)) (N num_nodes : nat) :
  has_shape N N W -> N <= 2 ->
  adjacency_of_weights W num_nodes = Raise tuple_index_error.
Proof.
  intros [Hlen Hrows] HN.
  destruct W as [| r1 [| r2 [| r3 W]]]; cbn [length] in Hlen; try lia.
  - reflexivity.
  - reflexivity.
  - subst N. inversion Hrows as [| ? ? Hr1 Hrows']; subst.
    destruct r1 as [| [| a] [| b [| c r1]]]; cbn [length] in Hr1; try lia; reflexivity.
Qed.

(** X21.  [generate_data] needs three sequences at least from the second
    draw.  If one of the two draws gives no sequence, the call ends in the
    ValueError of [max]; if the second draw gives one or two sequences (and
    the model has 4x4 transition matrices), the tree has no edge and the
    call ends in an IndexError on the shape of the array of edges. *)
Theorem generate_data_few_sequences
    (C : Collaborators) (n_leaves : nat) (alpha : R) (w0 : world C) :
  model_4x4 (JukesCantor C alpha) ->
  let draw1 := draw_sequences C n_leaves alpha (w_rng w0) in
  let draw2 := draw_sequences C n_leaves alpha (snd draw1) in
  (fst draw1 = [] \/ fst draw2 = [] ->
   generate_data C n_leaves alpha w0 = Raise max_empty) /\
  (fst draw1 <> [] -> 1 <= length (fst draw2) <= 2 ->
   generate_data C n_leaves alpha w0 = Raise tuple_index_error).
Proof.
  intros Hmodel draw1 draw2.
  pose proof (generate_node_features_run C n_leaves alpha w0) as Hfirst.
  fold draw1 in Hfirst. split.
  - intros Hempty. unfold generate_data, bindM at 1. rewrite Hfirst.
    destruct (fst draw1) as [| s0 rest] eqn:Hsim1; [reflexivity |].
    destruct Hempty as [Hempty | Hempty]; [discriminate |].
    unfold bindM at 1.
    rewrite (generate_weighted_adj_matrix_empty C n_leaves alpha
               {| w_rng := snd draw1; w_stdout := w_stdout w0 |} Hempty).
    reflexivity.
  - intros Hne Hsize.
    destruct (fst draw1) as [| s0 rest] eqn:Hsim1; [congruence |].
    destruct (generate_weighted_adj_matrix_run C n_leaves alpha
                {| w_rng := snd draw1; w_stdout := w_stdout w0 |} Hmodel)
      as (W & Hrun & _ & HW).
    { cbn [w_rng]. fold draw2. intros Hnil. rewrite Hnil in Hsize.
      simpl in Hsize. lia. }
    cbn [w_rng] in HW. fold draw2 in HW.
    apply (generate_data_raises C n_leaves alpha w0 _ _ _ W tuple_index_error
             Hfirst Hrun).
    apply (small_weights_no_edges (as_weights W) (length (fst draw2)) n_leaves
             (as_weights_shape _ _ W HW)).
    lia.
Qed.

Lemma generate_data_few_sequences_witness :
  generate_data short_collaborators 4 (1 / 10) (@Build_world short_collaborators 0 [])
  = Raise tuple_index_error.
Proof.
  apply (proj2 (generate_data_few_sequences short_collaborators 4 (1 / 10)
                  (@Build_world short_collaborators 0 []) example_model_4x4)).
  - discriminate.
  - simpl; lia.
Defined.
